(** * The bridge daemon of openclaw-bridge-template, embedded in Rocq

    The daemon (the second program of [src/bridge/client.js], from
    [const BRIDGE_ROOT] on) authenticates local clients over a stream socket,
    routes envelopes between them under per-client allowlists, queues
    envelopes for offline recipients, and serves a token-gated HTTP API.

    The embedding follows the source function by function.  JavaScript
    values are an inductive type, [Map] and [Set] are insertion-ordered
    association lists compared with SameValueZero, exceptions are a sum
    type, sockets are logs of the frames written to them, and the runtime's
    own services (JSON.parse, the SHA-256 digest, the clock and the random
    source) are Section variables. *)

From Stdlib Require Import ZArith Lia Bool Ascii DecimalString.
From Stdlib Require Strings.Byte.
From stdpp Require Import base list strings sorting.

Local Open Scope Z_scope.
Set Warnings "-register-all".

(** ** JavaScript values *)

(** The values [JSON.parse] produces, plus [undefined], which property
    access yields for an absent field.  Numbers are kept as integers: no
    property below depends on a fractional value. *)
Inductive value : Type :=
| VUndef
| VNull
| VBool (b : bool)
| VNum (n : Z)
| VStr (s : string)
| VArr (xs : list value)
| VObj (fields : list (string * value)).

(** ToBoolean: [undefined], [null], [false], [0] and the empty string are
    falsy, every other value (all objects and arrays included) is truthy. *)
Definition truthy (v : value) : bool :=
  match v with
  | VUndef | VNull => false
  | VBool b => b
  | VNum n => negb (n =? 0)
  | VStr s => negb (String.eqb s "")
  | VArr _ | VObj _ => true
  end.

(** [a || b] *)
Definition js_or (a b : value) : value := if truthy a then a else b.

(** [typeof v === "string"] *)
Definition isString (v : value) : bool :=
  match v with VStr _ => true | _ => false end.

(** [Array.isArray(v)] *)
Definition isArray (v : value) : bool :=
  match v with VArr _ => true | _ => false end.

(** SameValueZero, the key equality of [Map], [Set] and
    [Array.prototype.includes].  Objects and arrays are equal only to
    themselves as references; two values that come from different places of
    a parsed document, or from different [JSON.parse] calls, never are. *)
Definition sameValueZero (a b : value) : bool :=
  match a, b with
  | VUndef, VUndef => true
  | VNull, VNull => true
  | VBool x, VBool y => Bool.eqb x y
  | VNum x, VNum y => x =? y
  | VStr x, VStr y => String.eqb x y
  | _, _ => false
  end.

(** [xs.includes(v)] *)
Definition includes (xs : list value) (v : value) : bool :=
  existsb (sameValueZero v) xs.

(** Own-property lookup in an object literal: the first binding of the
    key. *)
Fixpoint lookupField (k : string) (fs : list (string * value)) : option value :=
  match fs with
  | [] => None
  | (k', v) :: fs' => if String.eqb k k' then Some v else lookupField k fs'
  end.

(** Exceptions, for the code that can throw. *)
Inductive result (A : Type) : Type :=
| Ok (a : A)
| Throw (message : string).
Arguments Ok {A} a.
Arguments Throw {A} message.

Definition bind {A B} (r : result A) (k : A -> result B) : result B :=
  match r with
  | Ok a => k a
  | Throw m => Throw m
  end.

Notation "'attempt' x <- r ;; k" := (bind r (fun x => k))
  (at level 10, x name, r at level 99, k at level 200).

Definition isOk {A} (r : result A) : bool :=
  match r with Ok _ => true | Throw _ => false end.

(** [v.k]: reading a property of [null] or [undefined] throws a TypeError;
    on any other value a field that is not an own property of an object is
    [undefined] (none of the field names the daemon reads is a built-in
    property of strings, numbers, booleans or arrays). *)
Definition getProp (v : value) (k : string) : result value :=
  match v with
  | VUndef | VNull => Throw "TypeError: cannot read properties of null or undefined"
  | VObj fs => Ok (default VUndef (lookupField k fs))
  | _ => Ok VUndef
  end.

(** [v.k] where [v] is known not to be [null] or [undefined]. *)
Definition field (v : value) (k : string) : value :=
  match v with
  | VObj fs => default VUndef (lookupField k fs)
  | _ => VUndef
  end.

(** [String(v)] *)
Definition stringOfZ (n : Z) : string := NilZero.string_of_int (Z.to_int n).

Fixpoint toString (v : value) : string :=
  match v with
  | VUndef => "undefined"
  | VNull => "null"
  | VBool true => "true"
  | VBool false => "false"
  | VNum n => stringOfZ n
  | VStr s => s
  | VArr xs =>
      (fix join (l : list value) : string :=
         match l with
         | [] => ""
         | x :: l' =>
             let sx := match x with VUndef | VNull => "" | _ => toString x end in
             match l' with
             | [] => sx
             | _ => sx +:+ "," +:+ join l'
             end
         end) xs
  | VObj _ => "[object Object]"
  end.

(** ** Insertion-ordered [Map] and [Set] *)

Section JsMap.
Context {V : Type}.

Fixpoint map_get (k : value) (m : list (value * V)) : option V :=
  match m with
  | [] => None
  | (k', v) :: m' => if sameValueZero k' k then Some v else map_get k m'
  end.

(** [m.has(k)] *)
Definition map_has (k : value) (m : list (value * V)) : bool :=
  match map_get k m with Some _ => true | None => false end.

(** [m.set(k, v)]: an existing key keeps its place, a new one goes last. *)
Fixpoint map_set (k : value) (v : V) (m : list (value * V)) : list (value * V) :=
  match m with
  | [] => [(k, v)]
  | (k', v') :: m' =>
      if sameValueZero k' k then (k', v) :: m' else (k', v') :: map_set k v m'
  end.

(** [m.delete(k)] *)
Fixpoint map_delete (k : value) (m : list (value * V)) : list (value * V) :=
  match m with
  | [] => []
  | (k', v') :: m' =>
      if sameValueZero k' k then m' else (k', v') :: map_delete k m'
  end.
End JsMap.

(** ** Hashes *)

(** Node's hex codec.  [Buffer.from(s, "hex")] decodes pairs of hex digits
    and stops at the first pair that has a character outside [0-9a-fA-F];
    a trailing single digit is dropped. *)
Definition unhex (c : ascii) : option N :=
  let n := N_of_ascii c in
  if ((48 <=? n) && (n <=? 57))%N then Some (n - 48)%N
  else if ((97 <=? n) && (n <=? 102))%N then Some (n - 87)%N
  else if ((65 <=? n) && (n <=? 70))%N then Some (n - 55)%N
  else None.

Definition byteOfN (n : N) : Byte.byte := byte_of_ascii (ascii_of_N n).

Fixpoint hexDecode (s : string) : list Byte.byte :=
  match s with
  | String a (String b s') =>
      match unhex a, unhex b with
      | Some hi, Some lo => byteOfN (16 * hi + lo) :: hexDecode s'
      | _, _ => []
      end
  | _ => []
  end.

Definition hexDigit (d : N) : ascii :=
  ascii_of_N (if (d <? 10)%N then 48 + d else 87 + d)%N.

(** [buf.toString("hex")] and [digest("hex")]: lowercase, two digits a
    byte. *)
Fixpoint hexEncode (bs : list Byte.byte) : string :=
  match bs with
  | [] => ""
  | b :: bs' =>
      let n := Byte.to_N b in
      String (hexDigit (n / 16)) (String (hexDigit (n mod 16)) (hexEncode bs'))
  end.

Fixpoint bytesEqual (a b : list Byte.byte) : bool :=
  match a, b with
  | [], [] => true
  | x :: a', y :: b' => Byte.eqb x y && bytesEqual a' b'
  | _, _ => false
  end.

(** [crypto.timingSafeEqual(a, b)] throws a RangeError when the two buffers
    differ in length. *)
Definition timingSafeEqual (a b : list Byte.byte) : result bool :=
  if (length a =? length b)%nat then Ok (bytesEqual a b)
  else Throw "RangeError: input buffers must have the same byte length".

(** The services of the Node runtime the daemon calls. *)
Class Runtime := {
  (** the SHA-256 digest of a text, as bytes *)
  sha256_digest : string -> list Byte.byte;
  (** [JSON.parse]; [None] when it throws a SyntaxError *)
  JSON_parse : string -> option value;
  (** what the n-th call of [new Date().toISOString()] returns *)
  clock : nat -> string;
  (** the hex form of what the n-th call of [crypto.randomBytes(8)] returns *)
  entropy : nat -> string;
  (** [process.cwd()] *)
  cwd : string;
}.

Section Hashing.
Context {rt : Runtime}.

(** [sha256(input)] *)
Definition sha256 (input : value) : string :=
  hexEncode (sha256_digest (toString input)).

(** [safeCompareHash(plain, expectedHash)] *)
Definition safeCompareHash (plain expectedHash : value) : result bool :=
  let actual := hexDecode (sha256 plain) in
  let expected := hexDecode (toString (js_or expectedHash (VStr ""))) in
  if negb (length actual =? length expected)%nat then Ok false
  else timingSafeEqual actual expected.

End Hashing.

(** ** Text of the stream *)

Definition LF : ascii := "010"%char.

(** [Buffer.byteLength(s, "utf8")]: a text is kept as its UTF-8 bytes. *)
Definition byteLength (s : string) : Z := Z.of_nat (String.length s).

(** [s.indexOf(c)], [None] for -1. *)
Fixpoint indexOf (c : ascii) (s : string) : option nat :=
  match s with
  | EmptyString => None
  | String a s' => if Ascii.eqb a c then Some 0%nat else S <$> indexOf c s'
  end.

(** [s.slice(0, n)] *)
Fixpoint sliceTo (n : nat) (s : string) : string :=
  match n, s with
  | S n', String a s' => String a (sliceTo n' s')
  | _, _ => EmptyString
  end.

(** [s.slice(n)] *)
Fixpoint sliceFrom (n : nat) (s : string) : string :=
  match n, s with
  | S n', String _ s' => sliceFrom n' s'
  | _, _ => s
  end.

(** The white space and line terminators of the ASCII range, which
    [trim] strips: tab, line feed, vertical tab, form feed, carriage return
    and space. *)
Definition isWhiteSpace (c : ascii) : bool :=
  let n := nat_of_ascii c in
  ((9 <=? n) && (n <=? 13) || (n =? 32))%nat.

Fixpoint trimStart (s : string) : string :=
  match s with
  | EmptyString => EmptyString
  | String a s' => if isWhiteSpace a then trimStart s' else s
  end.

(** [s.trim()] *)
Definition trim (s : string) : string :=
  String.rev (trimStart (String.rev (trimStart s))).

(** [s.startsWith(p)] *)
Definition startsWith (p s : string) : bool := String.prefix p s.

(** ** Config loader *)

(** [obj[k] = v] on an object literal: an existing property keeps its
    place. *)
Fixpoint setField (k : string) (v : value) (fs : list (string * value))
  : list (string * value) :=
  match fs with
  | [] => [(k, v)]
  | (k', v') :: fs' =>
      if String.eqb k k' then (k', v) :: fs' else (k', v') :: setField k v fs'
  end.

Definition stringOfNat (n : nat) : string := stringOfZ (Z.of_nat n).

Fixpoint charEntries (i : nat) (s : string) : list (string * value) :=
  match s with
  | EmptyString => []
  | String c s' => (stringOfNat i, VStr (String c "")) :: charEntries (S i) s'
  end.

(** The own enumerable properties [Object.assign] copies from a source,
    each name with the value a read of it gives: the fields of an object,
    the indices of an array or of a string, and nothing for the other
    primitives, [null] and [undefined]. *)
Definition ownEntries (v : value) : list (string * value) :=
  match v with
  | VObj fs => map (fun kv => (kv.1, default VUndef (lookupField kv.1 fs))) fs
  | VArr xs => imap (fun i x => (stringOfNat i, x)) xs
  | VStr s => charEntries 0 s
  | _ => []
  end.

(** [Object.assign(target, source)] *)
Definition objectAssign (target : list (string * value)) (source : value)
  : list (string * value) :=
  foldl (fun t kv => setField kv.1 kv.2 t) target (ownEntries source).

(** What [loadConfig] finds at [configPath]: no file, a file that
    [JSON.parse] rejects, or a parsed document. *)
Inductive configFile : Type :=
| Missing
| Unparsable
| Parsed (doc : value).

Section ConfigLoader.
Context {rt : Runtime}.

Definition defaults : list (string * value) :=
  [ ("socketPath", VStr (cwd +:+ "/bridge/runtime/openclaw-bridge.sock"));
    ("socketMode", VStr "0660");
    ("httpHost", VStr "127.0.0.1");
    ("httpPort", VNum 8787);
    ("maxMessageBytes", VNum 65536);
    ("queueLimit", VNum 500);
    ("logFile", VStr (cwd +:+ "/bridge/runtime/bridge.log"));
    ("clients", VArr []);
    ("missionControl", VObj []) ].

(** The body of [for (const client of config.clients)], with the [seen]
    set threaded through; it returns the clients with [canSendTo]
    normalised.  Assigning a property to a primitive throws in strict
    mode. *)
Fixpoint checkClients (seen : list value) (cs : list value) : result (list value) :=
  match cs with
  | [] => Ok []
  | client :: rest =>
      attempt id <- getProp client "id" ;;
      if negb (truthy id) || negb (truthy (field client "keySha256")) then
        Throw "each client requires id and keySha256"
      else if includes seen id then
        Throw ("duplicate client id: " +:+ toString id)
      else
        let canSendTo := field client "canSendTo" in
        attempt client' <-
          match client with
          | VObj fs =>
              Ok (VObj (setField "canSendTo"
                          (if isArray canSendTo then canSendTo else VArr []) fs))
          | VArr _ => Ok client
          | _ => Throw "TypeError: cannot create property canSendTo"
          end ;;
        attempt rest' <- checkClients (seen ++ [id]) rest ;;
        Ok (client' :: rest')
  end.

(** [loadConfig(configPath)] *)
Definition loadConfig (file : configFile) : result value :=
  match file with
  | Missing => Throw "Config not found"
  | Unparsable => Throw "SyntaxError"
  | Parsed parsed =>
      let config := objectAssign defaults parsed in
      match default VUndef (lookupField "clients" config) with
      | VArr [] => Throw "config.clients must contain at least one client"
      | VArr clients =>
          attempt clients' <- checkClients [] clients ;;
          Ok (VObj (setField "clients" (VArr clients') config))
      | _ => Throw "config.clients must contain at least one client"
      end
  end.

End ConfigLoader.

(** ** The loaded configuration and the daemon's state *)

(** A client descriptor of [config.clients]. *)
Record clientDef : Type := {
  client_id : value;
  keySha256 : value;
  canSendTo : list value;
}.

(** The fields of the loaded [config] the daemon core reads.  The two
    limits are numbers. *)
Class Config := {
  maxMessageBytes : Z;
  queueLimit : Z;
  clients : list clientDef;
  adminTokenSha256 : value;
}.



Record envelope : Type := {
  env_id : value;
  env_from : value;
  env_to : value;
  env_type : value;
  env_payload : value;
  env_correlationId : value;
  env_ts : string;
}.

(** The objects [sendJson] serialises onto a socket. *)
Inductive frame : Type :=
| FError (error : string)
| FAuthFailed
| FAuthOk (clientId : value) (queued : nat) (ts : string)
| FPong (ts : string)
| FWhoami (clientId : value) (allowed : list value) (ts : string)
| FSent (id : value) (deliveredTo : nat) (queued : bool) (ts : string)
| FMessage (e : envelope).

(** [connState], together with its socket: the frames written to it so
    far, oldest first, and whether it has been destroyed or closed. *)
Record connState : Type := {
  written : list frame;
  destroyed : bool;
  buffer : string;
  authed : bool;
  clientId : value;
}.

Definition newConn : connState :=
  {| written := []; destroyed := false; buffer := ""; authed := false;
     clientId := VNull |}.

(** The mutable state of the process.  A connection is named by its index
    in [conns]; [activeConnections] maps a client id to the set of its
    registered connections, in insertion order. *)
Record world : Type := {
  conns : list connState;
  activeConnections : list (value * list nat);
  pendingQueues : list (value * list envelope);
  clockCalls : nat;
  randomCalls : nat;
}.

Definition initial : world :=
  {| conns := []; activeConnections := []; pendingQueues := [];
     clockCalls := 0; randomCalls := 0 |}.

Definition withConns (cs : list connState) (w : world) : world :=
  {| conns := cs; activeConnections := activeConnections w;
     pendingQueues := pendingQueues w; clockCalls := clockCalls w;
     randomCalls := randomCalls w |}.

Definition withActive (a : list (value * list nat)) (w : world) : world :=
  {| conns := conns w; activeConnections := a;
     pendingQueues := pendingQueues w; clockCalls := clockCalls w;
     randomCalls := randomCalls w |}.

Definition withQueues (q : list (value * list envelope)) (w : world) : world :=
  {| conns := conns w; activeConnections := activeConnections w;
     pendingQueues := q; clockCalls := clockCalls w;
     randomCalls := randomCalls w |}.

Definition getConn (c : nat) (w : world) : connState :=
  default newConn (conns w !! c).

Definition updConn (c : nat) (f : connState -> connState) (w : world) : world :=
  withConns (alter f c (conns w)) w.

Definition setBuffer (c : nat) (s : string) : world -> world :=
  updConn c (fun cs =>
    {| written := written cs; destroyed := destroyed cs; buffer := s;
       authed := authed cs; clientId := clientId cs |}).

(** [connState.authed = true; connState.clientId = id] *)
Definition setAuthed (c : nat) (id : value) : world -> world :=
  updConn c (fun cs =>
    {| written := written cs; destroyed := destroyed cs; buffer := buffer cs;
       authed := true; clientId := id |}).

(** [socket.destroy()] *)
Definition destroy (c : nat) : world -> world :=
  updConn c (fun cs =>
    {| written := written cs; destroyed := true; buffer := buffer cs;
       authed := authed cs; clientId := clientId cs |}).

(** [sendJson(socket, payload)]: one more frame on the socket. *)
Definition sendJson (socket : nat) (payload : frame) : world -> world :=
  updConn socket (fun cs =>
    {| written := written cs ++ [payload]; destroyed := destroyed cs;
       buffer := buffer cs; authed := authed cs; clientId := clientId cs |}).

(** A frame other than a [message]. *)
Definition notMessage (f : frame) : Prop := forall e, f <> FMessage e.

(** ** Registry, connection manager, queue store and router *)

(** What [deliverEnvelope] returns. *)
Record routed : Type := {
  deliveredTo : nat;
  queued : bool;
}.

(** Whether the body of the frame loop ends in [continue] or in
    [return]. *)
Inductive control : Type := Continue | Return.

Section Daemon.
Context {rt : Runtime} {config : Config}.

(** [nowIso()] *)
Definition nowIso (w : world) : string * world :=
  (clock (clockCalls w),
   {| conns := conns w; activeConnections := activeConnections w;
      pendingQueues := pendingQueues w; clockCalls := S (clockCalls w);
      randomCalls := randomCalls w |}).

(** [randomId(prefix)] *)
Definition randomId (prefix : string) (w : world) : string * world :=
  (prefix +:+ "_" +:+ entropy (randomCalls w),
   {| conns := conns w; activeConnections := activeConnections w;
      pendingQueues := pendingQueues w; clockCalls := clockCalls w;
      randomCalls := S (randomCalls w) |}).

(** [new Map(config.clients.map((c) => [c.id, c]))] *)
Definition clientsById : list (value * clientDef) :=
  foldl (fun m c => map_set (client_id c) c m) [] clients.

(** [getQueue(clientId)]: the queue of the client, created empty when the
    map has none. *)
Definition getQueue (clientId : value) (w : world) : list envelope * world :=
  let w' :=
    if negb (map_has clientId (pendingQueues w))
    then withQueues (map_set clientId [] (pendingQueues w)) w
    else w in
  (default [] (map_get clientId (pendingQueues w')), w').

(** A [push] or [shift] on the array [getQueue] returned changes the array
    the map holds. *)
Definition setQueue (clientId : value) (queue : list envelope) (w : world) : world :=
  withQueues (map_set clientId queue (pendingQueues w)) w.

(** [canRoute(fromClientId, toClientId)] *)
Definition canRoute (fromClientId toClientId : value) : bool :=
  match map_get fromClientId clientsById with
  | None => false
  | Some sender =>
      if includes (canSendTo sender) (VStr "*") then true
      else includes (canSendTo sender) toClientId
  end.

(** [set.add(x)] *)
Definition set_add (x : nat) (s : list nat) : list nat :=
  if bool_decide (x ∈ s) then s else s ++ [x].

(** [set.delete(x)] *)
Definition set_delete (x : nat) (s : list nat) : list nat :=
  filter (fun y => y <> x) s.

(** [registerConnection(clientId, connState)] *)
Definition registerConnection (clientId : value) (conn : nat) (w : world) : world :=
  let w1 :=
    if negb (map_has clientId (activeConnections w))
    then withActive (map_set clientId [] (activeConnections w)) w
    else w in
  let set := default [] (map_get clientId (activeConnections w1)) in
  withActive (map_set clientId (set_add conn set) (activeConnections w1)) w1.

(** [unregisterConnection(clientId, connState)] *)
Definition unregisterConnection (clientId : value) (conn : nat) (w : world) : world :=
  match map_get clientId (activeConnections w) with
  | None => w
  | Some set =>
      let set' := set_delete conn set in
      match set' with
      | [] => withActive (map_delete clientId (activeConnections w)) w
      | _ => withActive (map_set clientId set' (activeConnections w)) w
      end
  end.

(** [deliverEnvelope(envelope)] *)
Definition deliverEnvelope (e : envelope) (w : world) : routed * world :=
  match map_get (env_to e) (activeConnections w) with
  | None | Some [] =>
      let '(queue, w1) := getQueue (env_to e) w in
      let queue1 := queue ++ [e] in
      let queue2 :=
        if Z.of_nat (length queue1) >? queueLimit then tail queue1 else queue1 in
      ({| deliveredTo := 0; queued := true |}, setQueue (env_to e) queue2 w1)
  | Some recipients =>
      ({| deliveredTo := length recipients; queued := false |},
       foldl (fun w' conn => sendJson conn (FMessage e) w') w recipients)
  end.

(** The [while (queue.length > 0)] loop of [flushQueue]. *)
Fixpoint flushLoop (clientId : value) (socket : nat) (queue : list envelope)
    (delivered : nat) (w : world) : nat * world :=
  match queue with
  | [] => (delivered, w)
  | e :: queue' =>
      flushLoop clientId socket queue' (S delivered)
        (sendJson socket (FMessage e) (setQueue clientId queue' w))
  end.

(** [flushQueue(clientId, socket)] *)
Definition flushQueue (clientId : value) (socket : nat) (w : world) : nat * world :=
  let '(queue, w1) := getQueue clientId w in
  match queue with
  | [] => (0%nat, w1)
  | _ => flushLoop clientId socket queue 0 w1
  end.

(** [parseJsonOrNull(line)] *)
Definition parseJsonOrNull (line : string) : value :=
  match JSON_parse line with
  | Some v => v
  | None => VNull
  end.

(** [v === "s"] *)
Definition isStr (v : value) (s : string) : bool :=
  match v with VStr t => String.eqb t s | _ => false end.

(** ** Stream listener *)

(** The branch of the frame loop for a connection that is not
    authenticated yet. *)
Definition handleUnauthed (c : nat) (msg : value) (w : world)
  : result (control * world) :=
  if negb (isStr (field msg "action") "auth") then
    Ok (Continue, sendJson c (FError "auth_required") w)
  else
    let reject := Ok (Return, destroy c (sendJson c FAuthFailed w)) in
    match map_get (field msg "clientId") clientsById with
    | None => reject
    | Some clientDef =>
        attempt same <-
          safeCompareHash (js_or (field msg "apiKey") (VStr "")) (keySha256 clientDef) ;;
        if negb same then reject
        else
          let w1 := setAuthed c (client_id clientDef) w in
          let w2 := registerConnection (client_id clientDef) c w1 in
          let '(queue, w3) := getQueue (client_id clientDef) w2 in
          let '(ts, w4) := nowIso w3 in
          let w5 := sendJson c (FAuthOk (client_id clientDef) (length queue) ts) w4 in
          let '(_, w6) := flushQueue (client_id clientDef) c w5 in
          Ok (Continue, w6)
    end.

(** The [send] branch. *)
Definition handleSend (c : nat) (msg : value) (w : world) : world :=
  let to := field msg "to" in
  if negb (truthy to) || negb (isString to) then
    sendJson c (FError "missing_to") w
  else if negb (map_has to clientsById) then
    sendJson c (FError "unknown_target") w
  else if negb (canRoute (clientId (getConn c w)) to) then
    sendJson c (FError "route_not_allowed") w
  else
    let '(id, w1) :=
      if truthy (field msg "id") then (field msg "id", w)
      else let '(r, w') := randomId "m" w in (VStr r, w') in
    let '(ts, w2) := nowIso w1 in
    let envelope :=
      {| env_id := id;
         env_from := clientId (getConn c w);
         env_to := to;
         env_type := js_or (field msg "type") (VStr "message");
         env_payload :=
           match field msg "payload" with VUndef => VNull | p => p end;
         env_correlationId := js_or (field msg "correlationId") VNull;
         env_ts := ts |} in
    let '(r, w3) := deliverEnvelope envelope w2 in
    sendJson c (FSent (env_id envelope) (deliveredTo r) (queued r) (env_ts envelope)) w3.

(** The frame loop from [const msg = parseJsonOrNull(line)] on: parse the
    line and act on the message. *)
Definition dispatch (c : nat) (line : string) (w : world)
  : result (control * world) :=
  let msg := parseJsonOrNull line in
  if negb (truthy msg) then
    Ok (Continue, sendJson c (FError "invalid_json") w)
  else if negb (authed (getConn c w)) then handleUnauthed c msg w
  else if isStr (field msg "action") "ping" then
    let '(ts, w1) := nowIso w in
    Ok (Continue, sendJson c (FPong ts) w1)
  else if isStr (field msg "action") "send" then
    Ok (Continue, handleSend c msg w)
  else if isStr (field msg "action") "whoami" then
    match map_get (clientId (getConn c w)) clientsById with
    | None => Throw "TypeError: cannot read properties of undefined"
    | Some clientDef =>
        let '(ts, w1) := nowIso w in
        Ok (Continue,
            sendJson c (FWhoami (clientId (getConn c w)) (canSendTo clientDef) ts) w1)
    end
  else Ok (Continue, sendJson c (FError "unknown_action") w).

(** The body of the frame loop for one [line], from [if (!line)] on: skip
    an empty line, refuse one that is too long, dispatch the others. *)
Definition handleFrame (c : nat) (line : string) (w : world)
  : result (control * world) :=
  if String.eqb line "" then Ok (Continue, w)
  else if byteLength line >? maxMessageBytes then
    Ok (Continue, sendJson c (FError "message_too_large") w)
  else dispatch c line w.

(** The [while (true)] loop of the data handler.  Every round removes at
    least the line feed it found from the buffer, so a fuel of one more
    than the buffer's length is never used up. *)
Fixpoint frameLoop (fuel : nat) (c : nat) (w : world) : result world :=
  match fuel with
  | O => Ok w
  | S fuel' =>
      let buf := buffer (getConn c w) in
      match indexOf LF buf with
      | None => Ok w
      | Some idx =>
          let line := trim (sliceTo idx buf) in
          let w1 := setBuffer c (sliceFrom (S idx) buf) w in
          attempt r <- handleFrame c line w1 ;;
          match r with
          | (Continue, w2) => frameLoop fuel' c w2
          | (Return, w2) => Ok w2
          end
      end
  end.

(** [socket.on("data", (chunk) => ...)] on connection [c]; [chunk] is the
    decoded text. *)
Definition onData (c : nat) (chunk : string) (w : world) : result world :=
  let w1 := setBuffer c (buffer (getConn c w) +:+ chunk) w in
  if byteLength (buffer (getConn c w1)) >? maxMessageBytes * 2 then
    Ok (destroy c (sendJson c (FError "buffer_exceeded") w1))
  else frameLoop (S (String.length (buffer (getConn c w1)))) c w1.

(** [socket.on("close", ...)] *)
Definition onClose (c : nat) (w : world) : world :=
  if truthy (clientId (getConn c w))
  then unregisterConnection (clientId (getConn c w)) c w
  else w.

End Daemon.

(** ** HTTP control plane *)

(** A header of an incoming request: absent, one string, or an array of
    strings. *)
Inductive header : Type :=
| HAbsent
| HString (s : string)
| HArray (l : list string).

(** An incoming request with its URL parsed: [req.method], [url.pathname],
    [url.searchParams.get("id")], [req.headers["x-bridge-token"]] and the
    whole body text. *)
Record request : Type := {
  method : string;
  pathname : string;
  queryId : option string;
  bridgeToken : header;
  body : string;
}.

(** The snapshot [buildStatus] returns (its constant [socketPath] is left
    out). *)
Record status : Type := {
  status_ts : string;
  status_active : list (value * nat);
  status_queued : list (value * nat);
  status_clients : list (value * list value);
}.

(** What [routeAdminSend] returns. *)
Inductive adminResult : Type :=
| AdminError (error : string)
| AdminOk (e : envelope) (r : routed).

(** The JSON bodies of the modelled routes. *)
Inductive jsonBody : Type :=
| BError (error : string)
| BHealth (ts : string)
| BStatus (s : status)
| BSend (r : adminResult).

(** The answer to a request.  [RFile] and [RAvatar] stand for what
    [servePanelAsset] and [serveAgentAvatar] answer to a GET from the file
    system, [RMission] for the mission-control routes and the final 404
    behind the authorization gate. *)
Inductive response : Type :=
| RJson (code : Z) (b : jsonBody)
| RHtml
| RFile (path : string)
| RNoContent
| RAvatar (agentId : string)
| RMission.

Section Http.
Context {rt : Runtime} {config : Config}.

(** [isAuthorizedHttp(req)] *)
Definition isAuthorizedHttp (req : request) : result bool :=
  if negb (truthy adminTokenSha256) then Ok false
  else
    match bridgeToken req with
    | HAbsent => Ok false
    | HArray _ => Ok false
    | HString token =>
        if String.eqb token "" then Ok false
        else safeCompareHash (VStr token) adminTokenSha256
    end.

(** [buildStatus()] *)
Definition buildStatus (w : world) : status * world :=
  let active := map (fun kv => (kv.1, length kv.2)) (activeConnections w) in
  let '(queued, w1) :=
    foldl (fun acc client =>
             let '(q, w') := getQueue (client_id client) acc.2 in
             (acc.1 ++ [(client_id client, length q)], w'))
          ([], w) clients in
  let '(ts, w2) := nowIso w1 in
  ({| status_ts := ts; status_active := active; status_queued := queued;
      status_clients := map (fun c => (client_id c, canSendTo c)) clients |}, w2).

(** [routeAdminSend(body)] *)
Definition routeAdminSend (body : value) (w : world) : result (adminResult * world) :=
  attempt asClient <- getProp body "asClient" ;;
  let to := field body "to" in
  if negb (truthy asClient) || negb (truthy to) then
    Ok (AdminError "asClient_and_to_required", w)
  else if negb (map_has asClient clientsById) || negb (map_has to clientsById) then
    Ok (AdminError "unknown_client", w)
  else if negb (canRoute asClient to) then
    Ok (AdminError "route_not_allowed", w)
  else
    let '(id, w1) :=
      if truthy (field body "id") then (field body "id", w)
      else let '(r, w') := randomId "admin" w in (VStr r, w') in
    let '(ts, w2) := nowIso w1 in
    let envelope :=
      {| env_id := id;
         env_from := asClient;
         env_to := to;
         env_type := js_or (field body "type") (VStr "message");
         env_payload :=
           match field body "payload" with VUndef => VNull | p => p end;
         env_correlationId := js_or (field body "correlationId") VNull;
         env_ts := ts |} in
    let '(r, w3) := deliverEnvelope envelope w2 in
    Ok (AdminOk envelope r, w3).

(** [parseBody(req)], once the whole body has arrived. *)
Definition parseBody (req : request) : result value :=
  if byteLength (body req) >? maxMessageBytes * 2 then Throw "body_too_large"
  else if String.eqb (trim (body req)) "" then Ok (VObj [])
  else
    match JSON_parse (body req) with
    | Some v => Ok v
    | None => Throw "invalid_json"
    end.

(** [servePanelAsset(req, res, filePath, contentType)] *)
Definition servePanelAsset (req : request) (filePath : string) : response :=
  if negb (String.eqb (method req) "GET")
  then RJson 405 (BError "method_not_allowed")
  else RFile filePath.

(** [serveAgentAvatar(req, res, agentId)] *)
Definition serveAgentAvatar (req : request) (agentId : string) : response :=
  if negb (String.eqb (method req) "GET")
  then RJson 405 (BError "method_not_allowed")
  else RAvatar agentId.

(** The request handler of [httpServer], up to the routes for
    [/api/status] and [/api/send]. *)
Definition httpHandler (req : request) (w : world) : result (response * world) :=
  let p := pathname req in
  if String.eqb p "/health" then
    let '(ts, w1) := nowIso w in Ok (RJson 200 (BHealth ts), w1)
  else if String.eqb p "/" then Ok (RHtml, w)
  else if String.eqb p "/panel/mission-control.css" then
    Ok (servePanelAsset req "panel/mission-control.css", w)
  else if String.eqb p "/panel/mission-control.js" then
    Ok (servePanelAsset req "panel/mission-control.js", w)
  else if String.eqb p "/panel/voice.js" then
    Ok (servePanelAsset req "panel/voice.js", w)
  else if String.eqb p "/favicon.ico" then Ok (RNoContent, w)
  else if String.eqb p "/api/mission-control/avatar" then
    let agentId := trim (default "" (queryId req)) in
    if String.eqb agentId "" then Ok (RJson 400 (BError "id_required"), w)
    else Ok (serveAgentAvatar req agentId, w)
  else if negb (startsWith "/api/" p) then Ok (RJson 404 (BError "not_found"), w)
  else
    attempt authorized <- isAuthorizedHttp req ;;
    if negb authorized then Ok (RJson 401 (BError "unauthorized"), w)
    else if String.eqb (method req) "GET" && String.eqb p "/api/status" then
      let '(s, w1) := buildStatus w in Ok (RJson 200 (BStatus s), w1)
    else if String.eqb (method req) "POST" && String.eqb p "/api/send" then
      match parseBody req with
      | Throw m => Ok (RJson 400 (BError m), w)
      | Ok parsed =>
          match routeAdminSend parsed w with
          | Throw m => Ok (RJson 400 (BError m), w)
          | Ok (AdminError e, w1) => Ok (RJson 400 (BSend (AdminError e)), w1)
          | Ok (AdminOk e r, w1) => Ok (RJson 200 (BSend (AdminOk e r)), w1)
          end
      end
    else Ok (RMission, w).

End Http.

(** ** The event loop *)

(** What the outside can make happen: a peer connects, a chunk arrives on
    a connection, a peer closes its connection, an HTTP request arrives. *)
Inductive event : Type :=
| Connect
| Data (c : nat) (chunk : string)
| Close (c : nat)
| Http (req : request).

Section EventLoop.
Context {rt : Runtime} {config : Config}.

(** A connection that exists and whose socket is still open. *)
Definition live (c : nat) (w : world) : bool :=
  match conns w !! c with
  | Some cs => negb (destroyed cs)
  | None => false
  end.

(** One turn of the event loop.  A socket delivers no data once it is
    destroyed or closed, and its ['close'] handler runs right after the
    handler that destroyed it returns.  [Throw] is an uncaught exception. *)
Definition step (ev : event) (w : world) : result world :=
  match ev with
  | Connect => Ok (withConns (conns w ++ [newConn]) w)
  | Data c chunk =>
      if live c w then
        attempt w1 <- onData c chunk w ;;
        Ok (if destroyed (getConn c w1) then onClose c w1 else w1)
      else Ok w
  | Close c =>
      if live c w then Ok (onClose c (destroy c w)) else Ok w
  | Http req =>
      attempt r <- httpHandler req w ;; Ok r.2
  end.

Fixpoint run (evs : list event) (w : world) : result world :=
  match evs with
  | [] => Ok w
  | ev :: evs' => attempt w1 <- step ev w ;; run evs' w1
  end.

End EventLoop.

(** ** The validation rules of the specification *)

(** The [clients] field of a parsed document once the defaults are
    applied to it. *)
Definition clientsField (doc : value) : value :=
  match doc with
  | VObj fs => default (VArr []) (lookupField "clients" fs)
  | _ => VArr []
  end.

(** A client entry without an identifier or without a key hash. *)
Definition lacksIdOrKey (client : value) : Prop :=
  truthy (field client "id") = false \/ truthy (field client "keySha256") = false.

(** Two entries with the same identifier. *)
Definition duplicateIds (cs : list value) : Prop :=
  exists i j ci cj,
    (i < j)%nat /\ cs !! i = Some ci /\ cs !! j = Some cj /\
    sameValueZero (field ci "id") (field cj "id") = true.

(** The rules that follow the specification's list and that [loadConfig]
    enforces: the file exists, it parses, [clients] is a non-empty array,
    every client has an identifier and a key hash, identifiers are
    unique. *)
Definition rulesViolated (file : configFile) : Prop :=
  match file with
  | Missing | Unparsable => True
  | Parsed doc =>
      match clientsField doc with
      | VArr (c :: cs) =>
          (exists client, client ∈ c :: cs /\ lacksIdOrKey client) \/
          duplicateIds (c :: cs)
      | _ => True
      end
  end.

(** The last rule of the specification's list: some client's destination
    allowlist is not an array. *)
Definition allowlistRuleViolated (file : configFile) : Prop :=
  match file with
  | Parsed doc =>
      match clientsField doc with
      | VArr cs => exists client, client ∈ cs /\ isArray (field client "canSendTo") = false
      | _ => False
      end
  | _ => False
  end.


(** ** Instances for the concrete runs *)

(** A stand-in for the digest: 32 bytes, the first of which depends on the
    text. *)
Definition exampleDigest (s : string) : list Byte.byte :=
  byteOfN (N.of_nat (String.length s) mod 256) :: repeat Byte.x00 31.

(** The text of a document, as [JSON.stringify] prints it when no string
    needs an escape; [undefined] fields are not printed. *)
Definition DQ : string := String (ascii_of_nat 34) "".

Fixpoint exampleText (v : value) : string :=
  match v with
  | VUndef | VNull => "null"
  | VBool true => "true"
  | VBool false => "false"
  | VNum n => stringOfZ n
  | VStr s => DQ +:+ s +:+ DQ
  | VArr xs =>
      "[" +:+
      (fix items (l : list value) : string :=
         match l with
         | [] => ""
         | [x] => exampleText x
         | x :: l' => exampleText x +:+ "," +:+ items l'
         end) xs +:+ "]"
  | VObj fs =>
      "{" +:+
      (fix members (l : list (string * value)) : string :=
         match l with
         | [] => ""
         | [(k, x)] => DQ +:+ k +:+ DQ +:+ ":" +:+ exampleText x
         | (k, x) :: l' =>
             DQ +:+ k +:+ DQ +:+ ":" +:+ exampleText x +:+ "," +:+ members l'
         end) fs +:+ "}"
  end.

Definition authFrame (clientId apiKey : string) : value :=
  VObj [("action", VStr "auth"); ("clientId", VStr clientId); ("apiKey", VStr apiKey)].

Definition sendFrame (to : string) (n : Z) : value :=
  VObj [("action", VStr "send"); ("to", VStr to); ("payload", VNum n)].

Definition pingFrame : value := VObj [("action", VStr "ping")].

(** The documents the concrete runs put on the wire. *)
Definition exampleDocs : list value :=
  [ authFrame "agent-client" "agent-key";
    authFrame "openclaw-server" "server-key!";
    authFrame "agent-client" "wrong";
    pingFrame;
    sendFrame "openclaw-server" 1; sendFrame "openclaw-server" 2;
    sendFrame "openclaw-server" 3; sendFrame "openclaw-server" 4;
    sendFrame "openclaw-server" 5;
    sendFrame "other-client" 1; sendFrame "nobody" 1; sendFrame "agent-client" 1;
    VObj [("action", VStr "send"); ("to", VStr "openclaw-server");
          ("from", VStr "openclaw-server"); ("payload", VNum 7)] ].

(** [JSON.parse] on the texts of [exampleDocs]; the runs feed it no other
    well-formed text. *)
Definition exampleParse (s : string) : option value :=
  snd <$> list_find (fun doc => String.eqb (exampleText doc) s) exampleDocs.

Definition exampleRuntime : Runtime :=
  {| sha256_digest := exampleDigest;
     JSON_parse := exampleParse;
     clock := fun n => "t" +:+ stringOfNat n;
     entropy := fun n => stringOfNat n;
     cwd := "/srv" |}.

Definition agentClient : clientDef :=
  {| client_id := VStr "agent-client";
     keySha256 := VStr (hexEncode (exampleDigest "agent-key"));
     canSendTo := [VStr "openclaw-server"] |}.

Definition serverClient : clientDef :=
  {| client_id := VStr "openclaw-server";
     keySha256 := VStr (hexEncode (exampleDigest "server-key!"));
     canSendTo := [VStr "*"] |}.

Definition otherClient : clientDef :=
  {| client_id := VStr "other-client";
     keySha256 := VStr "abc";
     canSendTo := [] |}.

(** A small configuration: frames of at most 100 bytes, queues of at most
    3 envelopes. *)
Definition exampleConfig : Config :=
  {| maxMessageBytes := 100;
     queueLimit := 3;
     clients := [agentClient; serverClient; otherClient];
     adminTokenSha256 := VStr (hexEncode (exampleDigest "admin-token")) |}.

(** A configuration document whose only client gives its allowlist as a
    string. *)
Definition stringAllowlistDoc : value :=
  VObj [("clients",
         VArr [VObj [("id", VStr "agent-client");
                     ("keySha256", VStr "00");
                     ("canSendTo", VStr "*")]])].

(** ** Reachable states and what holds in them *)

Section Invariants.
Context {rt : Runtime} {config : Config}.

(** The states the daemon can be in: those some sequence of events leads
    to from the initial one. *)
Definition reachable (w : world) : Prop :=
  exists evs, run evs initial = Ok w.

(** [c] names a connection of [w]. *)
Definition valid (c : nat) (w : world) : Prop := (c < length (conns w))%nat.

(** Every registered set lists connections of the state, each once, and
    an authenticated connection carries the identifier of a registry entry. *)
Definition wf (w : world) : Prop :=
  (forall k set, (k, set) ∈ activeConnections w ->
     NoDup set /\ forall c, c ∈ set -> valid c w) /\
  (forall c, authed (getConn c w) = true ->
     exists cd, map_get (clientId (getConn c w)) clientsById = Some cd /\
                client_id cd = clientId (getConn c w)).

(** No queue is longer than the configured limit. *)
Definition queuesBounded (w : world) : Prop :=
  forall k q, (k, q) ∈ pendingQueues w -> Z.of_nat (length q) <= queueLimit.

(** The queue of a recipient, empty when the map has none. *)
Definition queueOf (k : value) (w : world) : list envelope :=
  default [] (map_get k (pendingQueues w)).

(** The registered connections of a recipient. *)
Definition connectionsOf (k : value) (w : world) : list nat :=
  default [] (map_get k (activeConnections w)).

(** Sockets only ever get more frames: what [w'] has written on a
    connection starts with what [w] had. *)
Definition extends (w w' : world) : Prop :=
  forall c, exists extra, written (getConn c w') = written (getConn c w) ++ extra.

(** A destroyed socket stays destroyed. *)
Definition staysDestroyed (w w' : world) : Prop :=
  forall c, destroyed (getConn c w) = true -> destroyed (getConn c w') = true.

(** The two states agree on what the registry invariant reads: the
    number of connections, who is authenticated as whom, and the
    registered sets. *)
Definition sameCore (w w' : world) : Prop :=
  length (conns w') = length (conns w) /\
  (forall c, authed (getConn c w') = authed (getConn c w) /\
             clientId (getConn c w') = clientId (getConn c w)) /\
  activeConnections w' = activeConnections w.

End Invariants.

Section Benign.
Context {rt : Runtime} {config : Config}.

(** What writing frames, buffering, queueing and reading the clock do to
    a state: nothing to the registry's view, and nothing is unwritten or
    reopened. *)
Definition benign (w w' : world) : Prop :=
  sameCore w w' /\ extends w w' /\ staysDestroyed w w'.

(** The relation behind an invariant: it carries over, and connections
    are never forgotten. *)
Definition carries (P : world -> Prop) (w w' : world) : Prop :=
  (P w -> P w') /\ (length (conns w) <= length (conns w'))%nat.

End Benign.

(** Concrete runs: a document as a line on the wire, and the state a
    sequence of events leads to under the example configuration. *)
Definition wire (doc : value) : string := exampleText doc +:+ String LF "".

Definition stateAfter (evs : list event) : world :=
  match run (rt := exampleRuntime) (config := exampleConfig) evs initial with
  | Ok w => w
  | Throw _ => initial
  end.

(** The server's client connects and authenticates. *)
Definition serverOnline : list event :=
  [Connect; Data 0 (wire (authFrame "openclaw-server" "server-key!"))].

(** The agent connects and authenticates while the server is away. *)
Definition agentOnline : list event :=
  [Connect; Data 0 (wire (authFrame "agent-client" "agent-key"))].

(** An envelope from the agent to the server. *)
Definition exampleEnvelope (n : Z) : envelope :=
  {| env_id := VStr ("e" +:+ stringOfZ n);
     env_from := VStr "agent-client";
     env_to := VStr "openclaw-server";
     env_type := VStr "message";
     env_payload := VNum n;
     env_correlationId := VNull;
     env_ts := "t" |}.

Section Sending.
Context {rt : Runtime} {config : Config}.

(** Routing a sequence of envelopes, one after the other. *)
Definition deliverAll (es : list envelope) (w : world) : world :=
  foldl (fun w' e => (deliverEnvelope e w').2) w es.

End Sending.

(** ** The checks on a [send], in the specification's words *)

Section SendRules.
Context {rt : Runtime} {config : Config}.

(** [to] is a non-empty string. *)
Definition nonEmptyString (v : value) : Prop :=
  exists s, v = VStr s /\ s <> "".

(** [to] is the identifier of a client of the configuration. *)
Definition registeredClient (v : value) : Prop :=
  exists cd, cd ∈ clients /\ client_id cd = v.

(** The sender's allowlist contains [to] or the wildcard. *)
Definition allowlistPermits (sender : clientDef) (to : value) : Prop :=
  to ∈ canSendTo sender \/ VStr "*" ∈ canSendTo sender.

Definition sendAccepted (sender : clientDef) (to : value) : Prop :=
  nonEmptyString to /\ registeredClient to /\ allowlistPermits sender to.

(** The [send] is routed: an envelope from the connection's client to
    [msg.to] goes through the router, in a state that differs from [w] in
    the clock and random counters at most, and the sender gets the [sent]
    acknowledgement with the router's result. *)
Definition routesSend (c : nat) (msg : value) (w w' : world) : Prop :=
  exists e w1,
    env_from e = clientId (getConn c w) /\
    env_to e = field msg "to" /\
    conns w1 = conns w /\
    activeConnections w1 = activeConnections w /\
    pendingQueues w1 = pendingQueues w /\
    w' = sendJson c
           (FSent (env_id e) (deliveredTo (deliverEnvelope e w1).1)
                  (queued (deliverEnvelope e w1).1) (env_ts e))
           (deliverEnvelope e w1).2.

(** The [send] is refused: the only effect is one [error] frame with the
    code on the sender's socket. *)
Definition rejectsSend (code : string) (c : nat) (w w' : world) : Prop :=
  w' = sendJson c (FError code) w.

End SendRules.

(** ** The token gate, in the specification's words *)

Section TokenRule.
Context {rt : Runtime} {config : Config}.


End TokenRule.




Section Buffers.
Context {rt : Runtime} {config : Config}.

(** The two states hold the same parse buffers. *)
Definition sameBuffers (w w' : world) : Prop :=
  forall c, buffer (getConn c w') = buffer (getConn c w).

End Buffers.


(** ** Where envelopes come from *)

Section Origins.
Context {rt : Runtime} {config : Config}.

(** The envelopes a state holds: those of the [message] frames written
    to some socket, and those waiting in some queue. *)
Definition carried (w : world) (e : envelope) : Prop :=
  (exists c, FMessage e ∈ written (getConn c w)) \/
  (exists k q, (k, q) ∈ pendingQueues w /\ e ∈ q).

(** The sender of the envelope is the client some connection of the state
    is authenticated as, or the [asClient] of the body of an HTTP request
    among the events. *)
Definition issued (evs : list event) (w : world) (e : envelope) : Prop :=
  (exists c, authed (getConn c w) = true /\ env_from e = clientId (getConn c w)) \/
  (exists req body,
     Http req ∈ evs /\ parseBody req = Ok body /\ env_from e = field body "asClient").

(** An authenticated connection stays authenticated, as the same client. *)
Definition keepsAuth (w w' : world) : Prop :=
  forall c, authed (getConn c w) = true ->
    authed (getConn c w') = true /\ clientId (getConn c w') = clientId (getConn c w).

(** Every envelope [w'] holds was held by [w] or has an authenticated
    connection's client for its sender. *)
Definition signedSince (w w' : world) : Prop :=
  forall e, carried w' e ->
    carried w e \/
    exists c, authed (getConn c w') = true /\ env_from e = clientId (getConn c w').

End Origins.

Section OriginsMore.
Context {rt : Runtime} {config : Config}.

(** [w'] holds no envelope that [w] did not hold. *)
Definition noNewEnvelopes (w w' : world) : Prop :=
  forall e, carried w' e -> carried w e.

(** The relation the data handler respects: connections are kept, they
    stay authenticated as who they are, and new envelopes are signed. *)
Definition signs (w w' : world) : Prop :=
  keepsAuth w w' /\ signedSince w w' /\ (length (conns w) <= length (conns w'))%nat.

End OriginsMore.

(** ** Who gets what *)

Section Addressing.
Context {rt : Runtime} {config : Config}.

(** A registered connection is authenticated as the client it is
    registered for. *)
Definition registeredAs (w : world) : Prop :=
  forall k set c, (k, set) ∈ activeConnections w -> c ∈ set ->
    authed (getConn c w) = true /\ clientId (getConn c w) = k.

(** A queue holds envelopes for the client it is the queue of. *)
Definition queuedFor (w : world) : Prop :=
  forall k q e, (k, q) ∈ pendingQueues w -> e ∈ q -> env_to e = k.

(** A [message] frame on a socket is for the client its connection is
    authenticated as. *)
Definition writtenFor (w : world) : Prop :=
  forall c e, FMessage e ∈ written (getConn c w) ->
    authed (getConn c w) = true /\ clientId (getConn c w) = env_to e.

Definition addressed (w : world) : Prop :=
  registeredAs w /\ queuedFor w /\ writtenFor w.


End Addressing.

(** The agent sends to the server while it is away, the server connects
    and authenticates, and the agent sends again: one envelope goes
    through the queue, one straight to the server's socket. *)
Definition relayRun : list event :=
  [Connect; Data 0 (wire (authFrame "agent-client" "agent-key"));
   Data 0 (wire (sendFrame "openclaw-server" 1));
   Connect; Data 1 (wire (authFrame "openclaw-server" "server-key!"));
   Data 0 (wire (sendFrame "openclaw-server" 2))].

(** ** The registry and the open connections *)


Section Registry.
Context {rt : Runtime} {config : Config}.





(** No socket is destroyed or reopened between the two states. *)
Definition sameDestroyed (w w' : world) : Prop :=
  forall c, destroyed (getConn c w') = destroyed (getConn c w).


End Registry.

(** ** The checks on an operator send *)

Section AdminRules.
Context {rt : Runtime} {config : Config}.

(** [asClient] and [to] are given, both name clients of the
    configuration, and the allowlist of [asClient] contains [to] or the
    wildcard. *)
Definition adminSendAccepted (asClient to : string) : Prop :=
  asClient <> "" /\ to <> "" /\
  registeredClient (VStr asClient) /\ registeredClient (VStr to) /\
  exists sender,
    map_get (VStr asClient) clientsById = Some sender /\
    allowlistPermits sender (VStr to).

(** The operator send is routed: an envelope from [asClient] to [to] goes
    through the router, in a state that differs from [w] in the clock and
    random counters at most, and the answer carries the router's
    result. *)
Definition routesAdminSend (asClient to : string) (body : value) (w : world) : Prop :=
  exists e w1,
    env_from e = VStr asClient /\
    env_to e = VStr to /\
    conns w1 = conns w /\
    activeConnections w1 = activeConnections w /\
    pendingQueues w1 = pendingQueues w /\
    routeAdminSend body w =
      Ok (AdminOk e (deliverEnvelope e w1).1, (deliverEnvelope e w1).2).

End AdminRules.

(** The body of an operator send as the agent. *)
Definition adminBody (to : string) (n : Z) : value :=
  VObj [("asClient", VStr "agent-client"); ("to", VStr to); ("payload", VNum n)].

(** ** Credentials *)

Section Credentials.
Context {rt : Runtime} {config : Config}.

(** The frame names a client of the registry and carries a key whose
    digest is what the client's stored hash decodes to. *)
Definition credentialsMatch (msg : value) : Prop :=
  exists cd,
    map_get (field msg "clientId") clientsById = Some cd /\
    hexDecode (toString (js_or (keySha256 cd) (VStr ""))) =
      sha256_digest (toString (js_or (field msg "apiKey") (VStr ""))).

End Credentials.

(** ** What one connection can do to another *)

(** What the data handler of [c] may have done to the connection [c']
    between [w0] and [w]: nothing to whether it is authenticated, as whom,
    whether its socket is open and what its parse buffer holds; on its
    socket, [message] frames only, from the client [c] is authenticated
    as. *)
Definition onlyMessagesFrom (c c' : nat) (w0 w : world) : Prop :=
  authed (getConn c' w) = authed (getConn c' w0) /\
  clientId (getConn c' w) = clientId (getConn c' w0) /\
  destroyed (getConn c' w) = destroyed (getConn c' w0) /\
  buffer (getConn c' w) = buffer (getConn c' w0) /\
  exists es,
    written (getConn c' w) = written (getConn c' w0) ++ map FMessage es /\
    forall e, e ∈ es ->
      authed (getConn c w) = true /\ env_from e = clientId (getConn c w).


(** ** The key-hashing script *)

(** What a script does at its end: it prints a line and returns, or exits
    with a status. *)
Inductive outcome : Type :=
| Printed (line : string)
| Exit (code : Z).

Section HashKey.
Context {rt : Runtime}.

(** [hash-key.js]: [argv2] is [process.argv[2]].  Without a key, or with
    the empty one, the usage goes to the error stream and the status is 1;
    otherwise the hex digest of the key is printed. *)
Definition hashKey (argv2 : option string) : outcome :=
  match argv2 with
  | None => Exit 1
  | Some value =>
      if String.eqb value "" then Exit 1
      else Printed (hexEncode (sha256_digest value))
  end.

End HashKey.

(** ** The provisioning script *)

Section Provision.
Context {rt : Runtime}.

(** [sha256(value)] of [provision-secrets.js], on a text. *)
Definition sha256Text (value : string) : string := hexEncode (sha256_digest value).

(** The [for (const client of config.clients)] loop of
    [provision-secrets.js].  [randSecret n] is what the [n]-th call of
    [randSecret()] returns; [secrets] is the [secrets.clients] object as a
    lookup table, whose keys are the identifiers as property names (an
    assignment to [__proto__] creates no property).  [Ok None] is
    [process.exit(1)]. *)
Fixpoint provisionClients (randSecret : nat -> string) (n : nat)
    (secrets : list (string * value)) (cs : list value)
  : result (option (list value * list (string * value))) :=
  match cs with
  | [] => Ok (Some ([], secrets))
  | client :: rest =>
      attempt id <- getProp client "id" ;;
      if negb (truthy id) then Ok None
      else
        let secret := randSecret n in
        let secrets' :=
          if String.eqb (toString id) "__proto__" then secrets
          else setField (toString id) (VStr secret) secrets in
        match client with
        | VObj fs =>
            let client' := VObj (setField "keySha256" (VStr (sha256Text secret)) fs) in
            attempt r <- provisionClients randSecret (S n) secrets' rest ;;
            match r with
            | Some (rest', secrets'') => Ok (Some (client' :: rest', secrets''))
            | None => Ok None
            end
        | _ => Throw "TypeError: cannot create property keySha256"
        end
  end.

(** What the script leaves behind when it runs to its end: the
    configuration it writes back, and the admin token and the client
    secrets of [generated-secrets.json]. *)
Record provisioned : Type := {
  newConfig : value;
  adminToken : string;
  clientSecrets : list (string * value);
}.

(** [provision-secrets.js], from the configuration file it finds.
    [Ok None] is [process.exit(1)], before anything is written. *)
Definition provisionSecrets (randSecret : nat -> string) (file : configFile)
  : result (option provisioned) :=
  match file with
  | Missing | Unparsable => Ok None
  | Parsed config =>
      attempt clients <- getProp config "clients" ;;
      match clients, config with
      | VArr (c :: cs), VObj fs =>
          let admin := randSecret 0%nat in
          let fs1 := setField "adminTokenSha256" (VStr (sha256Text admin)) fs in
          attempt r <- provisionClients randSecret 1 [] (c :: cs) ;;
          match r with
          | Some (clients', secrets) =>
              Ok (Some {| newConfig := VObj (setField "clients" (VArr clients') fs1);
                          adminToken := admin;
                          clientSecrets := secrets |})
          | None => Ok None
          end
      | _, _ => Ok None
      end
  end.

End Provision.

(** ** The connections a delivery reaches *)


(** ** Quoting for the shell *)

Definition singleQuote : ascii := "039"%char.
Definition backslash : ascii := "092"%char.

(** [s.replace(/'/g, "'\\''")]: every single quote becomes the four
    characters quote, backslash, quote, quote. *)
Fixpoint escapeQuotes (s : string) : string :=
  match s with
  | EmptyString => EmptyString
  | String a s' =>
      if Ascii.eqb a singleQuote
      then String singleQuote (String backslash (String singleQuote
             (String singleQuote (escapeQuotes s'))))
      else String a (escapeQuotes s')
  end.

(** The text [shellQuote] quotes: [String(value)], and the empty text for
    [undefined] and [null]. *)
Definition shellText (v : value) : string :=
  match v with
  | VUndef | VNull => ""
  | _ => toString v
  end.

(** [shellQuote(value)] *)
Definition shellQuote (v : value) : string :=
  String singleQuote (escapeQuotes (shellText v) +:+ String singleQuote "").

(** How a POSIX shell reads a word: a single quote opens a part that runs
    to the next single quote and in which every character stands for
    itself; outside such a part a backslash makes the next character stand
    for itself.  [None] when a quote is left open, a backslash ends the
    word, or a character stands outside quotes unescaped, where the shell
    could give it a meaning. *)
Fixpoint shellRead (quoted : bool) (s : string) : option string :=
  match s with
  | EmptyString => if quoted then None else Some EmptyString
  | String a s' =>
      if quoted then
        if Ascii.eqb a singleQuote then shellRead false s'
        else String a <$> shellRead true s'
      else if Ascii.eqb a singleQuote then shellRead true s'
      else if Ascii.eqb a backslash then
        match s' with
        | String b s'' => String b <$> shellRead false s''
        | EmptyString => None
        end
      else None
  end.

(** ** The search path for child processes *)

(** [s.split(sep)] for a one-character separator. *)
Fixpoint splitOn (sep : ascii) (s : string) : list string :=
  match s with
  | EmptyString => [EmptyString]
  | String a s' =>
      if Ascii.eqb a sep then EmptyString :: splitOn sep s'
      else
        match splitOn sep s' with
        | h :: t => String a h :: t
        | [] => [String a EmptyString]
        end
  end.

(** [parts.join(sep)] *)
Fixpoint joinWith (sep : ascii) (parts : list string) : string :=
  match parts with
  | [] => EmptyString
  | [p] => p
  | p :: rest => p +:+ String sep (joinWith sep rest)
  end.

(** The [for (const item of ...)] loop of [preferredPath]: an item that
    is empty or already in [merged] is skipped, another is pushed. *)
Fixpoint mergeInto (merged items : list string) : list string :=
  match items with
  | [] => merged
  | item :: rest =>
      if String.eqb item "" || bool_decide (item ∈ merged)
      then mergeInto merged rest
      else mergeInto (merged ++ [item]) rest
  end.

Definition pathEntries : list string :=
  [ "/opt/homebrew/opt/node@22/bin"; "/opt/homebrew/bin"; "/usr/local/bin";
    "/usr/bin"; "/bin" ].

Definition colon : ascii := ":"%char.

(** [preferredPath(currentPath)] *)
Definition preferredPath (currentPath : value) : string :=
  let base := toString (js_or currentPath (VStr "")) in
  let existing := filter (fun item => item <> "") (splitOn colon base) in
  joinWith colon (mergeInto [] (pathEntries ++ existing)).

(** ** A frame split over two chunks *)

(** The agent's [auth] line cut after twenty bytes, and the rest of it
    followed by a [ping] line. *)
Definition firstChunk : string :=
  sliceTo 20 (wire (authFrame "agent-client" "agent-key")).

Definition secondChunk : string :=
  sliceFrom 20 (wire (authFrame "agent-client" "agent-key")) +:+ wire pingFrame.

(** ** Requests and replies *)

(** The frames that answer a request: all but [message]. *)
Definition isReply (f : frame) : bool :=
  match f with FMessage _ => false | _ => true end.

(** The replies written on a connection so far. *)
Definition replies (c : nat) (w : world) : list frame :=
  List.filter isReply (written (getConn c w)).

(** The requests a text holds: its complete lines, the ones a line feed
    ends, trimmed, without the blank ones. *)
Definition requestLines (text : string) : list string :=
  List.filter (fun line => negb (String.eqb line ""))
    (map trim (removelast (splitOn LF text))).

(** A blank line, a [ping] and the agent's [auth] line. *)
Definition threeLines : string :=
  String LF "" +:+ wire pingFrame +:+ wire (authFrame "agent-client" "agent-key").

(** ** Order of arrival *)

(** The envelopes written on a connection so far, oldest first. *)
Definition messagesOf (c : nat) (w : world) : list envelope :=
  omap (fun f => match f with FMessage e => Some e | _ => None end)
       (written (getConn c w)).

Section Ordering.
Context {rt : Runtime}.

(** The envelopes carry, one after the other, the times of increasing
    readings of the clock, all among its first [n]. *)
Definition stamped (n : nat) (es : list envelope) : Prop :=
  exists ns, map env_ts es = map clock ns /\ StronglySorted lt ns /\
             Forall (fun i => (i < n)%nat) ns.

(** Every socket and every queue holds its envelopes in the order in
    which they were stamped. *)
Definition inOrder (w : world) : Prop :=
  (forall c, stamped (clockCalls w) (messagesOf c w)) /\
  (forall k q, (k, q) ∈ pendingQueues w -> stamped (clockCalls w) q).

End Ordering.

(** No envelope moves between the two states: the sockets hold the ones
    they held, a queue of [w'] is one of [w] or empty, and the clock has
    not gone back. *)
Definition keepsMessages (w w' : world) : Prop :=
  (forall c, messagesOf c w' = messagesOf c w) /\
  (forall k q, (k, q) ∈ pendingQueues w' -> q = [] \/ (k, q) ∈ pendingQueues w) /\
  (clockCalls w <= clockCalls w')%nat.

(** ** What an unauthenticated connection can do *)



(** The agent authenticates, then sends the server's credentials on the
    same connection. *)
Definition secondAuthRun : list event :=
  [Connect; Data 0 (wire (authFrame "agent-client" "agent-key"));
   Data 0 (wire (authFrame "openclaw-server" "server-key!"))].

(** A peer that sends a [send] and a [ping] without authenticating, while
    the server is connected. *)
Definition intruderRun : list event :=
  [Connect; Data 0 (wire (authFrame "openclaw-server" "server-key!")); Connect].

Definition intruderChunk : string :=
  wire (sendFrame "openclaw-server" 1) +:+ wire pingFrame.

(** ** The command line of the client *)

(** [out[key] = value] on the object [parseArgs] fills, where [value] is a
    string or [true]: the key [__proto__] names the prototype, which takes
    objects only, so that assignment does nothing. *)
Definition assignArg (key : string) (v : value) (out : list (string * value))
  : list (string * value) :=
  if String.eqb key "__proto__" then out else setField key v out.

(** The loop of [parseArgs] on the tokens that are left.  A token that
    starts with two dashes takes the next one as its value when there is
    one, it is not empty and it does not start with two dashes. *)
Fixpoint parseArgsFrom (argv : list string) (out : list (string * value))
  : result (list (string * value)) :=
  match argv with
  | [] => Ok out
  | token :: rest =>
      if startsWith "--" token then
        let key := sliceFrom 2 token in
        match rest with
        | next :: rest' =>
            if negb (String.eqb next "") && negb (startsWith "--" next)
            then parseArgsFrom rest' (assignArg key (VStr next) out)
            else parseArgsFrom rest (assignArg key (VBool true) out)
        | [] => parseArgsFrom rest (assignArg key (VBool true) out)
        end
      else
        match lookupField "_" out with
        | Some (VArr l) =>
            parseArgsFrom rest (setField "_" (VArr (l ++ [VStr token])) out)
        | _ => Throw "TypeError: out._.push is not a function"
        end
  end.

(** [parseArgs(argv)] *)
Definition parseArgs (argv : list string) : result (list (string * value)) :=
  parseArgsFrom argv [("_", VArr [])].

(** What a caller means to put on the command line: a positional
    argument, a switch, or an option with its value. *)
Inductive argItem : Type :=
| Positional (s : string)
| Switch (key : string)
| Setting (key : string) (v : string).

Definition tokensOf (item : argItem) : list string :=
  match item with
  | Positional s => [s]
  | Switch key => ["--" +:+ key]
  | Setting key v => ["--" +:+ key; v]
  end.

Definition commandLine (items : list argItem) : list string :=
  concat (map tokensOf items).

Definition positionalsOf (items : list argItem) : list string :=
  omap (fun item => match item with Positional s => Some s | _ => None end) items.

(** The value the last item for [key] gives it. *)
Fixpoint lastSetting (key : string) (items : list argItem) : option value :=
  match items with
  | [] => None
  | item :: rest =>
      match lastSetting key rest with
      | Some v => Some v
      | None =>
          match item with
          | Positional _ => None
          | Switch k => if String.eqb key k then Some (VBool true) else None
          | Setting k v => if String.eqb key k then Some (VStr v) else None
          end
      end
  end.

Definition plainKey (key : string) : Prop := key <> "_" /\ key <> "__proto__".

(** The command lines [parseArgs] reads as they are meant: no positional
    argument or value starts with two dashes, no value is empty, no key is
    [_] or [__proto__], and a switch is not followed by a positional
    argument, unless by an empty one. *)
Fixpoint plainItems (items : list argItem) : Prop :=
  match items with
  | [] => True
  | item :: rest =>
      match item with
      | Positional s => startsWith "--" s = false
      | Switch key =>
          plainKey key /\
          match rest with Positional s :: _ => s = "" | _ => True end
      | Setting key v => plainKey key /\ v <> "" /\ startsWith "--" v = false
      end /\ plainItems rest
  end.

Definition sendItems : list argItem :=
  [Positional "send"; Setting "client" "agent-client"; Setting "key" "agent-key";
   Switch "verbose"; Setting "to" "openclaw-server"; Setting "to" "other-client"].

(** * Properties *)

(** ** JavaScript values and maps *)

Lemma sameValueZero_eq (a b : value) : sameValueZero a b = true -> a = b.
Proof.
  destruct a, b; cbn; try discriminate; intros H; try reflexivity.
  - apply Bool.eqb_prop in H. congruence.
  - apply Z.eqb_eq in H. congruence.
  - apply String.eqb_eq in H. congruence.
Qed.

Lemma sameValueZero_sym (a b : value) : sameValueZero a b = sameValueZero b a.
Proof.
  destruct a, b; cbn; try reflexivity.
  - destruct b, b0; reflexivity.
  - apply Z.eqb_sym.
  - apply String.eqb_sym.
Qed.

(** A value that a key comparison has matched is equal to itself as a
    key: it is not an object or an array. *)
Lemma sameValueZero_refl_l (a b : value) :
  sameValueZero a b = true -> sameValueZero a a = true.
Proof. intros H. pose proof (sameValueZero_eq _ _ H) as ->. exact H. Qed.

Lemma sameValueZero_str (s : string) : sameValueZero (VStr s) (VStr s) = true.
Proof. cbn. apply String.eqb_refl. Qed.

(** ** Hashes *)

Lemma hex_byte_roundtrip (b : Byte.byte) :
  let n := Byte.to_N b in
  unhex (hexDigit (n / 16)) = Some (n / 16)%N /\
  unhex (hexDigit (n mod 16)) = Some (n mod 16)%N /\
  byteOfN (16 * (n / 16) + n mod 16) = b.
Proof. destruct b; vm_compute; repeat split. Qed.

Lemma hexDecode_hexEncode (bs : list Byte.byte) : hexDecode (hexEncode bs) = bs.
Proof.
  induction bs as [|b bs IH]; [reflexivity|].
  cbn [hexEncode hexDecode].
  destruct (hex_byte_roundtrip b) as (Hhi & Hlo & Hb).
  cbv zeta in Hhi, Hlo, Hb. rewrite Hhi, Hlo, Hb, IH. reflexivity.
Qed.

Lemma bytesEqual_eq (a b : list Byte.byte) : bytesEqual a b = true <-> a = b.
Proof.
  revert b. induction a as [|x a IH]; intros [|y b]; cbn; try easy.
  rewrite andb_true_iff, IH. split.
  - intros [H ->]. apply Byte.byte_dec_bl in H. congruence.
  - intros [= -> ->]. split; [apply Byte.byte_dec_lb|]; reflexivity.
Qed.

Section HashFacts.
Context {rt : Runtime}.


(** What a successful comparison means: the stored text decodes to the
    digest of the plain text. *)
Lemma safeCompareHash_true (plain expectedHash : value) :
  safeCompareHash plain expectedHash = Ok true <->
  hexDecode (toString (js_or expectedHash (VStr ""))) = sha256_digest (toString plain).
Proof.
  unfold safeCompareHash, timingSafeEqual, sha256.
  rewrite hexDecode_hexEncode.
  destruct (length _ =? length _)%nat eqn:E; cbn.
  - split.
    + intros [= H]. apply bytesEqual_eq in H. congruence.
    + intros H. f_equal. apply bytesEqual_eq. congruence.
  - split; [discriminate|]. intros H. rewrite H in E.
    apply Nat.eqb_neq in E. congruence.
Qed.

End HashFacts.

(** ** Config loader *)

Lemma lookupField_setField (k k' : string) (v : value) (fs : list (string * value)) :
  lookupField k (setField k' v fs) =
  if String.eqb k k' then Some v else lookupField k fs.
Proof.
  induction fs as [|[k0 v0] fs IH]; cbn.
  - destruct (String.eqb k k'); reflexivity.
  - destruct (String.eqb k' k0) eqn:E0; cbn.
    + apply String.eqb_eq in E0. subst k0.
      destruct (String.eqb k k'); reflexivity.
    + destruct (String.eqb k k0) eqn:E1.
      * apply String.eqb_eq in E1. subst k0.
        rewrite String.eqb_sym, E0. reflexivity.
      * exact IH.
Qed.

(** Assigning entries that agree on the value of [k] leaves [k] bound to
    that value if one of them names it, and untouched otherwise. *)
Lemma lookupField_assign (k : string) (v0 : value)
    (entries t : list (string * value)) :
  (forall kv, kv ∈ entries -> kv.1 = k -> kv.2 = v0) ->
  lookupField k (foldl (fun t kv => setField kv.1 kv.2 t) t entries) =
  if existsb (fun kv => String.eqb k kv.1) entries then Some v0
  else lookupField k t.
Proof.
  revert t. induction entries as [|a entries IH]; intros t Hv; [reflexivity|].
  cbn [foldl existsb]. rewrite IH.
  - rewrite lookupField_setField.
    destruct (existsb _ entries); [now rewrite orb_true_r|].
    rewrite orb_false_r. destruct (String.eqb k a.1) eqn:E; [|reflexivity].
    apply String.eqb_eq in E. f_equal. apply Hv; [left|congruence].
  - intros kv Hin. apply Hv. now right.
Qed.

Lemma stringOfNat_not_clients (i : nat) : String.eqb "clients" (stringOfNat i) = false.
Proof.
  unfold stringOfNat, stringOfZ.
  destruct (Z.to_int (Z.of_nat i)) as [d|d] eqn:E.
  - destruct d; reflexivity.
  - destruct i; discriminate.
Qed.

Lemma charEntries_no_clients (s : string) (i : nat) :
  existsb (fun kv : string * value => String.eqb "clients" kv.1) (charEntries i s) = false.
Proof.
  revert i. induction s as [|c s IH]; intros i; [reflexivity|].
  cbn [charEntries existsb fst]. now rewrite stringOfNat_not_clients, IH.
Qed.

Lemma imapEntries_no_clients (xs : list value) (i : nat) :
  existsb (fun kv : string * value => String.eqb "clients" kv.1)
    (imap (fun j x => (stringOfNat (i + j), x)) xs) = false.
Proof.
  revert i. induction xs as [|x xs IH]; intros i; [reflexivity|].
  cbn [imap existsb fst]. rewrite stringOfNat_not_clients. cbn [orb].
  erewrite imap_ext; [apply (IH (S i))|].
  intros j y _. cbn. do 2 f_equal. lia.
Qed.

(** A name that no entry carries is not touched by the assignment. *)
Lemma lookupField_assign_other (k : string) (entries t : list (string * value)) :
  existsb (fun kv => String.eqb k kv.1) entries = false ->
  lookupField k (foldl (fun t kv => setField kv.1 kv.2 t) t entries) = lookupField k t.
Proof.
  intros Hno. rewrite (lookupField_assign k VUndef), Hno; [reflexivity|].
  intros kv Hin E. exfalso. rewrite <- not_true_iff_false in Hno. apply Hno.
  apply existsb_exists. exists kv. split.
  - apply list_elem_of_In. exact Hin.
  - rewrite E. apply String.eqb_refl.
Qed.

Lemma existsb_key_lookup (k : string) (g : string * value -> value)
    (fs : list (string * value)) :
  existsb (fun kv : string * value => String.eqb k kv.1)
    (map (fun kv => (kv.1, g kv)) fs) =
  match lookupField k fs with Some _ => true | None => false end.
Proof.
  induction fs as [|[k0 v0] fs IH]; [reflexivity|].
  cbn [map existsb fst lookupField].
  destruct (String.eqb k k0); [reflexivity|exact IH].
Qed.

Section ConfigFacts.
Context {rt : Runtime}.

(** [config.clients] after [Object.assign({}, defaults, parsed)]. *)
Lemma clients_after_defaults (doc : value) :
  lookupField "clients" (objectAssign defaults doc) = Some (clientsField doc).
Proof.
  unfold objectAssign. destruct doc as [| | | | s|xs|fs]; try reflexivity.
  - cbn [ownEntries]. rewrite lookupField_assign_other; [reflexivity|].
    apply charEntries_no_clients.
  - cbn [ownEntries]. rewrite lookupField_assign_other; [reflexivity|].
    apply (imapEntries_no_clients xs 0).
  - cbn [ownEntries clientsField].
    rewrite (lookupField_assign _ (default VUndef (lookupField "clients" fs))).
    + rewrite (existsb_key_lookup _ (fun kv => default VUndef (lookupField kv.1 fs))).
      destruct (lookupField "clients" fs); reflexivity.
    + intros kv Hin E. apply list_elem_of_fmap in Hin as ([k v] & -> & _).
      cbn in *. now subst.
Qed.

End ConfigFacts.
Lemma includes_app (xs ys : list value) (v : value) :
  includes (xs ++ ys) v = includes xs v || includes ys v.
Proof. unfold includes. apply existsb_app. Qed.

Lemma getProp_field (client id : value) :
  getProp client "id" = Ok id -> field client "id" = id.
Proof. destruct client; cbn; congruence. Qed.

Lemma getProp_throws (client : value) (m : string) :
  getProp client "id" = Throw m -> field client "id" = VUndef.
Proof. destruct client; cbn; congruence. Qed.

Lemma duplicateIds_cons (client : value) (rest : list value) :
  duplicateIds (client :: rest) <->
  (exists c, c ∈ rest /\ sameValueZero (field client "id") (field c "id") = true) \/
  duplicateIds rest.
Proof.
  split.
  - intros (i & j & ci & cj & Hlt & Hi & Hj & Hsame).
    destruct j as [|j]; [lia|]. cbn in Hj.
    destruct i as [|i]; cbn in Hi.
    + left. injection Hi as <-. exists cj. split; [|exact Hsame].
      eapply list_elem_of_lookup_2; eassumption.
    + right. exists i, j, ci, cj. repeat split; try assumption. lia.
  - intros [(c & Hin & Hsame)|(i & j & ci & cj & Hlt & Hi & Hj & Hsame)].
    + apply list_elem_of_lookup_1 in Hin as [j Hj].
      exists 0%nat, (S j), client, c. repeat split; try assumption. lia.
    + exists (S i), (S j), ci, cj. repeat split; try assumption. lia.
Qed.

(** When the loop over the clients throws. *)
Lemma checkClients_fails (cs seen : list value) :
  isOk (checkClients seen cs) = false <->
  (exists c, c ∈ cs /\ lacksIdOrKey c) \/
  (exists c, c ∈ cs /\ includes seen (field c "id") = true) \/
  duplicateIds cs.
Proof.
  revert seen. induction cs as [|client rest IH]; intros seen.
  - cbn. split; [discriminate|].
    intros [(c & Hin & _)|[(c & Hin & _)|(i & j & ci & cj & _ & Hi & _)]];
      solve [inversion Hin | discriminate].
  - cbn [checkClients]. destruct (getProp client "id") as [id|m] eqn:Hid; cbn [bind].
    2:{ apply getProp_throws in Hid. split; [intros _|reflexivity].
        left. exists client. split; [left|]. left. now rewrite Hid. }
    apply getProp_field in Hid.
    destruct (negb (truthy id) || negb (truthy (field client "keySha256"))) eqn:Hlack.
    { split; [intros _|reflexivity]. left. exists client. split; [left|].
      unfold lacksIdOrKey. rewrite Hid.
      apply orb_true_iff in Hlack as [H|H]; apply negb_true_iff in H; auto. }
    apply orb_false_iff in Hlack as [Hi Hk].
    apply negb_false_iff in Hi, Hk.
    destruct (includes seen id) eqn:Hseen.
    { split; [intros _|reflexivity]. right. left. exists client.
      split; [left|]. now rewrite Hid. }
    assert (Hobj : exists fs, client = VObj fs).
    { destruct client; cbn in Hid; subst id; try discriminate. eauto. }
    destruct Hobj as [fs ->]. cbn [bind].
    destruct (checkClients (seen ++ [id]) rest) as [rest'|m] eqn:Hrest; cbn [bind isOk].
    + split; [discriminate|]. intros Hbad. exfalso.
      assert (Hok : isOk (checkClients (seen ++ [id]) rest) = true) by now rewrite Hrest.
      apply not_false_iff_true in Hok. apply Hok, IH. clear Hok IH Hrest rest'.
      destruct Hbad as [(c & Hin & Hl)|[(c & Hin & Hinc)|Hdup]].
      * apply elem_of_cons in Hin as [->|Hin]; [|left; eauto].
        destruct Hl as [Hl|Hl]; congruence.
      * apply elem_of_cons in Hin as [->|Hin]; [congruence|].
        right. left. exists c. split; [exact Hin|].
        rewrite includes_app, Hinc. reflexivity.
      * apply duplicateIds_cons in Hdup as [(c & Hin & Hsame)|Hdup]; [|auto].
        right. left. exists c. split; [exact Hin|].
        rewrite includes_app. apply orb_true_iff. right.
        unfold includes. cbn. rewrite sameValueZero_sym, <- Hid, Hsame. reflexivity.
    + split; [intros _|reflexivity].
      assert (Hbad : isOk (checkClients (seen ++ [id]) rest) = false) by now rewrite Hrest.
      apply IH in Hbad. clear IH Hrest.
      destruct Hbad as [(c & Hin & Hl)|[(c & Hin & Hinc)|Hdup]].
      * left. exists c. split; [now right|exact Hl].
      * rewrite includes_app in Hinc. apply orb_true_iff in Hinc as [Hinc|Hinc].
        -- right. left. exists c. split; [now right|exact Hinc].
        -- right. right. apply duplicateIds_cons. left. exists c.
           split; [exact Hin|]. unfold includes in Hinc. cbn in Hinc.
           rewrite orb_false_r in Hinc. rewrite sameValueZero_sym, Hid. exact Hinc.
      * right. right. apply duplicateIds_cons. now right.
Qed.

Section ConfigClaims.
Context {rt : Runtime}.

(** C9 (as amended): [loadConfig] throws, which is fatal at startup, if
    and only if the config file does not exist, its JSON does not parse,
    the clients field is not a non-empty array, some client lacks an
    identifier or a key hash, or two clients have the same identifier.  A
    destination allowlist that is not an array is no failure. *)
Theorem loadConfig_fails_iff_rule_violated (file : configFile) :
  isOk (loadConfig file) = false <-> rulesViolated file.
Proof.
  destruct file as [| |doc]; cbn [loadConfig rulesViolated isOk]; [easy..|].
  rewrite clients_after_defaults. cbn [default from_option id].
  destruct (clientsField doc) as [| | | | |[|c cs]|]; cbn [isOk]; try easy.
  destruct (checkClients [] (c :: cs)) as [cs'|m] eqn:Hcheck; cbn [bind isOk].
  - split; [discriminate|]. intros Hbad. exfalso.
    assert (Hok : isOk (checkClients [] (c :: cs)) = true) by now rewrite Hcheck.
    apply not_false_iff_true in Hok. apply Hok, checkClients_fails.
    destruct Hbad; auto.
  - split; [intros _|reflexivity].
    assert (Hbad : isOk (checkClients [] (c :: cs)) = false) by now rewrite Hcheck.
    apply checkClients_fails in Hbad as [?|[(x & _ & Hx)|?]]; auto.
    discriminate.
Qed.

End ConfigClaims.

(** C9, counterexample: a document whose only client has the string ["*"]
    for its allowlist violates the allowlist rule of the specification's
    list, and [loadConfig] accepts it, with the allowlist replaced by the
    empty array. *)
Lemma loadConfig_accepts_string_allowlist :
  allowlistRuleViolated (Parsed stringAllowlistDoc) /\
  (forall config,
     loadConfig (rt := exampleRuntime) (Parsed stringAllowlistDoc) = Ok config ->
     field config "clients" =
       VArr [VObj [("id", VStr "agent-client"); ("keySha256", VStr "00");
                   ("canSendTo", VArr [])]]) /\
  ~ (isOk (loadConfig (rt := exampleRuntime) (Parsed stringAllowlistDoc)) = false <->
     rulesViolated (Parsed stringAllowlistDoc) \/
     allowlistRuleViolated (Parsed stringAllowlistDoc)).
Proof.
  assert (Hrule : allowlistRuleViolated (Parsed stringAllowlistDoc)).
  { cbn. eexists. split; [left|]. reflexivity. }
  split; [exact Hrule|split].
  - intros config. vm_compute. intros [= <-]. reflexivity.
  - intros [_ Hback]. specialize (Hback (or_intror Hrule)). discriminate Hback.
Qed.
(** ** Connections and sockets *)

Lemma getConn_updConn_ne (c c' : nat) (f : connState -> connState) (w : world) :
  c <> c' -> getConn c (updConn c' f w) = getConn c w.
Proof.
  intros Hne. unfold getConn, updConn. cbn.
  now rewrite list_lookup_alter_ne by congruence.
Qed.

Lemma getConn_updConn_same (c : nat) (f : connState -> connState) (w : world) :
  (c < length (conns w))%nat -> getConn c (updConn c f w) = f (getConn c w).
Proof.
  intros Hlt. unfold getConn, updConn. cbn.
  rewrite list_lookup_alter_eq.
  destruct (lookup_lt_is_Some_2 _ _ Hlt) as [cs ->]. reflexivity.
Qed.

(** A field that the update leaves alone reads the same afterwards, on
    every connection. *)
Lemma getConn_updConn_proj {A} (proj : connState -> A) (c c' : nat)
    (f : connState -> connState) (w : world) :
  (forall cs, proj (f cs) = proj cs) ->
  proj (getConn c (updConn c' f w)) = proj (getConn c w).
Proof.
  intros Hproj. destruct (decide (c = c')) as [->|Hne].
  - unfold getConn, updConn. cbn. rewrite list_lookup_alter_eq.
    destruct (conns w !! c'); cbn; [apply Hproj|reflexivity].
  - now rewrite getConn_updConn_ne.
Qed.

Lemma length_conns_updConn (c : nat) (f : connState -> connState) (w : world) :
  length (conns (updConn c f w)) = length (conns w).
Proof. unfold updConn. cbn. apply length_alter. Qed.

Lemma written_sendJson_same (c : nat) (fr : frame) (w : world) :
  (c < length (conns w))%nat ->
  written (getConn c (sendJson c fr w)) = written (getConn c w) ++ [fr].
Proof. intros Hlt. unfold sendJson. now rewrite getConn_updConn_same. Qed.

Lemma written_sendJson_ne (c c' : nat) (fr : frame) (w : world) :
  c <> c' -> written (getConn c (sendJson c' fr w)) = written (getConn c w).
Proof. intros Hne. unfold sendJson. now rewrite getConn_updConn_ne. Qed.

(** ** Maps *)

Section MapFacts.
Context {V : Type}.
Implicit Types (m : list (value * V)) (k : value) (v : V).

Lemma map_get_set_same k v m :
  sameValueZero k k = true -> map_get k (map_set k v m) = Some v.
Proof.
  intros Hk. induction m as [|[k' v'] m IH]; cbn.
  - now rewrite Hk.
  - destruct (sameValueZero k' k) eqn:E; cbn; rewrite E; [reflexivity|exact IH].
Qed.

Lemma map_get_set_ne k k' v m :
  sameValueZero k k' = false -> map_get k' (map_set k v m) = map_get k' m.
Proof.
  intros Hne. induction m as [|[k0 v0] m IH]; cbn.
  - now rewrite Hne.
  - destruct (sameValueZero k0 k) eqn:E; cbn.
    + apply sameValueZero_eq in E. subst k0. now rewrite Hne.
    + now rewrite IH.
Qed.

Lemma map_get_elem_of k v m :
  map_get k m = Some v -> exists k', (k', v) ∈ m /\ sameValueZero k' k = true.
Proof.
  induction m as [|[k0 v0] m IH]; cbn; [discriminate|].
  destruct (sameValueZero k0 k) eqn:E.
  - intros [= ->]. exists k0. split; [left|exact E].
  - intros H. destruct (IH H) as (k' & Hin & Hk'). exists k'. split; [now right|exact Hk'].
Qed.

Lemma elem_of_map_set k v k0 v0 m :
  (k0, v0) ∈ map_set k v m -> (k0, v0) ∈ m \/ (k0 = k /\ v0 = v).
Proof.
  induction m as [|[k1 v1] m IH]; cbn.
  - intros H. apply list_elem_of_singleton in H. right. split; congruence.
  - destruct (sameValueZero k1 k) eqn:E.
    + intros H. apply elem_of_cons in H as [H|H].
      * right. apply sameValueZero_eq in E. split; congruence.
      * left. now right.
    + intros H. apply elem_of_cons in H as [H|H].
      * left. rewrite H. left.
      * destruct (IH H) as [H'|H']; [left; now right|now right].
Qed.

Lemma elem_of_map_delete k k0 v0 m :
  (k0, v0) ∈ map_delete k m -> (k0, v0) ∈ m.
Proof.
  induction m as [|[k1 v1] m IH]; cbn; [easy|].
  destruct (sameValueZero k1 k).
  - intros H. now right.
  - intros H. apply elem_of_cons in H as [H|H]; [rewrite H; left|right; auto].
Qed.

Lemma map_has_get k m : map_has k m = true <-> exists v, map_get k m = Some v.
Proof.
  unfold map_has. destruct (map_get k m); split; eauto; try discriminate.
  intros [v [=]].
Qed.

End MapFacts.
Section HashClaims.
Context {rt : Runtime} {config : Config}.
Hypothesis digest_length : forall s, length (sha256_digest s) = 32%nat.


End HashClaims.

(** ** A relation all the operations respect is respected by every run *)

(** [handleSend] respects a relation that its steps respect. *)
Section SendClosure.
Context {rt : Runtime} {config : Config}.
Variable R : world -> world -> Prop.
Hypothesis R_trans : forall w1 w2 w3, R w1 w2 -> R w2 w3 -> R w1 w3.
Hypothesis R_sendJson : forall c f w, notMessage f -> R w (sendJson c f w).
Hypothesis R_nowIso : forall w, R w (nowIso w).2.
Hypothesis R_randomId : forall p w, R w (randomId p w).2.
Hypothesis R_deliver : forall e w, R w (deliverEnvelope e w).2.

Lemma R_handleSend (c : nat) (msg : value) (w : world) : R w (handleSend c msg w).
Proof.
  unfold handleSend.
  repeat match goal with |- R _ (if ?b then _ else _) => destruct b end;
    try (apply R_sendJson; intros ?; discriminate).
  destruct (truthy (field msg "id")).
  - pose proof (R_nowIso w) as H1. destruct (nowIso w) as [ts w2]. cbn [snd] in H1.
    match goal with |- context [deliverEnvelope ?e w2] =>
      pose proof (R_deliver e w2) as H2; destruct (deliverEnvelope e w2) as [r w3]
    end.
    cbn [snd] in H2. eapply R_trans; [exact H1|]. eapply R_trans; [exact H2|].
    apply R_sendJson. intros ?; discriminate.
  - pose proof (R_randomId "m" w) as H0. destruct (randomId "m" w) as [rid w1].
    cbn [snd] in H0.
    pose proof (R_nowIso w1) as H1. destruct (nowIso w1) as [ts w2]. cbn [snd] in H1.
    match goal with |- context [deliverEnvelope ?e w2] =>
      pose proof (R_deliver e w2) as H2; destruct (deliverEnvelope e w2) as [r w3]
    end.
    cbn [snd] in H2. eapply R_trans; [exact H0|]. eapply R_trans; [exact H1|].
    eapply R_trans; [exact H2|]. apply R_sendJson. intros ?; discriminate.
Qed.

End SendClosure.

Section Closure.
Context {rt : Runtime} {config : Config}.
Variable R : world -> world -> Prop.
Hypothesis R_refl : forall w, R w w.
Hypothesis R_trans : forall w1 w2 w3, R w1 w2 -> R w2 w3 -> R w1 w3.
Hypothesis R_valid : forall c w w', R w w' -> valid c w -> valid c w'.
Hypothesis R_sendJson : forall c f w, notMessage f -> R w (sendJson c f w).
Hypothesis R_setBuffer : forall c s w, R w (setBuffer c s w).
Hypothesis R_destroy : forall c w, R w (destroy c w).
Hypothesis R_nowIso : forall w, R w (nowIso w).2.
Hypothesis R_randomId : forall p w, R w (randomId p w).2.
Hypothesis R_getQueue : forall k w, R w (getQueue k w).2.
Hypothesis R_deliver : forall e w, R w (deliverEnvelope e w).2.
Hypothesis R_flush : forall k c w, R w (flushQueue k c w).2.
Hypothesis R_send : forall c msg w,
  authed (getConn c w) = true -> R w (handleSend c msg w).
Hypothesis R_auth : forall c k cd w,
  valid c w -> authed (getConn c w) = false -> map_get k clientsById = Some cd ->
  R w (registerConnection (client_id cd) c (setAuthed c (client_id cd) w)).
Hypothesis R_close : forall c w, R w (onClose c w).
Hypothesis R_connect : forall w, R w (withConns (conns w ++ [newConn]) w).

Local Ltac via f :=
  let H := fresh "H" in
  pose proof f as H;
  match type of H with
  | R ?a (?t).2 => destruct t eqn:?; cbn [snd] in H
  end.

(* Name the state after each state-passing call in the goal, with the fact
   that it is related to the state before. *)
Local Ltac calls :=
  repeat first
    [ match goal with |- context [nowIso ?w] => via (R_nowIso w) end
    | match goal with |- context [randomId ?p ?w] => via (R_randomId p w) end
    | match goal with |- context [getQueue ?k ?w] => via (R_getQueue k w) end
    | match goal with |- context [deliverEnvelope ?e ?w] => via (R_deliver e w) end
    | match goal with |- context [flushQueue ?k ?c ?w] => via (R_flush k c w) end ].

Local Ltac sent := apply R_sendJson; intros ?; discriminate.

Local Ltac link :=
  repeat (eapply R_trans; [eassumption|]);
  first [apply R_refl | sent | apply R_destroy | apply R_setBuffer
        | eapply R_trans; [|first [apply R_destroy | eassumption]]; sent].

Lemma R_handleUnauthed (c : nat) (msg : value) (w w' : world) (ctl : control) :
  valid c w -> authed (getConn c w) = false ->
  handleUnauthed c msg w = Ok (ctl, w') -> R w w'.
Proof.
  intros Hc Hun. unfold handleUnauthed.
  destruct (negb _).
  { intros [= _ <-]. sent. }
  assert (Hrej : R w (destroy c (sendJson c FAuthFailed w))).
  { eapply R_trans; [|apply R_destroy]. sent. }
  destruct (map_get _ clientsById) as [cd|] eqn:Hget.
  2:{ intros [= _ <-]. exact Hrej. }
  destruct (safeCompareHash _ _) as [[|]|m]; cbn [bind negb]; try discriminate.
  2:{ intros [= _ <-]. exact Hrej. }
  pose proof (R_auth c _ cd w Hc Hun Hget) as H1.
  set (w2 := registerConnection _ _ _) in *.
  via (R_getQueue (client_id cd) w2). via (R_nowIso w0).
  set (w5 := sendJson _ _ _).
  via (R_flush (client_id cd) c w5).
  intros [= _ <-].
  eapply R_trans; [exact H1|]. eapply R_trans; [exact H|].
  eapply R_trans; [exact H0|]. eapply R_trans; [|exact H2]. sent.
Qed.

Lemma R_dispatch (c : nat) (line : string) (w w' : world) (ctl : control) :
  valid c w -> dispatch c line w = Ok (ctl, w') -> R w w'.
Proof.
  intros Hc. unfold dispatch.
  destruct (negb (truthy _)); [intros [= _ <-]; sent|].
  destruct (authed (getConn c w)) eqn:Hauth; cbn [negb];
    [|now apply R_handleUnauthed].
  destruct (isStr _ "ping").
  { calls. intros [= _ <-]. link. }
  destruct (isStr _ "send"); [intros [= _ <-]; now apply R_send|].
  destruct (isStr _ "whoami"); [|intros [= _ <-]; sent].
  destruct (map_get _ clientsById); [|discriminate].
  calls. intros [= _ <-]. link.
Qed.

Lemma R_handleFrame (c : nat) (line : string) (w w' : world) (ctl : control) :
  valid c w -> handleFrame c line w = Ok (ctl, w') -> R w w'.
Proof.
  intros Hc. unfold handleFrame.
  destruct (String.eqb line ""); [intros [= _ <-]; apply R_refl|].
  destruct (_ >? _); [intros [= _ <-]; sent|].
  now apply R_dispatch.
Qed.

Lemma R_frameLoop (fuel c : nat) (w w' : world) :
  valid c w -> frameLoop fuel c w = Ok w' -> R w w'.
Proof.
  revert w. induction fuel as [|fuel IH]; intros w Hc; cbn [frameLoop].
  { intros [= <-]. apply R_refl. }
  destruct (indexOf LF _) as [idx|]; [|intros [= <-]; apply R_refl].
  set (w1 := setBuffer _ _ _).
  assert (H1 : R w w1) by apply R_setBuffer.
  destruct (handleFrame _ _ w1) as [[ctl w2]|m] eqn:Hframe; cbn [bind]; [|discriminate].
  apply R_handleFrame in Hframe; [|eauto].
  destruct ctl.
  - intros Hloop. apply IH in Hloop; eauto.
  - intros [= <-]. eauto.
Qed.

Lemma R_onData (c : nat) (chunk : string) (w w' : world) :
  valid c w -> onData c chunk w = Ok w' -> R w w'.
Proof.
  intros Hc. unfold onData. set (w1 := setBuffer _ _ _).
  assert (H1 : R w w1) by apply R_setBuffer.
  destruct (_ >? _).
  - intros [= <-]. eapply R_trans; [exact H1|].
    eapply R_trans; [|apply R_destroy]. sent.
  - intros Hloop. apply R_frameLoop in Hloop; eauto.
Qed.

Lemma R_buildStatus (w : world) : R w (buildStatus w).2.
Proof.
  unfold buildStatus.
  set (f := fun acc client => _).
  assert (Hfold : forall cs acc, R w acc.2 -> R w (foldl f acc cs).2).
  { induction cs as [|cd cs IH]; intros acc Hacc; [exact Hacc|].
    cbn [foldl]. apply IH. unfold f.
    via (R_getQueue (client_id cd) acc.2). cbn [snd]. eauto. }
  specialize (Hfold clients ([], w) (R_refl w)).
  destruct (foldl f _ _) as [queued w1]. cbn [snd] in Hfold.
  via (R_nowIso w1). cbn [snd]. eauto.
Qed.

Lemma R_routeAdminSend (body : value) (w w' : world) (r : adminResult) :
  routeAdminSend body w = Ok (r, w') -> R w w'.
Proof.
  unfold routeAdminSend.
  destruct (getProp body "asClient") as [asClient|m]; cbn [bind]; [|discriminate].
  repeat match goal with
    | |- (if ?b then _ else _) = _ -> _ =>
        destruct b; [intros [= _ <-]; apply R_refl|]
    end.
  destruct (truthy (field body "id")); calls; intros [= _ <-]; link.
Qed.

Lemma R_httpHandler (req : request) (w w' : world) (resp : response) :
  httpHandler req w = Ok (resp, w') -> R w w'.
Proof.
  unfold httpHandler. cbv zeta.
  destruct (String.eqb (pathname req) "/health").
  { calls. intros [= _ <-]. link. }
  repeat match goal with
    | |- (if String.eqb ?a ?b then _ else _) = _ -> _ =>
        destruct (String.eqb a b); [try (intros [= _ <-]; apply R_refl)|]
    end.
  { intros [= _ <-]; apply R_refl. }
  destruct (negb (startsWith _ _)); [intros [= _ <-]; apply R_refl|].
  destruct (isAuthorizedHttp req) as [[|]|m]; cbn [bind negb]; try discriminate.
  2:{ intros [= _ <-]; apply R_refl. }
  destruct (_ && _).
  { via (R_buildStatus w). intros [= _ <-]. link. }
  destruct (_ && _); [|intros [= _ <-]; apply R_refl].
  destruct (parseBody req) as [parsed|m]; [|intros [= _ <-]; apply R_refl].
  destruct (routeAdminSend parsed w) as [[[e|e r] w1]|m] eqn:Hsend;
    intros [= _ <-]; try apply R_refl; eapply R_routeAdminSend; eassumption.
Qed.

Lemma R_step (ev : event) (w w' : world) : step ev w = Ok w' -> R w w'.
Proof.
  destruct ev as [|c chunk|c|req]; cbn [step].
  - intros [= <-]. apply R_connect.
  - destruct (live c w) eqn:Hlive; [|intros [= <-]; apply R_refl].
    assert (Hc : valid c w).
    { unfold live in Hlive. destruct (conns w !! c) eqn:E; [|discriminate].
      eapply lookup_lt_Some; eassumption. }
    destruct (onData c chunk w) as [w1|m] eqn:Hdata; cbn [bind]; [|discriminate].
    apply R_onData in Hdata; [|exact Hc].
    intros [= <-]. destruct (destroyed _); eauto.
  - destruct (live c w); intros [= <-]; eauto.
  - destruct (httpHandler req w) as [[resp w1]|m] eqn:Hhttp; cbn [bind]; [|discriminate].
    intros [= <-]. eapply R_httpHandler; eassumption.
Qed.

Lemma R_run (evs : list event) (w w' : world) : run evs w = Ok w' -> R w w'.
Proof.
  revert w. induction evs as [|ev evs IH]; intros w; cbn [run].
  - intros [= <-]. apply R_refl.
  - destruct (step ev w) as [w1|m] eqn:Hstep; cbn [bind]; [|discriminate].
    intros Hrun. apply R_step in Hstep. eauto.
Qed.

End Closure.

(** The same with one assumption for each operation, whatever the frame,
    the envelope or the connection. *)
Section PlainClosure.
Context {rt : Runtime} {config : Config}.
Variable R : world -> world -> Prop.
Hypothesis R_refl : forall w, R w w.
Hypothesis R_trans : forall w1 w2 w3, R w1 w2 -> R w2 w3 -> R w1 w3.
Hypothesis R_valid : forall c w w', R w w' -> valid c w -> valid c w'.
Hypothesis R_sendJson : forall c f w, R w (sendJson c f w).
Hypothesis R_setBuffer : forall c s w, R w (setBuffer c s w).
Hypothesis R_destroy : forall c w, R w (destroy c w).
Hypothesis R_nowIso : forall w, R w (nowIso w).2.
Hypothesis R_randomId : forall p w, R w (randomId p w).2.
Hypothesis R_getQueue : forall k w, R w (getQueue k w).2.
Hypothesis R_deliver : forall e w, R w (deliverEnvelope e w).2.
Hypothesis R_flush : forall k c w, R w (flushQueue k c w).2.
Hypothesis R_auth : forall c k cd w,
  valid c w -> map_get k clientsById = Some cd ->
  R w (registerConnection (client_id cd) c (setAuthed c (client_id cd) w)).
Hypothesis R_close : forall c w, R w (onClose c w).
Hypothesis R_connect : forall w, R w (withConns (conns w ++ [newConn]) w).

Lemma R_handleFrame_plain (c : nat) (line : string) (w w' : world) (ctl : control) :
  valid c w -> handleFrame c line w = Ok (ctl, w') -> R w w'.
Proof.
  apply (R_handleFrame R); try assumption.
  - intros c0 f w0 _. apply R_sendJson.
  - intros c0 msg w0 _. apply R_handleSend; try assumption.
    intros c1 f w1 _. apply R_sendJson.
  - intros c0 k cd w0 Hc _ Hget. now apply (R_auth c0 k).
Qed.

Lemma R_run_plain (evs : list event) (w w' : world) : run evs w = Ok w' -> R w w'.
Proof.
  apply (R_run R); try assumption.
  - intros c0 f w0 _. apply R_sendJson.
  - intros c0 msg w0 _. apply R_handleSend; try assumption.
    intros c1 f w1 _. apply R_sendJson.
  - intros c0 k cd w0 Hc _ Hget. now apply (R_auth c0 k).
Qed.

End PlainClosure.
(** ** What each operation leaves alone *)

Lemma getConn_updConn_cases (c c' : nat) (f : connState -> connState) (w : world) :
  getConn c (updConn c' f w) = getConn c w \/
  getConn c (updConn c' f w) = f (getConn c w).
Proof.
  destruct (decide (c = c')) as [->|Hne]; [|left; now apply getConn_updConn_ne].
  unfold getConn, updConn. cbn. rewrite list_lookup_alter_eq.
  destruct (conns w !! c'); cbn; auto.
Qed.

Lemma getConn_connect (c : nat) (w : world) :
  getConn c (withConns (conns w ++ [newConn]) w) = getConn c w.
Proof.
  unfold getConn. cbn.
  destruct (decide (c < length (conns w))%nat) as [Hlt|Hge].
  - now rewrite lookup_app_l.
  - rewrite lookup_app_r by lia. rewrite (lookup_ge_None_2 (conns w)) by lia.
    destruct (c - length (conns w))%nat as [|n]; reflexivity.
Qed.

Section OperationFacts.
Context {rt : Runtime} {config : Config}.

Lemma sameCore_refl (w : world) : sameCore w w.
Proof. now repeat split. Qed.

Lemma sameCore_trans (w1 w2 w3 : world) : sameCore w1 w2 -> sameCore w2 w3 -> sameCore w1 w3.
Proof.
  intros (Hl & Hc & Ha) (Hl' & Hc' & Ha'). repeat split; try congruence.
  - rewrite (proj1 (Hc' c)). apply Hc.
  - rewrite (proj2 (Hc' c)). apply Hc.
Qed.

Lemma extends_refl (w : world) : extends w w.
Proof. intros c. exists []. now rewrite app_nil_r. Qed.

Lemma extends_trans (w1 w2 w3 : world) : extends w1 w2 -> extends w2 w3 -> extends w1 w3.
Proof.
  intros H12 H23 c. destruct (H12 c) as [x Hx], (H23 c) as [y Hy].
  exists (x ++ y). now rewrite Hy, Hx, app_assoc.
Qed.

Lemma staysDestroyed_refl (w : world) : staysDestroyed w w.
Proof. now intros c. Qed.

Lemma staysDestroyed_trans (w1 w2 w3 : world) :
  staysDestroyed w1 w2 -> staysDestroyed w2 w3 -> staysDestroyed w1 w3.
Proof. intros H12 H23 c H. auto. Qed.

Lemma benign_refl (w : world) : benign w w.
Proof. split; [apply sameCore_refl|split; [apply extends_refl|apply staysDestroyed_refl]]. Qed.

Lemma benign_trans (w1 w2 w3 : world) : benign w1 w2 -> benign w2 w3 -> benign w1 w3.
Proof.
  intros (A & B & C) (A' & B' & C').
  split; [eapply sameCore_trans|split; [eapply extends_trans|eapply staysDestroyed_trans]];
    eassumption.
Qed.

Lemma benign_updConn (c : nat) (f : connState -> connState) (w : world) :
  (forall cs, authed (f cs) = authed cs) ->
  (forall cs, clientId (f cs) = clientId cs) ->
  (forall cs, exists extra, written (f cs) = written cs ++ extra) ->
  (forall cs, destroyed cs = true -> destroyed (f cs) = true) ->
  benign w (updConn c f w).
Proof.
  intros Ha Hi Hw Hd. split; [|split].
  - split; [apply length_conns_updConn|]. split; [|reflexivity].
    intros c0. split; now apply getConn_updConn_proj.
  - intros c0. destruct (getConn_updConn_cases c0 c f w) as [->| ->].
    + exists []. now rewrite app_nil_r.
    + apply Hw.
  - intros c0 H. destruct (getConn_updConn_cases c0 c f w) as [->| ->]; auto.
Qed.

Lemma benign_same_conns (w w' : world) :
  conns w' = conns w -> activeConnections w' = activeConnections w -> benign w w'.
Proof.
  intros Hc Ha. unfold benign, sameCore, extends, staysDestroyed, getConn.
  rewrite Hc, Ha. repeat split; try easy.
  intros c. exists []. now rewrite app_nil_r.
Qed.

Lemma benign_sendJson (c : nat) (f : frame) (w : world) : benign w (sendJson c f w).
Proof. apply benign_updConn; cbn; eauto. Qed.

Lemma benign_setBuffer (c : nat) (s : string) (w : world) : benign w (setBuffer c s w).
Proof.
  apply benign_updConn; cbn; eauto. intros cs. exists []. now rewrite app_nil_r.
Qed.

Lemma benign_destroy (c : nat) (w : world) : benign w (destroy c w).
Proof.
  apply benign_updConn; cbn; eauto. intros cs. exists []. now rewrite app_nil_r.
Qed.

Lemma benign_nowIso (w : world) : benign w (nowIso w).2.
Proof. now apply benign_same_conns. Qed.

Lemma benign_randomId (p : string) (w : world) : benign w (randomId p w).2.
Proof. now apply benign_same_conns. Qed.

Lemma benign_getQueue (k : value) (w : world) : benign w (getQueue k w).2.
Proof. unfold getQueue. cbn. destruct (negb _); now apply benign_same_conns. Qed.

Lemma benign_setQueue (k : value) (q : list envelope) (w : world) :
  benign w (setQueue k q w).
Proof. now apply benign_same_conns. Qed.

Lemma benign_fanout (f : frame) (cs : list nat) (w : world) :
  benign w (foldl (fun w' conn => sendJson conn f w') w cs).
Proof.
  revert w. induction cs as [|c cs IH]; intros w; [apply benign_refl|].
  cbn [foldl]. eapply benign_trans; [apply benign_sendJson|apply IH].
Qed.

Lemma benign_deliverEnvelope (e : envelope) (w : world) :
  benign w (deliverEnvelope e w).2.
Proof.
  unfold deliverEnvelope.
  assert (Hq : benign w (let '(queue, w1) := getQueue (env_to e) w in
      ({| deliveredTo := 0; queued := true |},
       setQueue (env_to e)
         (if Z.of_nat (length (queue ++ [e])) >? queueLimit
          then tail (queue ++ [e]) else queue ++ [e]) w1)).2).
  { pose proof (benign_getQueue (env_to e) w) as H.
    destruct (getQueue (env_to e) w) as [queue w1]. cbn [snd] in *.
    eapply benign_trans; [exact H|apply benign_setQueue]. }
  destruct (map_get _ _) as [[|c cs]|]; [exact Hq| |exact Hq].
  cbn [snd]. apply benign_fanout.
Qed.

Lemma benign_flushLoop (k : value) (c : nat) (q : list envelope) (n : nat) (w : world) :
  benign w (flushLoop k c q n w).2.
Proof.
  revert n w. induction q as [|e q IH]; intros n w; [apply benign_refl|].
  cbn [flushLoop]. eapply benign_trans; [|apply IH].
  eapply benign_trans; [apply benign_setQueue|apply benign_sendJson].
Qed.

Lemma benign_flushQueue (k : value) (c : nat) (w : world) :
  benign w (flushQueue k c w).2.
Proof.
  unfold flushQueue. pose proof (benign_getQueue k w) as H.
  destruct (getQueue k w) as [[|e q] w1]; cbn [snd] in *; [exact H|].
  eapply benign_trans; [exact H|apply benign_flushLoop].
Qed.

(** Registering and unregistering touch the registered sets only, a new
    connection only the list of connections. *)
Lemma conns_registerConnection (k : value) (c : nat) (w : world) :
  conns (registerConnection k c w) = conns w.
Proof. unfold registerConnection. destruct (negb _); reflexivity. Qed.

Lemma conns_unregisterConnection (k : value) (c : nat) (w : world) :
  conns (unregisterConnection k c w) = conns w.
Proof.
  unfold unregisterConnection. destruct (map_get _ _); [|reflexivity].
  destruct (set_delete _ _); reflexivity.
Qed.

Lemma conns_onClose (c : nat) (w : world) : conns (onClose c w) = conns w.
Proof. unfold onClose. destruct (truthy _); [apply conns_unregisterConnection|reflexivity]. Qed.

Lemma getConn_same_conns (c : nat) (w w' : world) :
  conns w' = conns w -> getConn c w' = getConn c w.
Proof. unfold getConn. now intros ->. Qed.

End OperationFacts.
(** ** The registry *)

Section RegistryFacts.
Context {rt : Runtime} {config : Config}.

Lemma clientsById_keys (k : value) (cd : clientDef) :
  (k, cd) ∈ clientsById -> k = client_id cd.
Proof.
  assert (H : forall cs m,
             (forall k cd, (k, cd) ∈ m -> k = client_id cd) ->
             forall k cd, (k, cd) ∈ foldl (fun m c => map_set (client_id c) c m) m cs ->
                          k = client_id cd).
  { induction cs as [|c cs IH]; intros m Hm; [exact Hm|].
    cbn [foldl]. apply IH. intros k0 cd0 Hin.
    apply elem_of_map_set in Hin as [Hin|[-> ->]]; auto. }
  intros Hin. eapply H; [|exact Hin]. intros k0 cd0 Hin0. inversion Hin0.
Qed.

(** The descriptor the registry returns for a key carries that key as its
    identifier, and looking its identifier up returns it again. *)
Lemma clientsById_get (k : value) (cd : clientDef) :
  map_get k clientsById = Some cd ->
  client_id cd = k /\ map_get (client_id cd) clientsById = Some cd.
Proof.
  intros Hget. destruct (map_get_elem_of _ _ _ Hget) as (k' & Hin & Hk').
  apply clientsById_keys in Hin. apply sameValueZero_eq in Hk'.
  assert (client_id cd = k) by congruence. split; congruence.
Qed.

Lemma map_has_primitive {V} (k : value) (m : list (value * V)) :
  map_has k m = true -> sameValueZero k k = true.
Proof.
  intros H. apply map_has_get in H as [v Hv].
  destruct (map_get_elem_of _ _ _ Hv) as (k' & _ & Hk').
  pose proof (sameValueZero_eq _ _ Hk') as <-. exact Hk'.
Qed.

End RegistryFacts.

(** ** Invariants of the reachable states *)

Lemma NoDup_set_add (x : nat) (s : list nat) : NoDup s -> NoDup (set_add x s).
Proof.
  intros H. unfold set_add. destruct (bool_decide (x ∈ s)) eqn:E; [exact H|].
  apply bool_decide_eq_false in E. apply NoDup_app. repeat split; auto.
  - intros y Hy Hy'. apply list_elem_of_singleton in Hy'. now subst.
  - apply NoDup_singleton.
Qed.

Lemma elem_of_set_add (x y : nat) (s : list nat) :
  y ∈ set_add x s <-> y = x \/ y ∈ s.
Proof.
  unfold set_add. destruct (bool_decide (x ∈ s)) eqn:E.
  - apply bool_decide_eq_true in E. split; [auto|]. intros [->|H]; auto.
  - rewrite elem_of_app, list_elem_of_singleton. tauto.
Qed.

Section ReachableFacts.
Context {rt : Runtime} {config : Config}.

Lemma wf_initial : wf initial.
Proof.
  split.
  - intros k set H. inversion H.
  - intros c H. unfold getConn in H. cbn in H. rewrite lookup_nil in H. discriminate.
Qed.

Lemma wf_sameCore (w w' : world) : sameCore w w' -> wf w -> wf w'.
Proof.
  intros (Hl & Hc & Ha) [Hact Hauth]. split.
  - intros k set Hin. rewrite Ha in Hin. destruct (Hact k set Hin) as [Hnd Hv].
    split; [exact Hnd|]. intros c Hc'. unfold valid. rewrite Hl. now apply Hv.
  - intros c. destruct (Hc c) as [-> ->]. apply Hauth.
Qed.

Lemma wf_auth (c : nat) (k : value) (cd : clientDef) (w : world) :
  valid c w -> map_get k clientsById = Some cd -> wf w ->
  wf (registerConnection (client_id cd) c (setAuthed c (client_id cd) w)).
Proof.
  intros Hc Hget [Hact Hauth].
  set (w1 := setAuthed c (client_id cd) w).
  assert (Hlen : length (conns w1) = length (conns w)) by apply length_conns_updConn.
  split.
  - intros k0 set Hin. unfold registerConnection in Hin.
    assert (Hbase : forall k1 s1,
              (k1, s1) ∈ activeConnections
                 (if negb (map_has (client_id cd) (activeConnections w1))
                  then withActive (map_set (client_id cd) [] (activeConnections w1)) w1
                  else w1) ->
              NoDup s1 /\ forall c1, c1 ∈ s1 -> valid c1 w).
    { intros k1 s1 H1. destruct (negb _); cbn in H1.
      - apply elem_of_map_set in H1 as [H1|[_ ->]]; [exact (Hact _ _ H1)|].
        split; [constructor|]. intros c1 Hc1. inversion Hc1.
      - exact (Hact _ _ H1). }
    unfold valid. rewrite conns_registerConnection, Hlen.
    cbn in Hin. apply elem_of_map_set in Hin as [Hin|[_ ->]]; [exact (Hbase _ _ Hin)|].
    match goal with
    | |- context [map_get (client_id cd) ?m] =>
        destruct (map_get (client_id cd) m) as [s|] eqn:Hs
    end; cbn.
    + apply map_get_elem_of in Hs as (k' & Hs & _). destruct (Hbase _ _ Hs) as [Hnd Hv].
      split; [now apply NoDup_set_add|].
      intros c1 Hc1. apply elem_of_set_add in Hc1 as [->|Hc1]; [exact Hc|now apply Hv].
    + split; [apply (NoDup_set_add c []); constructor|].
      intros c1 Hc1. apply elem_of_set_add in Hc1 as [->|Hc1]; [exact Hc|inversion Hc1].
  - intros c0. rewrite (getConn_same_conns c0 w1 _) by apply conns_registerConnection.
    destruct (decide (c0 = c)) as [->|Hne].
    + unfold w1, setAuthed. rewrite getConn_updConn_same by exact Hc. cbn. intros _.
      exists cd. split; [|reflexivity]. now apply (clientsById_get k).
    + unfold w1, setAuthed. rewrite getConn_updConn_ne by exact Hne. apply Hauth.
Qed.

Lemma wf_onClose (c : nat) (w : world) : wf w -> wf (onClose c w).
Proof.
  intros [Hact Hauth]. split.
  - intros k set Hin. unfold valid. rewrite conns_onClose.
    unfold onClose in Hin. destruct (truthy _); [|exact (Hact _ _ Hin)].
    unfold unregisterConnection in Hin.
    destruct (map_get _ _) as [s|] eqn:Hs; [|exact (Hact _ _ Hin)].
    apply map_get_elem_of in Hs as (k' & Hs & _). destruct (Hact _ _ Hs) as [Hnd Hv].
    assert (Hsub : NoDup (set_delete c s) /\ forall c1, c1 ∈ set_delete c s -> valid c1 w).
    { split; [now apply NoDup_filter|]. intros c1 Hc1.
      apply list_elem_of_filter in Hc1 as [_ Hc1]. auto. }
    destruct (set_delete c s) eqn:E; cbn in Hin.
    + apply elem_of_map_delete in Hin. exact (Hact _ _ Hin).
    + apply elem_of_map_set in Hin as [Hin|[_ ->]]; [exact (Hact _ _ Hin)|exact Hsub].
  - intros c0. rewrite (getConn_same_conns c0 w _) by apply conns_onClose. apply Hauth.
Qed.

Lemma wf_connect (w : world) : wf w -> wf (withConns (conns w ++ [newConn]) w).
Proof.
  intros [Hact Hauth]. split.
  - intros k set Hin. destruct (Hact k set Hin) as [Hnd Hv]. split; [exact Hnd|].
    intros c Hc. specialize (Hv c Hc). unfold valid in *. cbn. rewrite length_app. lia.
  - intros c. rewrite getConn_connect. apply Hauth.
Qed.

Lemma carries_benign (P : world -> Prop) (w w' : world) :
  (sameCore w w' -> P w -> P w') -> benign w w' -> carries P w w'.
Proof.
  intros HP [Hcore _]. split; [now apply HP|]. destruct Hcore as [-> _]. lia.
Qed.

Lemma run_wf (evs : list event) (w w' : world) : run evs w = Ok w' -> wf w -> wf w'.
Proof.
  intros Hrun. apply (R_run_plain (carries wf)) in Hrun; [apply Hrun|..]; clear.
  - intros w. split; auto.
  - intros w1 w2 w3 [H12 L12] [H23 L23]. split; [auto|lia].
  - intros c w w' [_ L] Hc. unfold valid in *. lia.
  - intros. apply carries_benign, benign_sendJson. apply wf_sameCore.
  - intros. apply carries_benign, benign_setBuffer. apply wf_sameCore.
  - intros. apply carries_benign, benign_destroy. apply wf_sameCore.
  - intros. apply carries_benign, benign_nowIso. apply wf_sameCore.
  - intros. apply carries_benign, benign_randomId. apply wf_sameCore.
  - intros. apply carries_benign, benign_getQueue. apply wf_sameCore.
  - intros. apply carries_benign, benign_deliverEnvelope. apply wf_sameCore.
  - intros. apply carries_benign, benign_flushQueue. apply wf_sameCore.
  - intros c k cd w Hc Hget. split; [now apply (wf_auth c k)|].
    rewrite conns_registerConnection. unfold setAuthed.
    rewrite length_conns_updConn. lia.
  - intros c w. split; [apply wf_onClose|]. rewrite conns_onClose. lia.
  - intros w. split; [apply wf_connect|]. cbn. rewrite length_app. lia.
Qed.

Lemma reachable_wf (w : world) : reachable w -> wf w.
Proof. intros [evs Hrun]. eapply run_wf; [exact Hrun|apply wf_initial]. Qed.

End ReachableFacts.
(** ** Router and queue store *)

Section RouterFacts.
Context {rt : Runtime} {config : Config}.

(** Fanning a frame out over a duplicate-free set of connections writes it
    once to each of them and to no other. *)
Lemma written_fanout (f : frame) (cs : list nat) (w : world) (c : nat) :
  NoDup cs -> (forall c', c' ∈ cs -> valid c' w) ->
  written (getConn c (foldl (fun w' conn => sendJson conn f w') w cs)) =
  written (getConn c w) ++ (if bool_decide (c ∈ cs) then [f] else []).
Proof.
  revert w. induction cs as [|a cs IH]; intros w Hnd Hv.
  - cbn. now rewrite app_nil_r.
  - apply NoDup_cons in Hnd as [Ha Hnd]. cbn [foldl]. rewrite IH; [|exact Hnd|].
    2:{ intros c' Hc'. unfold valid, sendJson. rewrite length_conns_updConn.
        apply Hv. now right. }
    destruct (decide (c = a)) as [->|Hne].
    + rewrite written_sendJson_same by (apply Hv; left).
      rewrite (bool_decide_eq_false_2 _ Ha), app_nil_r.
      rewrite bool_decide_eq_true_2 by left. reflexivity.
    + rewrite written_sendJson_ne by exact Hne. f_equal.
      destruct (bool_decide (c ∈ cs)) eqn:E.
      * apply bool_decide_eq_true in E. rewrite bool_decide_eq_true_2; [easy|now right].
      * apply bool_decide_eq_false in E. rewrite bool_decide_eq_false_2; [easy|].
        intros H. apply elem_of_cons in H as [H|H]; auto.
Qed.

Lemma pendingQueues_fanout (f : frame) (cs : list nat) (w : world) :
  pendingQueues (foldl (fun w' conn => sendJson conn f w') w cs) = pendingQueues w.
Proof. revert w. induction cs as [|a cs IH]; intros w; [reflexivity|]. cbn [foldl]. now rewrite IH. Qed.

(** [getQueue] returns the queue of the client. *)
Lemma getQueue_fst (k : value) (w : world) : (getQueue k w).1 = queueOf k w.
Proof.
  unfold getQueue, queueOf, map_has. cbn [fst].
  destruct (map_get k (pendingQueues w)) as [q|] eqn:E; cbn [negb]; [now rewrite E|].
  cbn. destruct (sameValueZero k k) eqn:Hk.
  - now rewrite map_get_set_same.
  - now rewrite map_get_set_ne, E.
Qed.

Lemma conns_getQueue (k : value) (w : world) : conns (getQueue k w).2 = conns w.
Proof. unfold getQueue. cbn. now destruct (negb _). Qed.

Lemma queueOf_setQueue (k : value) (q : list envelope) (w : world) :
  sameValueZero k k = true -> queueOf k (setQueue k q w) = q.
Proof. intros Hk. unfold queueOf, setQueue. cbn. now rewrite map_get_set_same. Qed.

(** What [deliverEnvelope] does when the recipient has no registered
    connection: push, then drop the oldest if the queue got too long. *)
Lemma deliverEnvelope_offline (e : envelope) (w : world) :
  connectionsOf (env_to e) w = [] ->
  deliverEnvelope e w =
  ({| deliveredTo := 0; queued := true |},
   setQueue (env_to e)
     (if Z.of_nat (length (queueOf (env_to e) w ++ [e])) >? queueLimit
      then tail (queueOf (env_to e) w ++ [e])
      else queueOf (env_to e) w ++ [e])
     (getQueue (env_to e) w).2).
Proof.
  intros Hoff. unfold deliverEnvelope, connectionsOf in *.
  rewrite <- getQueue_fst.
  destruct (map_get _ (activeConnections w)) as [[|c cs]|]; try discriminate;
    now destruct (getQueue (env_to e) w).
Qed.

Lemma deliverEnvelope_online (e : envelope) (w : world) :
  connectionsOf (env_to e) w <> [] ->
  deliverEnvelope e w =
  ({| deliveredTo := length (connectionsOf (env_to e) w); queued := false |},
   foldl (fun w' conn => sendJson conn (FMessage e) w') w (connectionsOf (env_to e) w)).
Proof.
  intros Hon. unfold deliverEnvelope, connectionsOf in *.
  now destruct (map_get _ (activeConnections w)) as [[|c cs]|].
Qed.

(** C1: the router either delivers or queues.  In a reachable state and
    for an envelope addressed to a registered client: if the recipient
    has registered connections, the envelope is written as a [message]
    frame once to each of them and to no other connection, nothing is
    queued, and the result is deliveredTo = their number, queued = false;
    otherwise the envelope is pushed onto the recipient's queue and the
    result is deliveredTo = 0, queued = true.  The result deliveredTo = 0
    with queued = false never occurs. *)
Theorem deliverEnvelope_delivers_or_queues (e : envelope) (w : world) :
  reachable w ->
  map_has (env_to e) clientsById = true ->
  let recipients := connectionsOf (env_to e) w in
  let r := (deliverEnvelope e w).1 in
  let w' := (deliverEnvelope e w).2 in
  (recipients <> [] ->
     r = {| deliveredTo := length recipients; queued := false |} /\
     (forall c, c ∈ recipients ->
        written (getConn c w') = written (getConn c w) ++ [FMessage e]) /\
     (forall c, c ∉ recipients -> written (getConn c w') = written (getConn c w)) /\
     pendingQueues w' = pendingQueues w) /\
  (recipients = [] ->
     r = {| deliveredTo := 0; queued := true |} /\
     queueOf (env_to e) w' =
       (if Z.of_nat (length (queueOf (env_to e) w ++ [e])) >? queueLimit
        then tail (queueOf (env_to e) w ++ [e])
        else queueOf (env_to e) w ++ [e]) /\
     (1 <= queueLimit -> last (queueOf (env_to e) w') = Some e) /\
     conns w' = conns w) /\
  ~ (deliveredTo r = 0%nat /\ queued r = false).
Proof.
  intros Hreach Hto. cbv zeta.
  apply reachable_wf in Hreach as [Hact _].
  apply map_has_primitive in Hto.
  destruct (decide (connectionsOf (env_to e) w = [])) as [Hoff|Hon].
  - rewrite (deliverEnvelope_offline e w Hoff). cbn [fst snd].
    split; [easy|]. split; [|intros [_ H]; discriminate H].
    intros _. split; [reflexivity|].
    rewrite queueOf_setQueue by exact Hto. split; [reflexivity|]. split.
    + intros Hlim. set (q := queueOf (env_to e) w).
      destruct (_ >? _) eqn:E.
      * apply Z.gtb_lt in E.
        destruct q as [|e0 q']; cbn in E |- *; [lia|]. apply last_snoc.
      * apply last_snoc.
    + cbn. apply conns_getQueue.
  - rewrite (deliverEnvelope_online e w Hon). cbn [fst snd].
    split; [|split; [easy|]].
    + intros _. split; [reflexivity|].
      assert (Hset : NoDup (connectionsOf (env_to e) w) /\
                     forall c, c ∈ connectionsOf (env_to e) w -> valid c w).
      { unfold connectionsOf in *.
        destruct (map_get _ (activeConnections w)) as [s|] eqn:Hs; [|easy].
        apply map_get_elem_of in Hs as (k' & Hs & _). exact (Hact _ _ Hs). }
      destruct Hset as [Hnd Hv]. split; [|split].
      * intros c Hc. rewrite written_fanout by assumption.
        now rewrite bool_decide_eq_true_2.
      * intros c Hc. rewrite written_fanout by assumption.
        now rewrite bool_decide_eq_false_2, app_nil_r.
      * apply pendingQueues_fanout.
    + intros [H _]. cbn in H. destruct (connectionsOf (env_to e) w); [easy|discriminate].
Qed.

End RouterFacts.
Lemma reachable_stateAfter (evs : list event) :
  isOk (run (rt := exampleRuntime) (config := exampleConfig) evs initial) = true ->
  reachable (rt := exampleRuntime) (config := exampleConfig) (stateAfter evs).
Proof.
  intros H. exists evs. unfold stateAfter.
  destruct (run evs initial); [reflexivity|discriminate].
Defined.

(** C1, witness: with the server's connection registered, an envelope for
    the server is delivered to that one connection. *)
Lemma deliverEnvelope_delivers_or_queues_witness :
  reachable (rt := exampleRuntime) (config := exampleConfig) (stateAfter serverOnline) /\
  map_has (env_to (exampleEnvelope 1)) (clientsById (config := exampleConfig)) = true /\
  (deliverEnvelope (config := exampleConfig) (exampleEnvelope 1) (stateAfter serverOnline)).1
    = {| deliveredTo := 1; queued := false |}.
Proof.
  assert (Hreach : reachable (rt := exampleRuntime) (config := exampleConfig)
                     (stateAfter serverOnline)).
  { apply reachable_stateAfter. vm_compute. reflexivity. }
  assert (Hto : map_has (env_to (exampleEnvelope 1)) (clientsById (config := exampleConfig)) = true).
  { vm_compute. reflexivity. }
  split; [exact Hreach|]. split; [exact Hto|].
  apply (deliverEnvelope_delivers_or_queues (rt := exampleRuntime) (config := exampleConfig)
           (exampleEnvelope 1) (stateAfter serverOnline) Hreach Hto).
  vm_compute. discriminate.
Defined.
Section QueueFacts.
Context {rt : Runtime} {config : Config}.

Lemma queueOf_bounded (k : value) (w : world) :
  0 <= queueLimit -> queuesBounded w -> Z.of_nat (length (queueOf k w)) <= queueLimit.
Proof.
  intros Hlim Hb. unfold queueOf.
  destruct (map_get k (pendingQueues w)) as [q|] eqn:E; cbn; [|lia].
  apply map_get_elem_of in E as (k' & Hin & _). exact (Hb _ _ Hin).
Qed.

Lemma queuesBounded_setQueue (k : value) (q : list envelope) (w : world) :
  Z.of_nat (length q) <= queueLimit -> queuesBounded w -> queuesBounded (setQueue k q w).
Proof.
  intros Hq Hb k0 q0 Hin. cbn in Hin.
  apply elem_of_map_set in Hin as [Hin|[_ ->]]; [exact (Hb _ _ Hin)|exact Hq].
Qed.

Lemma queuesBounded_getQueue (k : value) (w : world) :
  0 <= queueLimit -> queuesBounded w -> queuesBounded (getQueue k w).2.
Proof.
  intros Hlim Hb. unfold getQueue. cbn [snd]. destruct (negb _); [|exact Hb].
  apply (queuesBounded_setQueue k []); [cbn; lia|exact Hb].
Qed.

Lemma queuesBounded_deliverEnvelope (e : envelope) (w : world) :
  0 <= queueLimit -> queuesBounded w -> queuesBounded (deliverEnvelope e w).2.
Proof.
  intros Hlim Hb.
  destruct (decide (connectionsOf (env_to e) w = [])) as [Hoff|Hon].
  - rewrite (deliverEnvelope_offline e w Hoff). cbn [snd].
    apply queuesBounded_setQueue; [|now apply queuesBounded_getQueue].
    pose proof (queueOf_bounded (env_to e) w Hlim Hb) as Hq.
    destruct (_ >? _) eqn:E.
    + destruct (queueOf (env_to e) w); cbn in *; [lia|]. rewrite length_app. cbn. lia.
    + rewrite Z.gtb_ltb in E. apply Z.ltb_ge in E. exact E.
  - rewrite (deliverEnvelope_online e w Hon). cbn [snd].
    intros k q. rewrite pendingQueues_fanout. apply Hb.
Qed.

Lemma queuesBounded_flushLoop (k : value) (c : nat) (q : list envelope) (n : nat) (w : world) :
  Z.of_nat (length q) <= queueLimit -> queuesBounded w ->
  queuesBounded (flushLoop k c q n w).2.
Proof.
  revert n w. induction q as [|e q IH]; intros n w Hq Hb; [exact Hb|].
  cbn [flushLoop]. cbn [length] in Hq. apply IH; [lia|].
  apply (queuesBounded_setQueue k q w); [lia|exact Hb].
Qed.

Lemma queuesBounded_flushQueue (k : value) (c : nat) (w : world) :
  0 <= queueLimit -> queuesBounded w -> queuesBounded (flushQueue k c w).2.
Proof.
  intros Hlim Hb. unfold flushQueue.
  pose proof (queuesBounded_getQueue k w Hlim Hb) as Hb1.
  pose proof (getQueue_fst k w) as Hq.
  pose proof (queueOf_bounded k w Hlim Hb) as Hlen.
  destruct (getQueue k w) as [q w1]. cbn [fst snd] in *. subst q.
  destruct (queueOf k w) eqn:E; [exact Hb1|].
  now apply queuesBounded_flushLoop.
Qed.

Lemma run_queuesBounded (evs : list event) (w w' : world) :
  0 <= queueLimit -> run evs w = Ok w' -> queuesBounded w -> queuesBounded w'.
Proof.
  intros Hlim Hrun. apply (R_run_plain (carries queuesBounded)) in Hrun; [apply Hrun|..]; clear Hrun.
  - intros w0. split; auto.
  - intros w1 w2 w3 [H12 L12] [H23 L23]. split; [auto|lia].
  - intros c w0 w0' [_ L] Hc. unfold valid in *. lia.
  - intros. apply carries_benign, benign_sendJson. intros _ H. exact H.
  - intros. apply carries_benign, benign_setBuffer. intros _ H. exact H.
  - intros. apply carries_benign, benign_destroy. intros _ H. exact H.
  - intros. apply carries_benign, benign_nowIso. intros _ H. exact H.
  - intros. apply carries_benign, benign_randomId. intros _ H. exact H.
  - intros. apply carries_benign, benign_getQueue. intros _. now apply queuesBounded_getQueue.
  - intros. apply carries_benign, benign_deliverEnvelope. intros _.
    now apply queuesBounded_deliverEnvelope.
  - intros. apply carries_benign, benign_flushQueue. intros _.
    now apply queuesBounded_flushQueue.
  - intros c k cd w0 Hc Hget. split.
    + intros H. unfold registerConnection. destruct (negb _); exact H.
    + rewrite conns_registerConnection. unfold setAuthed.
      rewrite length_conns_updConn. lia.
  - intros c w0. split; [|rewrite conns_onClose; lia].
    intros H. unfold onClose. destruct (truthy _); [|exact H].
    unfold unregisterConnection. destruct (map_get _ _); [|exact H].
    destruct (set_delete _ _); exact H.
  - intros w0. split; [intros H; exact H|]. cbn. rewrite length_app. lia.
Qed.

End QueueFacts.
Section DrainFacts.
Context {rt : Runtime} {config : Config}.

Lemma queueOf_getQueue (k : value) (w : world) :
  queueOf k (getQueue k w).2 = queueOf k w.
Proof.
  unfold getQueue, queueOf, map_has. cbn [snd].
  destruct (map_get k (pendingQueues w)) as [q|] eqn:E; cbn [negb]; [now rewrite E|].
  cbn. destruct (sameValueZero k k) eqn:Hk.
  - now rewrite map_get_set_same.
  - now rewrite map_get_set_ne, E.
Qed.

Lemma connectionsOf_benign (k : value) (w w' : world) :
  benign w w' -> connectionsOf k w' = connectionsOf k w.
Proof. intros [(_ & _ & Ha) _]. unfold connectionsOf. now rewrite Ha. Qed.

(** An offline recipient's queue after a run of envelopes for it: what
    was queued followed by what was sent, cut from the front down to the
    limit. *)
Lemma queueOf_deliverAll (k : value) (es : list envelope) (w : world) :
  0 <= queueLimit -> sameValueZero k k = true ->
  connectionsOf k w = [] -> Forall (fun e => env_to e = k) es ->
  Z.of_nat (length (queueOf k w)) <= queueLimit ->
  queueOf k (deliverAll es w) =
    drop (length (queueOf k w ++ es) - Z.to_nat queueLimit) (queueOf k w ++ es) /\
  conns (deliverAll es w) = conns w /\
  connectionsOf k (deliverAll es w) = [].
Proof.
  intros Hlim Hk. revert w. induction es as [|e es IH]; intros w Hoff Hto Hlen.
  - cbn. rewrite app_nil_r.
    replace (length (queueOf k w) - Z.to_nat queueLimit)%nat with 0%nat by lia.
    now rewrite drop_0.
  - apply Forall_cons in Hto as [He Hto]. subst k.
    cbn [deliverAll foldl]. fold (deliverAll es (deliverEnvelope e w).2).
    set (w1 := (deliverEnvelope e w).2).
    assert (Hoff1 : connectionsOf (env_to e) w1 = []).
    { unfold w1. rewrite (connectionsOf_benign _ w); [exact Hoff|].
      apply benign_deliverEnvelope. }
    assert (Hq1 : queueOf (env_to e) w1 =
              drop (length (queueOf (env_to e) w ++ [e]) - Z.to_nat queueLimit)
                   (queueOf (env_to e) w ++ [e])).
    { unfold w1. rewrite (deliverEnvelope_offline e w Hoff). cbn [snd].
      rewrite queueOf_setQueue by exact Hk. rewrite length_app. cbn [length].
      destruct (_ >? _) eqn:E.
      - apply Z.gtb_lt in E.
        replace (length (queueOf (env_to e) w) + 1 - Z.to_nat queueLimit)%nat
          with 1%nat by lia.
        now destruct (queueOf (env_to e) w).
      - rewrite Z.gtb_ltb in E. apply Z.ltb_ge in E.
        replace (length (queueOf (env_to e) w) + 1 - Z.to_nat queueLimit)%nat
          with 0%nat by lia.
        reflexivity. }
    assert (Hc1 : conns w1 = conns w).
    { unfold w1. rewrite (deliverEnvelope_offline e w Hoff). cbn. apply conns_getQueue. }
    assert (Hlen1 : Z.of_nat (length (queueOf (env_to e) w1)) <= queueLimit).
    { rewrite Hq1, length_drop, length_app. cbn [length]. clear -Hlim Hlen. lia. }
    destruct (IH w1 Hoff1 Hto Hlen1) as (Hq & Hc & Ho).
    split; [|split; [congruence|exact Ho]].
    rewrite Hq, Hq1. clear Hq Hq1 Hlen1 IH.
    assert (HL : (length (queueOf (env_to e) w) <= Z.to_nat queueLimit)%nat)
      by (clear -Hlim Hlen; lia).
    generalize dependent (queueOf (env_to e) w). intros q _ HL.
    generalize dependent (Z.to_nat queueLimit). intros L HL.
    rewrite (cons_middle e q es), app_assoc.
    assert (Hqe : length (q ++ [e]) = S (length q)) by (rewrite length_app; cbn; lia).
    destruct (decide (length q + 1 <= L)%nat) as [Hfit|Hover].
    + replace (length (q ++ [e]) - L)%nat with 0%nat by lia. now rewrite drop_0.
    + replace (length (q ++ [e]) - L)%nat with 1%nat by lia.
      rewrite <- (drop_app_le (q ++ [e]) es 1) by lia.
      rewrite drop_drop. f_equal. rewrite length_drop, !length_app. cbn [length]. lia.
Qed.

Lemma flushLoop_spec (k : value) (c : nat) (q : list envelope) (n : nat) (w : world) :
  valid c w ->
  written (getConn c (flushLoop k c q n w).2) = written (getConn c w) ++ map FMessage q /\
  (forall c', c' <> c ->
     written (getConn c' (flushLoop k c q n w).2) = written (getConn c' w)) /\
  (sameValueZero k k = true -> q <> [] -> queueOf k (flushLoop k c q n w).2 = []) /\
  (flushLoop k c q n w).1 = (n + length q)%nat.
Proof.
  revert n w. induction q as [|e q IH]; intros n w Hc.
  - cbn. rewrite app_nil_r. repeat split; try easy; lia.
  - cbn [flushLoop]. set (w1 := sendJson c (FMessage e) (setQueue k q w)).
    assert (Hc1 : valid c w1).
    { unfold valid, w1, sendJson. now rewrite length_conns_updConn. }
    destruct (IH (S n) w1 Hc1) as (Hw & Ho & Hq & Hn).
    split; [|split; [|split]].
    + rewrite Hw. unfold w1. rewrite written_sendJson_same by exact Hc.
      cbn [map]. now rewrite <- app_assoc.
    + intros c' Hne. rewrite Ho by exact Hne. unfold w1.
      now rewrite written_sendJson_ne by exact Hne.
    + intros Hk _. destruct q as [|e' q'].
      * cbn [flushLoop snd]. unfold w1. apply (queueOf_setQueue k [] w Hk).
      * now apply Hq.
    + rewrite Hn. cbn [length]. lia.
Qed.

(** [flushQueue] writes the whole queue to the socket, oldest first, and
    leaves it empty. *)
Lemma flushQueue_spec (k : value) (c : nat) (w : world) :
  sameValueZero k k = true -> valid c w ->
  written (getConn c (flushQueue k c w).2) =
    written (getConn c w) ++ map FMessage (queueOf k w) /\
  (forall c', c' <> c ->
     written (getConn c' (flushQueue k c w).2) = written (getConn c' w)) /\
  queueOf k (flushQueue k c w).2 = [] /\
  (flushQueue k c w).1 = length (queueOf k w).
Proof.
  intros Hk Hc. unfold flushQueue.
  pose proof (getQueue_fst k w) as Hq. pose proof (queueOf_getQueue k w) as Hq'.
  pose proof (conns_getQueue k w) as Hcs.
  destruct (getQueue k w) as [q w1]. cbn [fst snd] in *. subst q.
  assert (Hg : forall c', getConn c' w1 = getConn c' w).
  { intros c'. now apply getConn_same_conns. }
  destruct (queueOf k w) as [|e q] eqn:E.
  - cbn [snd fst map length]. rewrite app_nil_r, Hg. repeat split; auto.
    intros c' _. now rewrite Hg.
  - assert (Hc1 : valid c w1) by (unfold valid; now rewrite Hcs).
    destruct (flushLoop_spec k c (e :: q) 0 w1 Hc1) as (Hw & Ho & Hqe & Hn).
    rewrite Hw, Hg, Hn. repeat split; auto.
    intros c' Hne. now rewrite Ho, Hg.
Qed.

End DrainFacts.
Section QueueClaims.
Context {rt : Runtime} {config : Config}.

(** C2: the queue store is bounded and drops the oldest.  With a limit
    that is not negative: in every reachable state every recipient's queue
    is at most [queueLimit] long; routing an envelope to an offline
    recipient whose queue is full drops the oldest element and appends the
    new one; after a run of envelopes for an offline recipient with an
    empty queue the queue holds the last [queueLimit] of them in their
    order, and [flushQueue] writes exactly these, in that order, to the
    socket and empties the queue.  With limit 3 and five envelopes these
    are the last three. *)
Theorem queue_bounded_drop_oldest :
  0 <= queueLimit ->
  (forall w, reachable w ->
     forall k, Z.of_nat (length (queueOf k w)) <= queueLimit) /\
  (forall w e oldest rest,
     map_has (env_to e) clientsById = true ->
     connectionsOf (env_to e) w = [] ->
     queueOf (env_to e) w = oldest :: rest ->
     Z.of_nat (length (oldest :: rest)) = queueLimit ->
     queueOf (env_to e) (deliverEnvelope e w).2 = rest ++ [e]) /\
  (forall w k es c,
     map_has k clientsById = true ->
     connectionsOf k w = [] -> queueOf k w = [] ->
     Forall (fun e => env_to e = k) es -> valid c w ->
     let kept := drop (length es - Z.to_nat queueLimit) es in
     let w1 := deliverAll es w in
     queueOf k w1 = kept /\
     written (getConn c (flushQueue k c w1).2) =
       written (getConn c w) ++ map FMessage kept /\
     queueOf k (flushQueue k c w1).2 = []) /\
  (queueLimit = 3 ->
   forall w k c e1 e2 e3 e4 e5,
     map_has k clientsById = true ->
     connectionsOf k w = [] -> queueOf k w = [] ->
     Forall (fun e => env_to e = k) [e1; e2; e3; e4; e5] -> valid c w ->
     written (getConn c (flushQueue k c (deliverAll [e1; e2; e3; e4; e5] w)).2) =
       written (getConn c w) ++ [FMessage e3; FMessage e4; FMessage e5]).
Proof.
  intros Hlim.
  assert (Hrun : forall w k es c,
     map_has k clientsById = true ->
     connectionsOf k w = [] -> queueOf k w = [] ->
     Forall (fun e => env_to e = k) es -> valid c w ->
     let kept := drop (length es - Z.to_nat queueLimit) es in
     let w1 := deliverAll es w in
     queueOf k w1 = kept /\
     written (getConn c (flushQueue k c w1).2) =
       written (getConn c w) ++ map FMessage kept /\
     queueOf k (flushQueue k c w1).2 = []).
  { intros w k es c Hk Hoff Hq Hto Hc. cbv zeta.
    apply map_has_primitive in Hk.
    destruct (queueOf_deliverAll k es w Hlim Hk Hoff Hto) as (Hq1 & Hc1 & _).
    { rewrite Hq. cbn. lia. }
    rewrite Hq in Hq1. cbn [app] in Hq1.
    assert (Hv : valid c (deliverAll es w)) by (unfold valid; now rewrite Hc1).
    destruct (flushQueue_spec k c (deliverAll es w) Hk Hv) as (Hw & _ & Hempty & _).
    rewrite Hw, Hq1, (getConn_same_conns c w _ Hc1). auto. }
  split; [|split; [|split; [exact Hrun|]]].
  - intros w [evs Hreach] k. apply queueOf_bounded; [exact Hlim|].
    eapply run_queuesBounded; [exact Hlim|exact Hreach|].
    intros k0 q0 Hin. inversion Hin.
  - intros w e oldest rest Hk Hoff Hq Hfull.
    rewrite (deliverEnvelope_offline e w Hoff). cbn [snd].
    rewrite queueOf_setQueue by (eapply map_has_primitive; exact Hk).
    rewrite Hq. rewrite length_app. cbn [length app] in *.
    destruct (_ >? _) eqn:E; [reflexivity|].
    rewrite Z.gtb_ltb in E. apply Z.ltb_ge in E. lia.
  - intros H3 w k c e1 e2 e3 e4 e5 Hk Hoff Hq Hto Hc.
    destruct (Hrun w k [e1; e2; e3; e4; e5] c Hk Hoff Hq Hto Hc) as (_ & Hw & _).
    rewrite Hw, H3. reflexivity.
Qed.

End QueueClaims.

(** C2, witness: under the example configuration, whose limit is 3, five
    envelopes for the absent server leave the last three for its
    connection. *)
Lemma queue_bounded_drop_oldest_witness :
  0 <= queueLimit (Config := exampleConfig) /\
  written (getConn 0
    (flushQueue (VStr "openclaw-server") 0
       (deliverAll (config := exampleConfig)
          [exampleEnvelope 1; exampleEnvelope 2; exampleEnvelope 3;
           exampleEnvelope 4; exampleEnvelope 5]
          (stateAfter [Connect]))).2) =
  [FMessage (exampleEnvelope 3); FMessage (exampleEnvelope 4);
   FMessage (exampleEnvelope 5)].
Proof.
  assert (Hlim : 0 <= queueLimit (Config := exampleConfig)) by (cbn; lia).
  split; [exact Hlim|].
  apply (proj2 (proj2 (proj2
           (queue_bounded_drop_oldest (rt := exampleRuntime) (config := exampleConfig) Hlim)))
           eq_refl (stateAfter [Connect]) (VStr "openclaw-server") 0%nat).
  - reflexivity.
  - reflexivity.
  - reflexivity.
  - repeat constructor.
  - unfold valid. cbn. lia.
Defined.

(** The scenario run through the event loop: the agent authenticates and
    sends five envelopes to the absent server; the server then connects and
    authenticates, and gets [auth_ok] with three queued, followed by the
    last three envelopes in the order they were sent. *)
Example overflow_scenario_run :
  map (fun f => match f with
                | FMessage e => env_payload e
                | FAuthOk _ n _ => VNum (Z.of_nat n)
                | _ => VUndef
                end)
    (written (getConn 1
       (stateAfter (agentOnline ++
          map (fun n => Data 0 (wire (sendFrame "openclaw-server" n))) [1; 2; 3; 4; 5] ++
          [Connect; Data 1 (wire (authFrame "openclaw-server" "server-key!"))]))))
  = [VNum 3; VNum 3; VNum 4; VNum 5].
Proof. vm_compute. reflexivity. Qed.
(** ** Send validation *)

Lemma includes_elem_of (xs : list value) (v : value) :
  includes xs v = true -> v ∈ xs.
Proof.
  unfold includes. intros H. apply existsb_exists in H as (x & Hin & Hx).
  apply sameValueZero_eq in Hx. subst x. now apply list_elem_of_In.
Qed.

Lemma includes_str (xs : list value) (s : string) :
  includes xs (VStr s) = true <-> VStr s ∈ xs.
Proof.
  split; [apply includes_elem_of|].
  intros Hin. apply existsb_exists. exists (VStr s).
  split; [now apply list_elem_of_In|apply sameValueZero_str].
Qed.

Lemma map_has_set {V} (k k' : value) (v : V) (m : list (value * V)) :
  map_has k (map_set k' v m) = map_has k m || sameValueZero k' k.
Proof.
  unfold map_has. destruct (sameValueZero k' k) eqn:E.
  - pose proof (sameValueZero_eq _ _ E) as ->.
    rewrite map_get_set_same by exact E. now rewrite orb_true_r.
  - rewrite map_get_set_ne by exact E. now rewrite orb_false_r.
Qed.

Section SendFacts.
Context {rt : Runtime} {config : Config}.

Lemma map_has_clientsById (k : value) :
  map_has k clientsById = true <->
  exists cd, cd ∈ clients /\ sameValueZero (client_id cd) k = true.
Proof.
  unfold clientsById.
  assert (H : forall cs m,
    map_has k (foldl (fun m c => map_set (client_id c) c m) m cs) = true <->
    map_has k m = true \/ exists cd, cd ∈ cs /\ sameValueZero (client_id cd) k = true).
  { induction cs as [|c cs IH]; intros m; cbn [foldl].
    - split; [auto|]. intros [H|(cd & Hin & _)]; [exact H|inversion Hin].
    - rewrite IH, map_has_set, orb_true_iff. split.
      + intros [[H|H]|(cd & Hin & Hcd)]; eauto.
        * right. exists c. split; [left|exact H].
        * right. exists cd. split; [now right|exact Hcd].
      + intros [H|(cd & Hin & Hcd)]; [auto|].
        apply elem_of_cons in Hin as [->|Hin]; eauto. }
  rewrite H. split; [|auto]. intros [Hm|Hex]; [discriminate|exact Hex].
Qed.

Lemma registeredClient_str (s : string) :
  map_has (VStr s) clientsById = true <-> registeredClient (VStr s).
Proof.
  rewrite map_has_clientsById. split; intros (cd & Hin & Hcd); exists cd; split; auto.
  - now apply sameValueZero_eq.
  - rewrite Hcd. apply sameValueZero_str.
Qed.

Lemma canRoute_permits (from : value) (to : string) (sender : clientDef) :
  map_get from clientsById = Some sender ->
  canRoute from (VStr to) = true <-> allowlistPermits sender (VStr to).
Proof.
  intros Hget. unfold canRoute, allowlistPermits. rewrite Hget.
  rewrite <- !includes_str.
  destruct (includes (canSendTo sender) (VStr "*")); intuition congruence.
Qed.

Lemma nonEmptyString_check (to : value) :
  negb (truthy to) || negb (isString to) = false <-> nonEmptyString to.
Proof.
  unfold nonEmptyString. destruct to; cbn; try (split; [discriminate|]);
    try (intros (s0 & [=] & _); fail).
  - destruct b; split; try discriminate; intros (s0 & [=] & _).
  - destruct (n =? 0); split; try discriminate; intros (s0 & [=] & _).
  - rewrite orb_false_r, negb_false_iff, negb_true_iff. split.
    + intros H. exists s. split; [reflexivity|]. now apply String.eqb_neq.
    + intros (s0 & [= <-] & Hne). now apply String.eqb_neq.
Qed.

Lemma authed_valid (c : nat) (w : world) : authed (getConn c w) = true -> valid c w.
Proof.
  unfold getConn, valid. intros H.
  destruct (conns w !! c) eqn:E; [eapply lookup_lt_Some; eassumption|discriminate].
Qed.

Lemma last_written_sendJson (c : nat) (f : frame) (w : world) :
  valid c w -> last (written (getConn c (sendJson c f w))) = Some f.
Proof. intros Hc. rewrite written_sendJson_same by exact Hc. apply last_snoc. Qed.

(** A refused [send] is not a routed one: the last frame on the sender's
    socket is the error, not the acknowledgement. *)
Lemma rejectsSend_not_routesSend (code : string) (c : nat) (msg : value) (w w' : world) :
  valid c w -> rejectsSend code c w w' -> ~ routesSend c msg w w'.
Proof.
  intros Hc Hrej (e & w1 & _ & _ & Hcs & _ & _ & Hw').
  unfold rejectsSend in Hrej. subst w'.
  assert (Hlast : last (written (getConn c (sendJson c (FError code) w))) =
                  Some (FError code)) by now apply last_written_sendJson.
  rewrite Hw', last_written_sendJson in Hlast; [discriminate|].
  unfold valid in *. destruct (benign_deliverEnvelope e w1) as [(Hl & _) _].
  rewrite Hl, Hcs. exact Hc.
Qed.

(** What [handleSend] does once the three checks have passed. *)
Lemma handleSend_routes (c : nat) (msg : value) (w : world) :
  negb (truthy (field msg "to")) || negb (isString (field msg "to")) = false ->
  map_has (field msg "to") clientsById = true ->
  canRoute (clientId (getConn c w)) (field msg "to") = true ->
  routesSend c msg w (handleSend c msg w).
Proof.
  intros H1 H2 H3. unfold handleSend. rewrite H1, H2, H3. cbn [negb].
  unfold routesSend.
  destruct (truthy (field msg "id")).
  - destruct (nowIso w) as [ts w2] eqn:Hnow.
    destruct (deliverEnvelope _ w2) as [r w3] eqn:Hdel.
    eexists _, w2. rewrite Hdel. cbn [fst snd].
    unfold nowIso in Hnow. injection Hnow as <- <-. repeat split.
  - destruct (randomId "m" w) as [rid w1] eqn:Hrand.
    destruct (nowIso w1) as [ts w2] eqn:Hnow.
    destruct (deliverEnvelope _ w2) as [r w3] eqn:Hdel.
    eexists _, w2. rewrite Hdel. cbn [fst snd].
    unfold nowIso in Hnow. injection Hnow as <- <-.
    unfold randomId in Hrand. injection Hrand as <- <-. repeat split.
Qed.

(** C3: a [send] on an authenticated connection is routed if and only if
    [to] is a non-empty string, names a registered client, and the
    sender's allowlist contains it or the wildcard.  Otherwise the only
    effect is one [error] frame on the sender's socket, with code
    [missing_to], [unknown_target] or [route_not_allowed] for the first
    check that fails; no queue and no other socket changes.  With the
    wildcard in the allowlist every registered client is a permitted
    destination, the sender itself included. *)
Theorem send_routed_iff_accepted (c : nat) (msg : value) (w : world) :
  reachable w ->
  authed (getConn c w) = true ->
  let to := field msg "to" in
  let w' := handleSend c msg w in
  exists sender,
    map_get (clientId (getConn c w)) clientsById = Some sender /\
    client_id sender = clientId (getConn c w) /\
    (forall line,
       line <> "" -> byteLength line <= maxMessageBytes ->
       JSON_parse line = Some msg -> isStr (field msg "action") "send" = true ->
       handleFrame c line w = Ok (Continue, w')) /\
    (routesSend c msg w w' <-> sendAccepted sender to) /\
    (~ nonEmptyString to -> rejectsSend "missing_to" c w w') /\
    (nonEmptyString to -> ~ registeredClient to ->
       rejectsSend "unknown_target" c w w') /\
    (nonEmptyString to -> registeredClient to -> ~ allowlistPermits sender to ->
       rejectsSend "route_not_allowed" c w w') /\
    (~ sendAccepted sender to ->
       pendingQueues w' = pendingQueues w /\
       (forall c', c' <> c -> getConn c' w' = getConn c' w) /\
       exists code, written (getConn c w') = written (getConn c w) ++ [FError code]) /\
    (VStr "*" ∈ canSendTo sender ->
       forall target, nonEmptyString target -> registeredClient target ->
         sendAccepted sender target).
Proof.
  intros Hreach Hauth. cbv zeta.
  pose proof (authed_valid c w Hauth) as Hc.
  destruct (reachable_wf w Hreach) as [_ Hreg].
  destruct (Hreg c Hauth) as (sender & Hget & Hid).
  exists sender. split; [exact Hget|]. split; [exact Hid|].
  remember (field msg "to") as to eqn:Hto.
  assert (Hstr : forall s, to = VStr s ->
            (map_has to clientsById = true <-> registeredClient to) /\
            (canRoute (clientId (getConn c w)) to = true <-> allowlistPermits sender to)).
  { intros s ->. split; [apply registeredClient_str|now apply canRoute_permits]. }
  assert (Hcases :
    (~ nonEmptyString to /\ rejectsSend "missing_to" c w (handleSend c msg w)) \/
    (nonEmptyString to /\ ~ registeredClient to /\
     rejectsSend "unknown_target" c w (handleSend c msg w)) \/
    (nonEmptyString to /\ registeredClient to /\ ~ allowlistPermits sender to /\
     rejectsSend "route_not_allowed" c w (handleSend c msg w)) \/
    (sendAccepted sender to /\ routesSend c msg w (handleSend c msg w))).
  { destruct (negb (truthy to) || negb (isString to)) eqn:E1.
    { left. split.
      - intros Hs. apply nonEmptyString_check in Hs. congruence.
      - unfold handleSend. now rewrite <- Hto, E1. }
    right. pose proof (proj1 (nonEmptyString_check to) E1) as Hs.
    destruct Hs as (s & Hs & Hne). destruct (Hstr s Hs) as [Hreg' Hperm].
    assert (Hs' : nonEmptyString to) by now exists s.
    destruct (map_has to clientsById) eqn:E2.
    2:{ left. split; [exact Hs'|]. split.
        - intros Hr. apply Hreg' in Hr. discriminate.
        - unfold handleSend. now rewrite <- Hto, E1, E2. }
    right. pose proof (proj1 Hreg' eq_refl) as Hr.
    destruct (canRoute (clientId (getConn c w)) to) eqn:E3.
    2:{ left. split; [exact Hs'|]. split; [exact Hr|]. split.
        - intros Hp. apply Hperm in Hp. discriminate.
        - unfold handleSend. now rewrite <- Hto, E1, E2, E3. }
    right. split.
    - split; [exact Hs'|]. split; [exact Hr|]. now apply Hperm.
    - apply handleSend_routes; rewrite <- Hto; assumption. }
  split; [|split; [|split; [|split; [|split; [|split]]]]].
  - intros line Hne Hlen Hparse Hsend. unfold handleFrame, dispatch, parseJsonOrNull.
    apply String.eqb_neq in Hne. rewrite Hne, Hparse.
    replace (byteLength line >? maxMessageBytes) with false
      by (symmetry; rewrite Z.gtb_ltb; apply Z.ltb_ge; exact Hlen).
    destruct msg; try discriminate. cbn [truthy negb]. rewrite Hauth. cbn [negb].
    rewrite Hsend.
    replace (isStr (field (VObj fields) "action") "ping") with false; [reflexivity|].
    destruct (field (VObj fields) "action"); try discriminate.
    cbn in Hsend |- *. apply String.eqb_eq in Hsend. now subst.
  - split.
    + intros Hroute.
      destruct Hcases as [[_ Hrej]|[(_ & _ & Hrej)|[(_ & _ & _ & Hrej)|[Hacc _]]]];
        [exfalso..|exact Hacc];
        (eapply rejectsSend_not_routesSend; [exact Hc|exact Hrej|exact Hroute]).
    + intros (Hs & Hr & Hp).
      destruct Hcases as [[Hno _]|[(_ & Hno & _)|[(_ & _ & Hno & _)|[_ Hroute]]]];
        [contradiction..|exact Hroute].
  - intros Hno.
    destruct Hcases as [[_ Hrej]|[(Hs & _)|[(Hs & _)|[(Hs & _) _]]]];
      [exact Hrej|contradiction..].
  - intros Hs Hno.
    destruct Hcases as [[Hs' _]|[(_ & _ & Hrej)|[(_ & Hr & _)|[(_ & Hr & _) _]]]];
      [contradiction|exact Hrej|contradiction..].
  - intros Hs Hr Hno.
    destruct Hcases as [[Hs' _]|[(_ & Hr' & _)|[(_ & _ & _ & Hrej)|[(_ & _ & Hp) _]]]];
      [contradiction..|exact Hrej|contradiction].
  - intros Hno.
    assert (Hrej : exists code, rejectsSend code c w (handleSend c msg w)).
    { destruct Hcases as [[_ Hrej]|[(_ & _ & Hrej)|[(_ & _ & _ & Hrej)|[Hacc _]]]];
        [eauto..|contradiction]. }
    destruct Hrej as [code Hcode]. unfold rejectsSend in Hcode.
    rewrite Hcode. split; [reflexivity|]. split.
    + intros c' Hne. unfold sendJson. now apply getConn_updConn_ne.
    + exists code. now apply written_sendJson_same.
  - intros Hstar target Hs Hr. repeat split; auto. now right.
Qed.

End SendFacts.
(** C3, witness: the agent, whose allowlist is the server alone, sends to
    [other-client] and gets [route_not_allowed]. *)
Lemma send_routed_iff_accepted_witness :
  reachable (rt := exampleRuntime) (config := exampleConfig) (stateAfter agentOnline) /\
  authed (getConn 0 (stateAfter agentOnline)) = true /\
  rejectsSend "route_not_allowed" 0 (stateAfter agentOnline)
    (handleSend (rt := exampleRuntime) (config := exampleConfig) 0
       (sendFrame "other-client" 1) (stateAfter agentOnline)).
Proof.
  assert (Hreach : reachable (rt := exampleRuntime) (config := exampleConfig)
                     (stateAfter agentOnline)).
  { apply reachable_stateAfter. vm_compute. reflexivity. }
  assert (Hauth : authed (getConn 0 (stateAfter agentOnline)) = true).
  { vm_compute. reflexivity. }
  split; [exact Hreach|]. split; [exact Hauth|].
  destruct (send_routed_iff_accepted (rt := exampleRuntime) (config := exampleConfig)
              0%nat (sendFrame "other-client" 1) (stateAfter agentOnline) Hreach Hauth)
    as (sender & Hget & _ & _ & _ & _ & _ & Hdeny & _).
  vm_compute in Hget. injection Hget as <-.
  apply Hdeny.
  - exists "other-client". split; [reflexivity|discriminate].
  - exists otherClient. split; [|reflexivity]. cbn. do 2 right. left.
  - intros [H|H]; cbn in H.
    + apply list_elem_of_singleton in H. discriminate.
    + apply list_elem_of_singleton in H. discriminate.
Defined.

(** The denial run through the event loop: the agent's socket gets the
    error, nothing is queued for [other-client]. *)
Example acl_denial_run :
  let w := stateAfter (agentOnline ++ [Data 0 (wire (sendFrame "other-client" 1))]) in
  written (getConn 0 w) = [FAuthOk (VStr "agent-client") 0 "t0"; FError "route_not_allowed"] /\
  queueOf (VStr "other-client") w = [].
Proof. vm_compute. split; reflexivity. Qed.
(** ** HTTP control plane *)


Section HttpClaims.
Context {rt : Runtime} {config : Config}.



End HttpClaims.



(** ** Framing *)

Lemma indexOf_lt (a : ascii) (s : string) (i : nat) :
  indexOf a s = Some i -> (i < String.length s)%nat.
Proof.
  revert i. induction s as [|b s IH]; intros i; cbn; [discriminate|].
  destruct (Ascii.eqb b a).
  - intros [= <-]. lia.
  - destruct (indexOf a s) as [j|]; cbn; [|discriminate].
    intros [= <-]. specialize (IH j eq_refl). lia.
Qed.

Lemma length_sliceFrom (n : nat) (s : string) :
  String.length (sliceFrom n s) = (String.length s - n)%nat.
Proof.
  revert s. induction n as [|n IH]; intros [|a s]; cbn; try reflexivity. apply IH.
Qed.

Lemma length_append (s t : string) :
  String.length (s +:+ t) = (String.length s + String.length t)%nat.
Proof.
  induction s as [|a s IH]; [reflexivity|].
  change (String a s +:+ t) with (String a (s +:+ t)).
  cbn [String.length Nat.add]. f_equal. exact IH.
Qed.


Lemma buffer_setBuffer (c : nat) (s : string) (w : world) :
  valid c w -> buffer (getConn c (setBuffer c s w)) = s.
Proof. intros Hc. unfold setBuffer. now rewrite getConn_updConn_same. Qed.

Lemma setBuffer_setBuffer (c : nat) (s t : string) (w : world) :
  setBuffer c t (setBuffer c s w) = setBuffer c t w.
Proof.
  unfold setBuffer, updConn, withConns. cbn. f_equal.
  rewrite list_alter_alter_eq. reflexivity.
Qed.

Lemma buffer_nonempty_valid (c : nat) (w : world) :
  buffer (getConn c w) <> "" -> valid c w.
Proof.
  unfold getConn, valid. intros H.
  destruct (conns w !! c) eqn:E; [eapply lookup_lt_Some; eassumption|now destruct H].
Qed.

Section FramingFacts.
Context {rt : Runtime} {config : Config}.

Lemma sameBuffers_refl (w : world) : sameBuffers w w.
Proof. now intros c. Qed.

Lemma sameBuffers_trans (w1 w2 w3 : world) :
  sameBuffers w1 w2 -> sameBuffers w2 w3 -> sameBuffers w1 w3.
Proof. intros H12 H23 c. now rewrite H23, H12. Qed.

Lemma sameBuffers_same_conns (w w' : world) : conns w' = conns w -> sameBuffers w w'.
Proof. intros H c. now rewrite (getConn_same_conns c w w' H). Qed.

Lemma sameBuffers_sendJson (c : nat) (f : frame) (w : world) : sameBuffers w (sendJson c f w).
Proof. intros c0. unfold sendJson. now apply getConn_updConn_proj. Qed.

Lemma sameBuffers_destroy (c : nat) (w : world) : sameBuffers w (destroy c w).
Proof. intros c0. unfold destroy. now apply getConn_updConn_proj. Qed.

Lemma sameBuffers_fanout (f : frame) (cs : list nat) (w : world) :
  sameBuffers w (foldl (fun w' conn => sendJson conn f w') w cs).
Proof.
  revert w. induction cs as [|c cs IH]; intros w; [apply sameBuffers_refl|].
  cbn [foldl]. eapply sameBuffers_trans; [apply sameBuffers_sendJson|apply IH].
Qed.

Lemma sameBuffers_deliverEnvelope (e : envelope) (w : world) :
  sameBuffers w (deliverEnvelope e w).2.
Proof.
  destruct (decide (connectionsOf (env_to e) w = [])) as [Hoff|Hon].
  - rewrite (deliverEnvelope_offline e w Hoff). cbn [snd].
    apply sameBuffers_same_conns. cbn. apply conns_getQueue.
  - rewrite (deliverEnvelope_online e w Hon). cbn [snd]. apply sameBuffers_fanout.
Qed.

Lemma sameBuffers_flushLoop (k : value) (c : nat) (q : list envelope) (n : nat) (w : world) :
  sameBuffers w (flushLoop k c q n w).2.
Proof.
  revert n w. induction q as [|e q IH]; intros n w; [apply sameBuffers_refl|].
  cbn [flushLoop]. eapply sameBuffers_trans; [|apply IH].
  apply (sameBuffers_trans w (setQueue k q w)); [|apply sameBuffers_sendJson].
  now apply sameBuffers_same_conns.
Qed.

Lemma sameBuffers_flushQueue (k : value) (c : nat) (w : world) :
  sameBuffers w (flushQueue k c w).2.
Proof.
  unfold flushQueue. pose proof (conns_getQueue k w) as H.
  destruct (getQueue k w) as [[|e q] w1]; cbn [snd] in *.
  - now apply sameBuffers_same_conns.
  - apply (sameBuffers_trans w w1); [now apply sameBuffers_same_conns|].
    apply sameBuffers_flushLoop.
Qed.

(** Acting on a frame leaves every parse buffer as it is. *)
Lemma handleFrame_sameBuffers (c : nat) (line : string) (w w' : world) (ctl : control) :
  valid c w -> handleFrame c line w = Ok (ctl, w') -> sameBuffers w w'.
Proof.
  apply (R_handleFrame_plain sameBuffers).
  - apply sameBuffers_refl.
  - apply sameBuffers_trans.
  - apply sameBuffers_sendJson.
  - apply sameBuffers_destroy.
  - intros w0. now apply sameBuffers_same_conns.
  - intros p w0. now apply sameBuffers_same_conns.
  - intros k w0. apply sameBuffers_same_conns, conns_getQueue.
  - apply sameBuffers_deliverEnvelope.
  - apply sameBuffers_flushQueue.
  - intros c0 k cd w0 _ _.
    apply (sameBuffers_trans w0 (setAuthed c0 (client_id cd) w0)).
    + intros c1. unfold setAuthed. now apply getConn_updConn_proj.
    + apply sameBuffers_same_conns, conns_registerConnection.
Qed.

(** The frame loop never runs out of fuel: any fuel above the length of
    the buffer gives the same result. *)
Lemma frameLoop_fuel (n m c : nat) (w : world) :
  (String.length (buffer (getConn c w)) < n)%nat ->
  (String.length (buffer (getConn c w)) < m)%nat ->
  frameLoop n c w = frameLoop m c w.
Proof.
  revert m w. induction n as [|n IH]; intros m w Hn Hm; [lia|].
  destruct m as [|m]; [lia|]. cbn [frameLoop].
  destruct (indexOf LF (buffer (getConn c w))) as [idx|] eqn:Hidx; [|reflexivity].
  assert (Hc : valid c w).
  { apply buffer_nonempty_valid. intros E. rewrite E in Hidx. discriminate. }
  set (w1 := setBuffer c _ w).
  assert (Hc1 : valid c w1).
  { unfold valid, w1, setBuffer. now rewrite length_conns_updConn. }
  destruct (handleFrame c _ w1) as [[[|] w2]|msg] eqn:Hframe; cbn [bind]; try reflexivity.
  pose proof (handleFrame_sameBuffers _ _ _ _ _ Hc1 Hframe c) as Hbuf.
  unfold w1 in Hbuf. rewrite buffer_setBuffer in Hbuf by exact Hc.
  apply indexOf_lt in Hidx.
  apply IH; rewrite Hbuf, length_sliceFrom; lia.
Qed.

End FramingFacts.
Lemma append_assoc (s t u : string) : (s +:+ t) +:+ u = s +:+ (t +:+ u).
Proof.
  induction s as [|a s IH]; [reflexivity|].
  change (String a s +:+ t) with (String a (s +:+ t)).
  change (String a (s +:+ t) +:+ u) with (String a ((s +:+ t) +:+ u)).
  change (String a s +:+ (t +:+ u)) with (String a (s +:+ (t +:+ u))).
  now rewrite IH.
Qed.

Section FrameClaims.
Context {rt : Runtime} {config : Config}.





End FrameClaims.

(** ** Sockets over a run *)

Section RunFacts.
Context {rt : Runtime} {config : Config}.

(** A property that the benign operations, authentication, closing and
    connecting keep is kept by every run. *)
Lemma run_preserves (P : world -> Prop) :
  (forall w w', benign w w' -> P w -> P w') ->
  (forall c k cd w,
     valid c w -> map_get k clientsById = Some cd -> P w ->
     P (registerConnection (client_id cd) c (setAuthed c (client_id cd) w))) ->
  (forall c w, P w -> P (onClose c w)) ->
  (forall w, P w -> P (withConns (conns w ++ [newConn]) w)) ->
  forall evs w w', run evs w = Ok w' -> P w -> P w'.
Proof.
  intros Hben Hauth Hclose Hconn evs w w' Hrun.
  apply (R_run_plain (carries P)) in Hrun; [apply Hrun|..]; clear Hrun.
  - intros w0. split; auto.
  - intros w1 w2 w3 [H12 L12] [H23 L23]. split; [auto|lia].
  - intros c w0 w0' [_ L] Hc. unfold valid in *. lia.
  - intros. apply carries_benign, benign_sendJson. intros _. apply Hben, benign_sendJson.
  - intros. apply carries_benign, benign_setBuffer. intros _. apply Hben, benign_setBuffer.
  - intros. apply carries_benign, benign_destroy. intros _. apply Hben, benign_destroy.
  - intros. apply carries_benign, benign_nowIso. intros _. apply Hben, benign_nowIso.
  - intros. apply carries_benign, benign_randomId. intros _. apply Hben, benign_randomId.
  - intros. apply carries_benign, benign_getQueue. intros _. apply Hben, benign_getQueue.
  - intros. apply carries_benign, benign_deliverEnvelope. intros _.
    apply Hben, benign_deliverEnvelope.
  - intros. apply carries_benign, benign_flushQueue. intros _.
    apply Hben, benign_flushQueue.
  - intros c k cd w0 Hc Hget. split; [now apply (Hauth c k)|].
    rewrite conns_registerConnection. unfold setAuthed.
    rewrite length_conns_updConn. lia.
  - intros c w0. split; [apply Hclose|]. rewrite conns_onClose. lia.
  - intros w0. split; [apply Hconn|]. cbn. rewrite length_app. lia.
Qed.

Lemma getConn_auth (c0 c : nat) (id : value) (w : world) :
  written (getConn c0 (registerConnection id c (setAuthed c id w))) = written (getConn c0 w) /\
  destroyed (getConn c0 (registerConnection id c (setAuthed c id w))) =
    destroyed (getConn c0 w).
Proof.
  rewrite (getConn_same_conns c0 (setAuthed c id w) _) by apply conns_registerConnection.
  unfold setAuthed. split; now apply getConn_updConn_proj.
Qed.


(** What a socket has been sent stays sent: a run only appends. *)
Lemma run_extends (evs : list event) (w w' : world) :
  run evs w = Ok w' -> extends w w'.
Proof.
  intros Hrun c.
  apply (run_preserves
           (fun w0 => exists extra, written (getConn c w0) = written (getConn c w) ++ extra)
           ) with (evs := evs) (w := w).
  - intros w0 w0' (_ & H & _) [x Hx]. destruct (H c) as [y Hy].
    exists (x ++ y). now rewrite Hy, Hx, app_assoc.
  - intros c0 k cd w0 _ _. now rewrite (proj1 (getConn_auth c c0 (client_id cd) w0)).
  - intros c0 w0. now rewrite (getConn_same_conns c w0 _ (conns_onClose c0 w0)).
  - intros w0. now rewrite getConn_connect.
  - exact Hrun.
  - exists []. now rewrite app_nil_r.
Qed.

Lemma live_valid (c : nat) (w : world) : live c w = true -> valid c w.
Proof.
  unfold live, valid. destruct (conns w !! c) eqn:E; [|discriminate].
  intros _. eapply lookup_lt_Some; eassumption.
Qed.

Lemma live_destroyed (c : nat) (w : world) :
  live c w = true <-> valid c w /\ destroyed (getConn c w) = false.
Proof.
  unfold live, valid, getConn. destruct (conns w !! c) eqn:E; cbn.
  - rewrite negb_true_iff. split; [|tauto]. intros H. split; [|exact H].
    eapply lookup_lt_Some; eassumption.
  - split; [discriminate|]. intros [H _]. apply lookup_ge_None in E. lia.
Qed.


End RunFacts.



Section AuthClaims.
Context {rt : Runtime} {config : Config}.

Lemma connectionsOf_registerConnection (k : value) (c : nat) (w : world) :
  sameValueZero k k = true -> c ∈ connectionsOf k (registerConnection k c w).
Proof.
  intros Hk. unfold connectionsOf, registerConnection. cbn.
  rewrite map_get_set_same by exact Hk. cbn. apply elem_of_set_add. now left.
Qed.

(** C6: a successful [auth] drains the queue first.  When an [auth]
    frame with the right key arrives on an unauthenticated connection, the
    connection is registered, and its socket gets [auth_ok] with the queue
    depth followed by a [message] frame for every envelope that was in the
    recipient's queue, oldest first; the queue is left empty.  Whatever
    happens afterwards only appends to what the socket has been sent, so
    every envelope routed to the recipient later comes after the drained
    ones. *)
Theorem auth_drains_queue_first (c : nat) (msg : value) (w : world) (client : clientDef) :
  valid c w ->
  isStr (field msg "action") "auth" = true ->
  map_get (field msg "clientId") clientsById = Some client ->
  safeCompareHash (js_or (field msg "apiKey") (VStr "")) (keySha256 client) = Ok true ->
  let id := client_id client in
  let queue := queueOf id w in
  exists w',
    handleUnauthed c msg w = Ok (Continue, w') /\
    authed (getConn c w') = true /\
    clientId (getConn c w') = id /\
    c ∈ connectionsOf id w' /\
    written (getConn c w') =
      written (getConn c w) ++
      FAuthOk id (length queue) (clock (clockCalls w)) :: map FMessage queue /\
    queueOf id w' = [] /\
    forall evs w'',
      run evs w' = Ok w'' ->
      exists later, written (getConn c w'') = written (getConn c w') ++ later.
Proof.
  intros Hc Hact Hget Hkey. cbv zeta. unfold handleUnauthed.
  rewrite Hact, Hget, Hkey. cbn [negb bind].
  destruct (clientsById_get _ _ Hget) as [Hid _].
  assert (Hk : sameValueZero (client_id client) (client_id client) = true).
  { eapply map_has_primitive. apply map_has_get. rewrite Hid. eauto. }
  set (id := client_id client) in *.
  set (w1 := setAuthed c id w). set (w2 := registerConnection id c w1).
  assert (Hconn2 : getConn c w2 =
                   {| written := written (getConn c w); destroyed := destroyed (getConn c w);
                      buffer := buffer (getConn c w); authed := true; clientId := id |}).
  { unfold w2. rewrite (getConn_same_conns c w1 _) by apply conns_registerConnection.
    unfold w1, setAuthed. now rewrite getConn_updConn_same. }
  assert (Hq2 : queueOf id w2 = queueOf id w).
  { unfold w2, registerConnection, w1. now destruct (negb _). }
  assert (Hclock2 : clockCalls w2 = clockCalls w).
  { unfold w2, registerConnection, w1. now destruct (negb _). }
  assert (Hin2 : c ∈ connectionsOf id w2) by now apply connectionsOf_registerConnection.
  pose proof (getQueue_fst id w2) as Hq3. pose proof (queueOf_getQueue id w2) as Hq3'.
  pose proof (conns_getQueue id w2) as Hc3.
  pose proof (benign_getQueue id w2) as Hb3.
  assert (Hclock3 : clockCalls (getQueue id w2).2 = clockCalls w2).
  { unfold getQueue. cbn. now destruct (negb _). }
  destruct (getQueue id w2) as [queue w3]. cbn [fst snd] in *. subst queue.
  cbn [nowIso].
  set (w4 := {| conns := conns w3; activeConnections := activeConnections w3;
                pendingQueues := pendingQueues w3; clockCalls := S (clockCalls w3);
                randomCalls := randomCalls w3 |}).
  set (w5 := sendJson c _ w4).
  assert (Hc4 : valid c w4).
  { unfold valid. cbn. rewrite Hc3. unfold w2. rewrite conns_registerConnection.
    unfold w1, setAuthed. now rewrite length_conns_updConn. }
  assert (Hc5 : valid c w5).
  { unfold valid, w5, sendJson. now rewrite length_conns_updConn. }
  destruct (flushQueue_spec id c w5 Hk Hc5) as (Hw & _ & Hempty & _).
  pose proof (benign_flushQueue id c w5) as Hb6.
  destruct (flushQueue id c w5) as [n w6]. cbn [snd] in *.
  exists w6. split; [reflexivity|].
  assert (Hg4 : getConn c w4 = getConn c w2).
  { transitivity (getConn c w3); [reflexivity|now apply getConn_same_conns]. }
  assert (Hcore : sameCore w2 w6).
  { eapply sameCore_trans; [apply Hb3|].
    eapply sameCore_trans; [|apply Hb6].
    apply (sameCore_trans w3 w4); [now apply benign_same_conns|].
    apply benign_sendJson. }
  destruct Hcore as (_ & Hauth & Hact6).
  split; [now rewrite (proj1 (Hauth c)), Hconn2|].
  split; [now rewrite (proj2 (Hauth c)), Hconn2|].
  split; [unfold connectionsOf in *; now rewrite Hact6|].
  split; [|split; [exact Hempty|]].
  - rewrite Hw. unfold w5. rewrite written_sendJson_same by exact Hc4.
    rewrite Hg4, Hconn2. cbn [written].
    change (queueOf id (sendJson c _ w4)) with (queueOf id w3).
    rewrite Hq3', Hq2, Hclock3, Hclock2, <- app_assoc. reflexivity.
  - intros evs w'' Hrun. apply (run_extends evs w6 w'' Hrun c).
Qed.

End AuthClaims.

(** C6, witness: the server authenticates after two envelopes were queued
    for it. *)
Lemma auth_drains_queue_first_witness :
  let w := stateAfter (agentOnline ++
             [Data 0 (wire (sendFrame "openclaw-server" 1));
              Data 0 (wire (sendFrame "openclaw-server" 2)); Connect]) in
  valid 1 w /\
  exists w',
    handleUnauthed (rt := exampleRuntime) (config := exampleConfig) 1
      (authFrame "openclaw-server" "server-key!") w = Ok (Continue, w') /\
    map (fun f => match f with FMessage e => env_payload e | _ => VUndef end)
        (written (getConn 1 w')) = [VUndef; VNum 1; VNum 2].
Proof.
  cbv zeta.
  set (w := stateAfter _).
  assert (Hc : valid 1 w) by (unfold valid; vm_compute; lia).
  split; [exact Hc|].
  destruct (auth_drains_queue_first (rt := exampleRuntime) (config := exampleConfig)
              1%nat (authFrame "openclaw-server" "server-key!") w serverClient Hc)
    as (w' & Hrun & _ & _ & _ & Hw & _).
  - reflexivity.
  - reflexivity.
  - vm_compute. reflexivity.
  - exists w'. split; [exact Hrun|]. rewrite Hw. vm_compute. reflexivity.
Defined.
(** ** Where envelopes come from *)

Section OriginFacts.
Context {rt : Runtime} {config : Config}.

Lemma noNewEnvelopes_refl (w : world) : noNewEnvelopes w w.
Proof. now intros e. Qed.

Lemma noNewEnvelopes_trans (w1 w2 w3 : world) :
  noNewEnvelopes w1 w2 -> noNewEnvelopes w2 w3 -> noNewEnvelopes w1 w3.
Proof. intros H12 H23 e H. auto. Qed.

Lemma noNewEnvelopes_same (w w' : world) :
  conns w' = conns w -> pendingQueues w' = pendingQueues w -> noNewEnvelopes w w'.
Proof. intros Hc Hq e. unfold carried, getConn. now rewrite Hc, Hq. Qed.

Lemma noNewEnvelopes_updConn (c : nat) (f : connState -> connState) (w : world) :
  (forall cs, written (f cs) = written cs) -> noNewEnvelopes w (updConn c f w).
Proof.
  intros Hf e [[c0 H]|H]; [left|right; exact H].
  exists c0. now rewrite getConn_updConn_proj in H.
Qed.

Lemma carried_sendJson (c : nat) (f : frame) (w : world) (e : envelope) :
  carried (sendJson c f w) e -> carried w e \/ f = FMessage e.
Proof.
  intros [[c0 H]|H]; [|left; right; exact H].
  unfold sendJson in H.
  destruct (getConn_updConn_cases c0 c
              (fun cs => {| written := written cs ++ [f]; destroyed := destroyed cs;
                            buffer := buffer cs; authed := authed cs;
                            clientId := clientId cs |}) w) as [E|E];
    rewrite E in H.
  - left. left. now exists c0.
  - cbn in H. apply elem_of_app in H as [H|H].
    + left. left. now exists c0.
    + apply list_elem_of_singleton in H. now right.
Qed.

Lemma noNewEnvelopes_sendJson (c : nat) (f : frame) (w : world) :
  notMessage f -> noNewEnvelopes w (sendJson c f w).
Proof.
  intros Hf e H. apply carried_sendJson in H as [H|H]; [exact H|].
  now destruct (Hf e).
Qed.

Lemma queueOf_carried (k : value) (w : world) (e : envelope) :
  e ∈ queueOf k w -> carried w e.
Proof.
  unfold queueOf. destruct (map_get k (pendingQueues w)) as [q|] eqn:E; cbn.
  - intros He. apply map_get_elem_of in E as (k' & Hin & _). right. eauto.
  - intros He. inversion He.
Qed.

Lemma carried_setQueue (k : value) (q : list envelope) (w : world) (e : envelope) :
  carried (setQueue k q w) e -> carried w e \/ e ∈ q.
Proof.
  intros [H|(k0 & q0 & Hin & He)]; [left; left; exact H|].
  cbn in Hin. apply elem_of_map_set in Hin as [Hin|[_ ->]]; [|now right].
  left. right. eauto.
Qed.

Lemma noNewEnvelopes_getQueue (k : value) (w : world) :
  noNewEnvelopes w (getQueue k w).2.
Proof.
  unfold getQueue. cbn [snd]. destruct (negb _); [|apply noNewEnvelopes_refl].
  intros e H. apply (carried_setQueue k [] w) in H as [H|H]; [exact H|inversion H].
Qed.

Lemma carried_fanout (e0 : envelope) (cs : list nat) (w : world) (e : envelope) :
  carried (foldl (fun w' conn => sendJson conn (FMessage e0) w') w cs) e ->
  carried w e \/ e = e0.
Proof.
  revert w. induction cs as [|c cs IH]; intros w; cbn [foldl]; [auto|].
  intros H. apply IH in H as [H|H]; [|now right].
  apply carried_sendJson in H as [H|H]; [now left|]. right. congruence.
Qed.

(** The router adds the envelope it is given and no other. *)
Lemma carried_deliverEnvelope (e0 : envelope) (w : world) (e : envelope) :
  carried (deliverEnvelope e0 w).2 e -> carried w e \/ e = e0.
Proof.
  destruct (decide (connectionsOf (env_to e0) w = [])) as [Hoff|Hon].
  - rewrite (deliverEnvelope_offline e0 w Hoff). cbn [snd]. intros H.
    apply carried_setQueue in H as [H|H].
    + left. now apply noNewEnvelopes_getQueue in H.
    + assert (H' : e ∈ queueOf (env_to e0) w ++ [e0]).
      { destruct (_ >? _); [|exact H].
        destruct (queueOf (env_to e0) w ++ [e0]); [inversion H|now right]. }
      apply elem_of_app in H' as [H'|H'].
      * left. eapply queueOf_carried; eassumption.
      * apply list_elem_of_singleton in H'. now right.
  - rewrite (deliverEnvelope_online e0 w Hon). cbn [snd]. apply carried_fanout.
Qed.

Lemma carried_flushLoop (k : value) (c : nat) (q : list envelope) (n : nat)
    (w : world) (e : envelope) :
  carried (flushLoop k c q n w).2 e -> carried w e \/ e ∈ q.
Proof.
  revert n w. induction q as [|e0 q IH]; intros n w; cbn [flushLoop]; [auto|].
  intros H. apply IH in H as [H|H]; [|right; now right].
  apply carried_sendJson in H as [H|H].
  - apply carried_setQueue in H as [H|H]; [now left|right; now right].
  - right. injection H as ->. left.
Qed.

Lemma noNewEnvelopes_flushQueue (k : value) (c : nat) (w : world) :
  noNewEnvelopes w (flushQueue k c w).2.
Proof.
  unfold flushQueue. pose proof (getQueue_fst k w) as Hq.
  pose proof (noNewEnvelopes_getQueue k w) as Hn.
  destruct (getQueue k w) as [q w1]. cbn [fst snd] in *. subst q.
  destruct (queueOf k w) as [|e0 q] eqn:E; [exact Hn|].
  intros e H. apply carried_flushLoop in H as [H|H]; [now apply Hn|].
  apply (queueOf_carried k). now rewrite E.
Qed.

Lemma keepsAuth_refl (w : world) : keepsAuth w w.
Proof. now intros c. Qed.

Lemma keepsAuth_trans (w1 w2 w3 : world) :
  keepsAuth w1 w2 -> keepsAuth w2 w3 -> keepsAuth w1 w3.
Proof.
  intros H12 H23 c H. destruct (H12 c H) as [H2 E2]. destruct (H23 c H2) as [H3 E3].
  split; congruence.
Qed.

Lemma keepsAuth_benign (w w' : world) : benign w w' -> keepsAuth w w'.
Proof. intros [(_ & H & _) _] c Hc. destruct (H c) as [-> ->]. auto. Qed.

Lemma keepsAuth_same_conns (w w' : world) : conns w' = conns w -> keepsAuth w w'.
Proof. intros H c. now rewrite (getConn_same_conns c w w' H). Qed.

Lemma keepsAuth_auth (c : nat) (id : value) (w : world) :
  authed (getConn c w) = false ->
  keepsAuth w (registerConnection id c (setAuthed c id w)).
Proof.
  intros Hun c0 H0.
  rewrite (getConn_same_conns c0 (setAuthed c id w) _) by apply conns_registerConnection.
  destruct (decide (c0 = c)) as [->|Hne]; [congruence|].
  unfold setAuthed. rewrite getConn_updConn_ne by exact Hne. auto.
Qed.

Lemma signs_refl (w : world) : signs w w.
Proof. split; [apply keepsAuth_refl|]. split; [intros e; auto|lia]. Qed.

Lemma signs_trans (w1 w2 w3 : world) : signs w1 w2 -> signs w2 w3 -> signs w1 w3.
Proof.
  intros (K12 & S12 & L12) (K23 & S23 & L23).
  split; [eapply keepsAuth_trans; eassumption|]. split; [|lia].
  intros e H. destruct (S23 e H) as [H2|H2]; [|now right].
  destruct (S12 e H2) as [H1|(c & Hc & Hfrom)]; [now left|].
  right. exists c. destruct (K23 c Hc) as [Hc' E]. split; [exact Hc'|congruence].
Qed.

(** A benign step that brings no new envelope signs. *)
Lemma signs_quiet (w w' : world) : benign w w' -> noNewEnvelopes w w' -> signs w w'.
Proof.
  intros Hb Hn. split; [now apply keepsAuth_benign|]. split.
  - intros e H. left. now apply Hn.
  - destruct Hb as [(-> & _) _]. lia.
Qed.

(** Whatever the [send] frame says, the envelopes it
    adds have the connection's client for their sender. *)
Lemma carried_handleSend (c : nat) (msg : value) (w : world) (e : envelope) :
  carried (handleSend c msg w) e -> carried w e \/ env_from e = clientId (getConn c w).
Proof.
  unfold handleSend.
  repeat match goal with
    | |- carried (if ?b then _ else _) _ -> _ =>
        destruct b;
        [intros H; left; revert H; apply noNewEnvelopes_sendJson; intros ?; discriminate|]
    end.
  assert (Hmain : forall id w1,
    noNewEnvelopes w w1 ->
    carried
      (let '(ts, w2) := nowIso w1 in
       let envelope :=
         {| env_id := id; env_from := clientId (getConn c w); env_to := field msg "to";
            env_type := js_or (field msg "type") (VStr "message");
            env_payload := match field msg "payload" with VUndef => VNull | p => p end;
            env_correlationId := js_or (field msg "correlationId") VNull;
            env_ts := ts |} in
       let '(r, w3) := deliverEnvelope envelope w2 in
       sendJson c (FSent (env_id envelope) (deliveredTo r) (queued r) (env_ts envelope)) w3) e ->
    carried w e \/ env_from e = clientId (getConn c w)).
  { intros id w1 H1. cbn [nowIso]. cbv zeta.
    match goal with |- context [deliverEnvelope ?e0 ?w2] =>
      pose proof (carried_deliverEnvelope e0 w2 e) as Hd;
      destruct (deliverEnvelope e0 w2) as [r w3]
    end.
    cbn [snd] in Hd. intros H.
    apply noNewEnvelopes_sendJson in H; [|intros ?; discriminate].
    destruct (Hd H) as [H2|H2]; [left; now apply H1|right; now subst e]. }
  destruct (truthy (field msg "id")).
  - apply Hmain, noNewEnvelopes_refl.
  - cbn [randomId]. apply Hmain. now apply noNewEnvelopes_same.
Qed.

(** On one operator send, the envelope added has [asClient] for its
    sender. *)
Lemma carried_routeAdminSend (body : value) (w w' : world) (r : adminResult)
    (e : envelope) :
  routeAdminSend body w = Ok (r, w') -> carried w' e ->
  carried w e \/ env_from e = field body "asClient".
Proof.
  unfold routeAdminSend.
  destruct (getProp body "asClient") as [asClient|m] eqn:Has; cbn [bind]; [|discriminate].
  assert (Hfield : field body "asClient" = asClient)
    by (destruct body; cbn in *; congruence).
  repeat match goal with
    | |- (if ?b then _ else _) = _ -> _ => destruct b; [intros [= _ <-]; now left|]
    end.
  assert (Hmain : forall id w1,
    noNewEnvelopes w w1 ->
    (let '(ts, w2) := nowIso w1 in
     let envelope :=
       {| env_id := id; env_from := asClient; env_to := field body "to";
          env_type := js_or (field body "type") (VStr "message");
          env_payload := match field body "payload" with VUndef => VNull | p => p end;
          env_correlationId := js_or (field body "correlationId") VNull;
          env_ts := ts |} in
     let '(r0, w3) := deliverEnvelope envelope w2 in
     Ok (AdminOk envelope r0, w3)) = Ok (r, w') ->
    carried w' e -> carried w e \/ env_from e = field body "asClient").
  { intros id w1 H1. cbn [nowIso]. cbv zeta.
    match goal with |- context [deliverEnvelope ?e0 ?w2] =>
      pose proof (carried_deliverEnvelope e0 w2 e) as Hd;
      destruct (deliverEnvelope e0 w2) as [r0 w3]
    end.
    cbn [snd] in Hd. intros [= _ <-] H.
    destruct (Hd H) as [H2|H2]; [left; now apply H1|right; subst e; now rewrite Hfield]. }
  destruct (truthy (field body "id")).
  - apply Hmain, noNewEnvelopes_refl.
  - cbn [randomId]. apply Hmain. now apply noNewEnvelopes_same.
Qed.

End OriginFacts.
Section OriginClaims.
Context {rt : Runtime} {config : Config}.

Lemma benign_handleSend (c : nat) (msg : value) (w : world) : benign w (handleSend c msg w).
Proof.
  apply (R_handleSend benign).
  - apply benign_trans.
  - intros c0 f w0 _. apply benign_sendJson.
  - apply benign_nowIso.
  - apply benign_randomId.
  - apply benign_deliverEnvelope.
Qed.

Lemma benign_length (w w' : world) :
  benign w w' -> (length (conns w) <= length (conns w'))%nat.
Proof. intros [(-> & _) _]. lia. Qed.

Lemma pendingQueues_onClose (c : nat) (w : world) :
  pendingQueues (onClose c w) = pendingQueues w.
Proof.
  unfold onClose. destruct (truthy _); [|reflexivity].
  unfold unregisterConnection. destruct (map_get _ _); [|reflexivity].
  now destruct (set_delete _ _).
Qed.

Lemma signs_auth (c : nat) (id : value) (w : world) :
  authed (getConn c w) = false ->
  signs w (registerConnection id c (setAuthed c id w)).
Proof.
  intros Hun. split; [now apply keepsAuth_auth|]. split.
  - intros e H. left.
    apply (noNewEnvelopes_updConn c
             (fun cs => {| written := written cs; destroyed := destroyed cs;
                           buffer := buffer cs; authed := true; clientId := id |}) w);
      [reflexivity|].
    revert H. apply noNewEnvelopes_same; [apply conns_registerConnection|].
    unfold registerConnection. now destruct (negb _).
  - rewrite conns_registerConnection. unfold setAuthed.
    rewrite length_conns_updConn. lia.
Qed.

Lemma signs_handleSend (c : nat) (msg : value) (w : world) :
  authed (getConn c w) = true -> signs w (handleSend c msg w).
Proof.
  intros Hauth. pose proof (benign_handleSend c msg w) as Hb.
  pose proof (keepsAuth_benign _ _ Hb) as Hk.
  split; [exact Hk|]. split; [|now apply benign_length].
  intros e H. apply carried_handleSend in H as [H|H]; [now left|].
  right. exists c. destruct (Hk c Hauth) as [Ha Hi]. split; [exact Ha|congruence].
Qed.

(** The data handler signs: after it, every new envelope has an
    authenticated connection's client for its sender. *)
Lemma onData_signs (c : nat) (chunk : string) (w w' : world) :
  valid c w -> onData c chunk w = Ok w' -> signs w w'.
Proof.
  apply (R_onData signs).
  - apply signs_refl.
  - apply signs_trans.
  - intros c0 w0 w0' (_ & _ & L) Hc. unfold valid in *. lia.
  - intros c0 f w0 Hf. apply signs_quiet; [apply benign_sendJson|].
    now apply noNewEnvelopes_sendJson.
  - intros c0 s w0. apply signs_quiet; [apply benign_setBuffer|].
    now apply noNewEnvelopes_updConn.
  - intros c0 w0. apply signs_quiet; [apply benign_destroy|].
    now apply noNewEnvelopes_updConn.
  - intros w0. apply signs_quiet; [apply benign_nowIso|].
    now apply noNewEnvelopes_same.
  - intros k w0. apply signs_quiet; [apply benign_getQueue|].
    apply noNewEnvelopes_getQueue.
  - intros k c0 w0. apply signs_quiet; [apply benign_flushQueue|].
    apply noNewEnvelopes_flushQueue.
  - intros c0 msg w0. apply signs_handleSend.
  - intros c0 k cd w0 _ Hun _. now apply signs_auth.
Qed.

Lemma keepsAuth_step (ev : event) (w w' : world) : step ev w = Ok w' -> keepsAuth w w'.
Proof.
  intros Hstep.
  apply (R_step (fun w w' => keepsAuth w w' /\
                             (length (conns w) <= length (conns w'))%nat)) in Hstep;
    [apply Hstep|..]; clear.
  - intros w. split; [apply keepsAuth_refl|lia].
  - intros w1 w2 w3 [K12 L12] [K23 L23]. split; [eapply keepsAuth_trans; eassumption|lia].
  - intros c w w' [_ L] Hc. unfold valid in *. lia.
  - intros c f w _. split; [apply keepsAuth_benign|apply benign_length]; apply benign_sendJson.
  - intros c s w. split; [apply keepsAuth_benign|apply benign_length]; apply benign_setBuffer.
  - intros c w. split; [apply keepsAuth_benign|apply benign_length]; apply benign_destroy.
  - intros w. split; [apply keepsAuth_benign|apply benign_length]; apply benign_nowIso.
  - intros p w. split; [apply keepsAuth_benign|apply benign_length]; apply benign_randomId.
  - intros k w. split; [apply keepsAuth_benign|apply benign_length]; apply benign_getQueue.
  - intros e w. split; [apply keepsAuth_benign|apply benign_length];
      apply benign_deliverEnvelope.
  - intros k c w. split; [apply keepsAuth_benign|apply benign_length];
      apply benign_flushQueue.
  - intros c msg w _. split; [apply keepsAuth_benign|apply benign_length];
      apply benign_handleSend.
  - intros c k cd w _ Hun _. destruct (signs_auth c (client_id cd) w Hun) as (K & _ & L).
    now split.
  - intros c w. split; [apply keepsAuth_same_conns, conns_onClose|].
    rewrite conns_onClose. lia.
  - intros w. split.
    + intros c. now rewrite getConn_connect.
    + cbn. rewrite length_app. lia.
Qed.

Lemma noNewEnvelopes_buildStatus (w : world) : noNewEnvelopes w (buildStatus w).2.
Proof.
  apply (R_buildStatus noNewEnvelopes).
  - apply noNewEnvelopes_refl.
  - apply noNewEnvelopes_trans.
  - intros w0. now apply noNewEnvelopes_same.
  - apply noNewEnvelopes_getQueue.
Qed.

(** What a request adds: at most the envelope of an operator send, whose
    sender is the [asClient] of the body. *)
Lemma carried_httpHandler (req : request) (w w' : world) (resp : response)
    (e : envelope) :
  httpHandler req w = Ok (resp, w') -> carried w' e ->
  carried w e \/
  exists body, parseBody req = Ok body /\ env_from e = field body "asClient".
Proof.
  unfold httpHandler. cbv zeta.
  destruct (String.eqb (pathname req) "/health").
  { cbn [nowIso]. intros [= _ <-] H. left. revert H. now apply noNewEnvelopes_same. }
  repeat match goal with
    | |- (if String.eqb ?a ?b then _ else _) = _ -> _ =>
        destruct (String.eqb a b); [try (intros [= _ <-]; now left)|]
    end.
  { intros [= _ <-]; now left. }
  destruct (negb (startsWith _ _)); [intros [= _ <-]; now left|].
  destruct (isAuthorizedHttp req) as [[|]|m]; cbn [bind negb]; try discriminate.
  2:{ intros [= _ <-]; now left. }
  destruct (_ && _).
  { pose proof (noNewEnvelopes_buildStatus w) as Hn.
    destruct (buildStatus w) as [s w1]. cbn [snd] in Hn.
    intros [= _ <-] H. left. now apply Hn. }
  destruct (_ && _); [|intros [= _ <-]; now left].
  destruct (parseBody req) as [parsed|m]; [|intros [= _ <-]; now left].
  destruct (routeAdminSend parsed w) as [[r w1]|m] eqn:Hsend;
    [|intros [= _ <-]; now left].
  intros Hresp H.
  assert (w' = w1) as -> by (destruct r; now injection Hresp as _ <-).
  apply (carried_routeAdminSend _ _ _ _ e Hsend) in H as [H|H]; [now left|].
  right. now exists parsed.
Qed.

Lemma issued_mono (pre : list event) (ev : event) (w w' : world) (e : envelope) :
  keepsAuth w w' -> issued pre w e -> issued (pre ++ [ev]) w' e.
Proof.
  intros Hk [(c & Hc & Hfrom)|(req & body & Hin & Hb & Hfrom)].
  - left. exists c. destruct (Hk c Hc) as [Hc' E]. split; [exact Hc'|congruence].
  - right. exists req, body. split; [|auto]. apply elem_of_app. now left.
Qed.

Lemma step_issued (pre : list event) (ev : event) (w w' : world) :
  step ev w = Ok w' ->
  (forall e, carried w e -> issued pre w e) ->
  forall e, carried w' e -> issued (pre ++ [ev]) w' e.
Proof.
  intros Hstep Hinv e He.
  pose proof (keepsAuth_step ev w w' Hstep) as Hk.
  assert (Hold : carried w e -> issued (pre ++ [ev]) w' e).
  { intros H. eapply issued_mono; [exact Hk|]. now apply Hinv. }
  destruct ev as [|c chunk|c|req]; cbn [step] in Hstep.
  - injection Hstep as <-. apply Hold. revert He.
    intros [[c0 H]|H]; [left; exists c0; now rewrite getConn_connect in H|now right].
  - destruct (live c w) eqn:Hlive; [|injection Hstep as <-; now apply Hold].
    destruct (onData c chunk w) as [w1|m] eqn:Hdata; cbn [bind] in Hstep; [|discriminate].
    injection Hstep as <-.
    apply onData_signs in Hdata as (_ & Hs & _); [|now apply live_valid].
    assert (He1 : carried w1 e).
    { destruct (destroyed (getConn c w1)); [|exact He].
      revert He. apply noNewEnvelopes_same; [apply conns_onClose|apply pendingQueues_onClose]. }
    destruct (Hs e He1) as [H|(c0 & Hc0 & Hfrom)]; [now apply Hold|].
    left. exists c0.
    assert (Hg : getConn c0 (if destroyed (getConn c w1) then onClose c w1 else w1) =
                 getConn c0 w1).
    { destruct (destroyed (getConn c w1)); [|reflexivity].
      apply getConn_same_conns, conns_onClose. }
    rewrite Hg. auto.
  - destruct (live c w); injection Hstep as <-; [|now apply Hold].
    apply Hold.
    assert (H1 : carried (destroy c w) e).
    { revert He. apply noNewEnvelopes_same; [apply conns_onClose|apply pendingQueues_onClose]. }
    revert H1. now apply noNewEnvelopes_updConn.
  - destruct (httpHandler req w) as [[resp w1]|m] eqn:Hhttp; cbn [bind] in Hstep;
      [|discriminate].
    injection Hstep as <-. cbn [snd] in *.
    destruct (carried_httpHandler req w w1 resp e Hhttp He) as [H|(body & Hb & Hfrom)];
      [now apply Hold|].
    right. exists req, body. split; [|auto]. apply elem_of_app. right. left.
Qed.

Lemma run_issued (evs pre : list event) (w w' : world) :
  run evs w = Ok w' ->
  (forall e, carried w e -> issued pre w e) ->
  forall e, carried w' e -> issued (pre ++ evs) w' e.
Proof.
  revert pre w. induction evs as [|ev evs IH]; intros pre w; cbn [run].
  - intros [= <-] Hinv. now rewrite app_nil_r.
  - destruct (step ev w) as [w1|m] eqn:Hstep; cbn [bind]; [|discriminate].
    intros Hrun Hinv. rewrite (cons_middle ev pre evs), app_assoc.
    apply (IH (pre ++ [ev]) w1 Hrun). now apply (step_issued pre ev w w1).
Qed.

(** C4: the sender of an envelope is never taken from the frame.  In every
    state the daemon reaches, every envelope on a socket or in a queue has
    for its [from] the client some connection is authenticated as, or the
    [asClient] of an operator send among the requests received.  The
    envelopes one [send] frame adds have the issuing connection's client
    for their [from] whatever the frame carries, and those one operator
    send adds have the body's [asClient]. *)
Theorem envelope_from_is_authenticated_sender :
  (forall evs w, run evs initial = Ok w -> forall e, carried w e -> issued evs w e) /\
  (forall c msg w e,
     carried (handleSend c msg w) e ->
     carried w e \/ env_from e = clientId (getConn c w)) /\
  (forall body w r w' e,
     routeAdminSend body w = Ok (r, w') -> carried w' e ->
     carried w e \/ env_from e = field body "asClient").
Proof.
  split; [|split; [apply carried_handleSend|
    intros body w r w' e; apply carried_routeAdminSend]].
  intros evs w Hrun e He.
  apply (run_issued evs [] initial w Hrun); [|exact He].
  intros e0 [[c H]|(k & q & H & _)].
  - unfold getConn in H. cbn in H. rewrite lookup_nil in H. inversion H.
  - inversion H.
Qed.

End OriginClaims.

(** The sender cannot choose the [from]: the agent sends a frame that
    names the server in a [from] field of its own, and the envelope that is
    queued carries the agent's identifier. *)
Example forged_from_ignored :
  map env_from
    (queueOf (VStr "openclaw-server")
       (stateAfter (agentOnline ++
          [Data 0 (wire (VObj [("action", VStr "send"); ("to", VStr "openclaw-server");
                               ("from", VStr "openclaw-server");
                               ("payload", VNum 7)]))])))
  = [VStr "agent-client"].
Proof. vm_compute. reflexivity. Qed.
(** ** One connection's data handler *)

(** What holds of the state while the data handler of connection [c] runs:
    a property kept by each operation the handler performs on [c] is kept
    by the handler. *)
Section ConnClosure.
Context {rt : Runtime} {config : Config}.
Variable c : nat.
Variable P : world -> Prop.
Hypothesis P_valid : forall w, P w -> valid c w.
Hypothesis P_sendJson : forall f w, notMessage f -> P w -> P (sendJson c f w).
Hypothesis P_setBuffer : forall s w, P w -> P (setBuffer c s w).
Hypothesis P_destroy : forall w, P w -> P (destroy c w).
Hypothesis P_nowIso : forall w, P w -> P (nowIso w).2.
Hypothesis P_getQueue : forall k w, P w -> P (getQueue k w).2.
Hypothesis P_flush : forall k w,
  authed (getConn c w) = true -> clientId (getConn c w) = k ->
  P w -> P (flushQueue k c w).2.
Hypothesis P_send : forall msg w,
  authed (getConn c w) = true -> P w -> P (handleSend c msg w).
Hypothesis P_auth : forall k cd w,
  authed (getConn c w) = false -> map_get k clientsById = Some cd ->
  P w -> P (registerConnection (client_id cd) c (setAuthed c (client_id cd) w)).

Local Ltac sent := apply P_sendJson; [intros ?; discriminate|].

Lemma authed_after_auth (id : value) (f : frame) (w : world) :
  valid c w ->
  let w2 := registerConnection id c (setAuthed c id w) in
  let w5 := sendJson c f (nowIso (getQueue id w2).2).2 in
  authed (getConn c w5) = true /\ clientId (getConn c w5) = id.
Proof.
  intros Hc w2 w5.
  assert (H2 : authed (getConn c w2) = true /\ clientId (getConn c w2) = id).
  { unfold w2. rewrite (getConn_same_conns c (setAuthed c id w) _)
      by apply conns_registerConnection.
    unfold setAuthed. rewrite getConn_updConn_same by exact Hc. now split. }
  assert (Hb : benign w2 w5).
  { unfold w5. eapply benign_trans; [apply benign_getQueue|].
    eapply benign_trans; [apply benign_nowIso|]. apply benign_sendJson. }
  destruct Hb as [(_ & Hsame & _) _]. destruct (Hsame c) as [-> ->]. exact H2.
Qed.

Lemma during_handleUnauthed (msg : value) (w w' : world) (ctl : control) :
  authed (getConn c w) = false -> P w ->
  handleUnauthed c msg w = Ok (ctl, w') -> P w'.
Proof.
  intros Hun HP. unfold handleUnauthed.
  destruct (negb _).
  { intros [= _ <-]. now sent. }
  assert (Hrej : P (destroy c (sendJson c FAuthFailed w))).
  { apply P_destroy. now sent. }
  destruct (map_get _ clientsById) as [cd|] eqn:Hget.
  2:{ intros [= _ <-]. exact Hrej. }
  destruct (safeCompareHash _ _) as [[|]|m]; cbn [bind negb]; try discriminate.
  2:{ intros [= _ <-]. exact Hrej. }
  pose proof (P_auth _ cd w Hun Hget HP) as H1.
  pose proof (authed_after_auth (client_id cd)) as Ha.
  set (w2 := registerConnection _ _ _) in *.
  pose proof (P_getQueue (client_id cd) w2 H1) as H3.
  destruct (getQueue (client_id cd) w2) as [q w3] eqn:Hq. cbn [snd] in H3.
  pose proof (P_nowIso w3 H3) as H4.
  destruct (nowIso w3) as [ts w4] eqn:Hts. cbn [snd] in H4.
  set (w5 := sendJson _ _ _).
  assert (H5 : P w5) by (unfold w5; now sent).
  specialize (Ha (FAuthOk (client_id cd) (length q) ts) w (P_valid w HP)).
  cbv zeta in Ha. fold w2 in Ha. rewrite Hq in Ha. cbn [snd] in Ha.
  rewrite Hts in Ha. cbn [snd] in Ha. fold w5 in Ha. destruct Ha as [Ha Hid].
  pose proof (P_flush (client_id cd) w5 Ha Hid H5) as H6.
  destruct (flushQueue (client_id cd) c w5) as [n w6]. cbn [snd] in H6.
  now intros [= _ <-].
Qed.

Lemma during_dispatch (line : string) (w w' : world) (ctl : control) :
  P w -> dispatch c line w = Ok (ctl, w') -> P w'.
Proof.
  intros HP. unfold dispatch.
  destruct (negb (truthy _)); [intros [= _ <-]; now sent|].
  destruct (authed (getConn c w)) eqn:Hauth; cbn [negb];
    [|now apply during_handleUnauthed].
  destruct (isStr _ "ping").
  { pose proof (P_nowIso w HP) as H1. destruct (nowIso w) as [ts w1]. cbn [snd] in H1.
    intros [= _ <-]. now sent. }
  destruct (isStr _ "send"); [intros [= _ <-]; now apply P_send|].
  destruct (isStr _ "whoami"); [|intros [= _ <-]; now sent].
  destruct (map_get _ clientsById); [|discriminate].
  pose proof (P_nowIso w HP) as H1. destruct (nowIso w) as [ts w1]. cbn [snd] in H1.
  intros [= _ <-]. now sent.
Qed.

Lemma during_handleFrame (line : string) (w w' : world) (ctl : control) :
  P w -> handleFrame c line w = Ok (ctl, w') -> P w'.
Proof.
  intros HP. unfold handleFrame.
  destruct (String.eqb line ""); [now intros [= _ <-]|].
  destruct (_ >? _); [intros [= _ <-]; now sent|].
  now apply during_dispatch.
Qed.

Lemma during_frameLoop (fuel : nat) (w w' : world) :
  P w -> frameLoop fuel c w = Ok w' -> P w'.
Proof.
  revert w. induction fuel as [|fuel IH]; intros w HP; cbn [frameLoop].
  { now intros [= <-]. }
  destruct (indexOf LF _) as [idx|]; [|now intros [= <-]].
  set (w1 := setBuffer _ _ _).
  assert (H1 : P w1) by now apply P_setBuffer.
  destruct (handleFrame _ _ w1) as [[ctl w2]|m] eqn:Hframe; cbn [bind]; [|discriminate].
  apply during_handleFrame in Hframe; [|exact H1].
  destruct ctl; [now apply IH|now intros [= <-]].
Qed.

Lemma during_onData (chunk : string) (w w' : world) :
  P w -> onData c chunk w = Ok w' -> P w'.
Proof.
  intros HP. unfold onData. set (w1 := setBuffer _ _ _).
  assert (H1 : P w1) by now apply P_setBuffer.
  destruct (_ >? _).
  - intros [= <-]. apply P_destroy. now sent.
  - now apply during_frameLoop.
Qed.

End ConnClosure.

(** ** Envelopes stay with their recipient *)

Section AddressingFacts.
Context {rt : Runtime} {config : Config}.

Lemma connectionsOf_entry (k : value) (c : nat) (w : world) :
  c ∈ connectionsOf k w -> exists set, (k, set) ∈ activeConnections w /\ c ∈ set.
Proof.
  unfold connectionsOf. destruct (map_get k _) as [set|] eqn:E; cbn; [|inversion 1].
  intros Hc. apply map_get_elem_of in E as (k' & Hin & Hk).
  apply sameValueZero_eq in Hk. subst k'. eauto.
Qed.

Lemma queueOf_entry (k : value) (e : envelope) (w : world) :
  e ∈ queueOf k w -> exists q, (k, q) ∈ pendingQueues w /\ e ∈ q.
Proof.
  unfold queueOf. destruct (map_get k _) as [q|] eqn:E; cbn; [|inversion 1].
  intros He. apply map_get_elem_of in E as (k' & Hin & Hk).
  apply sameValueZero_eq in Hk. subst k'. eauto.
Qed.

Lemma elem_of_tail {A} (x : A) (l : list A) : x ∈ tail l -> x ∈ l.
Proof. destruct l; cbn; [easy|]. intros H. now right. Qed.

Lemma addressed_same (w w' : world) :
  conns w' = conns w -> activeConnections w' = activeConnections w ->
  pendingQueues w' = pendingQueues w -> addressed w -> addressed w'.
Proof.
  intros Hc Ha Hq (A & Q & M). split; [|split].
  - intros k set c. rewrite Ha, (getConn_same_conns c w w' Hc). apply A.
  - intros k q e. rewrite Hq. apply Q.
  - intros c e. rewrite (getConn_same_conns c w w' Hc). apply M.
Qed.

Lemma addressed_withQueues (qs : list (value * list envelope)) (w : world) :
  (forall k q e, (k, q) ∈ qs -> e ∈ q -> env_to e = k) ->
  addressed w -> addressed (withQueues qs w).
Proof. intros Hq (A & Q & M). split; [exact A|split; [exact Hq|exact M]]. Qed.

Lemma addressed_setQueue (k : value) (q : list envelope) (w : world) :
  (forall e, e ∈ q -> env_to e = k) -> addressed w -> addressed (setQueue k q w).
Proof.
  intros Hq Ha. apply addressed_withQueues; [|exact Ha].
  intros k0 q0 e Hin He. apply elem_of_map_set in Hin as [Hin|[-> ->]].
  - destruct Ha as (_ & Q & _). now apply (Q k0 q0).
  - now apply Hq.
Qed.

Lemma addressed_getQueue (k : value) (w : world) : addressed w -> addressed (getQueue k w).2.
Proof.
  intros Ha. unfold getQueue. cbn [snd]. destruct (negb _); [|exact Ha].
  apply (addressed_setQueue k []); [|exact Ha]. intros e He. inversion He.
Qed.

Lemma addressed_updConn (c : nat) (f : connState -> connState) (w : world) :
  (forall cs, authed (f cs) = authed cs) ->
  (forall cs, clientId (f cs) = clientId cs) ->
  (forall cs e, FMessage e ∈ written (f cs) -> FMessage e ∈ written cs) ->
  addressed w -> addressed (updConn c f w).
Proof.
  intros Hau Hid Hwr (A & Q & M). split; [|split].
  - intros k set c0 Hin Hc0. rewrite !getConn_updConn_proj by assumption.
    now apply (A k set).
  - exact Q.
  - intros c0 e. rewrite (getConn_updConn_proj authed), (getConn_updConn_proj clientId)
      by assumption.
    destruct (getConn_updConn_cases c0 c f w) as [->| ->]; [apply M|].
    intros H. apply M. now apply Hwr.
Qed.

Lemma addressed_sendJson (c : nat) (f : frame) (w : world) :
  notMessage f -> addressed w -> addressed (sendJson c f w).
Proof.
  intros Hf. apply addressed_updConn; try reflexivity.
  intros cs e. cbn. intros H. apply elem_of_app in H as [H|H]; [exact H|].
  apply list_elem_of_singleton in H. symmetry in H. now apply Hf in H.
Qed.

Lemma addressed_sendMessage (c : nat) (e : envelope) (w : world) :
  authed (getConn c w) = true -> clientId (getConn c w) = env_to e ->
  addressed w -> addressed (sendJson c (FMessage e) w).
Proof.
  intros Hau Hid (A & Q & M). split; [|split].
  - intros k set c0 Hin Hc0. unfold sendJson.
    rewrite !getConn_updConn_proj by reflexivity. now apply (A k set).
  - exact Q.
  - intros c0 e0. unfold sendJson.
    rewrite (getConn_updConn_proj authed), (getConn_updConn_proj clientId) by reflexivity.
    destruct (decide (c0 = c)) as [->|Hne].
    + match goal with |- context [updConn c ?f w] =>
        destruct (getConn_updConn_cases c c f w) as [->| ->] end; [apply M|].
      cbn. intros H. apply elem_of_app in H as [H|H]; [now apply M|].
      apply list_elem_of_singleton in H. injection H as ->. now split.
    + rewrite getConn_updConn_ne by exact Hne. apply M.
Qed.

Lemma addressed_fanout (e : envelope) (cs : list nat) (w : world) :
  (forall c, c ∈ cs ->
     authed (getConn c w) = true /\ clientId (getConn c w) = env_to e) ->
  addressed w ->
  addressed (foldl (fun w' conn => sendJson conn (FMessage e) w') w cs).
Proof.
  revert w. induction cs as [|c cs IH]; intros w Hcs Ha; [exact Ha|].
  cbn [foldl]. apply IH.
  - intros c0 Hc0. unfold sendJson. rewrite !getConn_updConn_proj by reflexivity.
    apply Hcs. now right.
  - destruct (Hcs c) as [Hau Hid]; [left|]. now apply addressed_sendMessage.
Qed.

Lemma addressed_deliverEnvelope (e : envelope) (w : world) :
  addressed w -> addressed (deliverEnvelope e w).2.
Proof.
  intros Ha. destruct (connectionsOf (env_to e) w) as [|c0 cs] eqn:E.
  - rewrite deliverEnvelope_offline by exact E. cbn [snd].
    apply addressed_setQueue; [|now apply addressed_getQueue].
    intros e' He'.
    assert (Hin : e' ∈ queueOf (env_to e) w ++ [e]).
    { destruct (_ >? _); [now apply elem_of_tail|exact He']. }
    apply elem_of_app in Hin as [Hin|Hin].
    + apply queueOf_entry in Hin as (q & Hq & Hin). destruct Ha as (_ & Q & _).
      now apply (Q _ q).
    + apply list_elem_of_singleton in Hin. now subst e'.
  - rewrite deliverEnvelope_online by (rewrite E; discriminate). cbn [snd].
    apply addressed_fanout; [|exact Ha]. destruct Ha as (A & _). intros c Hc.
    apply connectionsOf_entry in Hc as (set & Hin & Hc).
    now apply (A _ set).
Qed.

Lemma addressed_flushLoop (k : value) (c : nat) (q : list envelope) (n : nat)
    (w : world) :
  authed (getConn c w) = true -> clientId (getConn c w) = k ->
  (forall e, e ∈ q -> env_to e = k) ->
  addressed w -> addressed (flushLoop k c q n w).2.
Proof.
  revert n w. induction q as [|e q IH]; intros n w Hau Hid Hq Ha; [exact Ha|].
  cbn [flushLoop]. apply IH.
  - unfold sendJson. now rewrite getConn_updConn_proj by reflexivity.
  - unfold sendJson. now rewrite getConn_updConn_proj by reflexivity.
  - intros e0 He0. apply Hq. now right.
  - apply addressed_sendMessage; [exact Hau| |].
    + change (clientId (getConn c w) = env_to e). rewrite Hid. symmetry. apply Hq. left.
    + apply addressed_setQueue; [|exact Ha]. intros e0 He0. apply Hq. now right.
Qed.

Lemma addressed_flushQueue (k : value) (c : nat) (w : world) :
  authed (getConn c w) = true -> clientId (getConn c w) = k ->
  addressed w -> addressed (flushQueue k c w).2.
Proof.
  intros Hau Hid Ha. unfold flushQueue.
  pose proof (getQueue_fst k w) as Hfst. pose proof (conns_getQueue k w) as Hconns.
  pose proof (addressed_getQueue k w Ha) as Ha1.
  destruct (getQueue k w) as [queue w1]. cbn [fst snd] in *.
  destruct queue as [|e queue]; [exact Ha1|].
  apply addressed_flushLoop; [| | |exact Ha1].
  - now rewrite (getConn_same_conns c w w1 Hconns).
  - now rewrite (getConn_same_conns c w w1 Hconns).
  - intros e0 He0. rewrite Hfst in He0.
    apply queueOf_entry in He0 as (q & Hq & He0). destruct Ha as (_ & Q & _).
    now apply (Q _ q).
Qed.

Lemma addressed_nowIso (w : world) : addressed w -> addressed (nowIso w).2.
Proof. now apply addressed_same. Qed.

Lemma addressed_randomId (p : string) (w : world) : addressed w -> addressed (randomId p w).2.
Proof. now apply addressed_same. Qed.

Lemma addressed_handleSend (c : nat) (msg : value) (w : world) :
  addressed w -> addressed (handleSend c msg w).
Proof.
  apply (R_handleSend (fun w w' => addressed w -> addressed w')).
  - auto.
  - intros c0 f w0 Hf. now apply addressed_sendJson.
  - apply addressed_nowIso.
  - apply addressed_randomId.
  - apply addressed_deliverEnvelope.
Qed.

Lemma addressed_auth (c : nat) (k : value) (cd : clientDef) (w : world) :
  valid c w -> authed (getConn c w) = false -> addressed w ->
  addressed (registerConnection (client_id cd) c (setAuthed c (client_id cd) w)).
Proof.
  intros Hc Hun (A & Q & M).
  set (id := client_id cd). set (w1 := setAuthed c id w).
  assert (Hget : forall c0, getConn c0 (registerConnection id c w1) = getConn c0 w1).
  { intros c0. apply getConn_same_conns, conns_registerConnection. }
  assert (Hself : authed (getConn c w1) = true /\ clientId (getConn c w1) = id).
  { unfold w1, setAuthed. rewrite getConn_updConn_same by exact Hc. now split. }
  assert (Hother : forall c0, authed (getConn c0 w) = true -> getConn c0 w1 = getConn c0 w).
  { intros c0 H0. unfold w1, setAuthed. apply getConn_updConn_ne. congruence. }
  assert (Hold : forall k0 set c0, (k0, set) ∈ activeConnections w -> c0 ∈ set ->
            authed (getConn c0 w1) = true /\ clientId (getConn c0 w1) = k0).
  { intros k0 set c0 Hin Hc0. destruct (A k0 set c0 Hin Hc0) as [Hau Hid].
    now rewrite (Hother c0 Hau). }
  split; [|split].
  - intros k0 set c0 Hin Hc0. rewrite Hget.
    unfold registerConnection in Hin. cbn in Hin.
    assert (Hbase : forall k1 s1 c1,
              (k1, s1) ∈ activeConnections
                 (if negb (map_has id (activeConnections w1))
                  then withActive (map_set id [] (activeConnections w1)) w1
                  else w1) -> c1 ∈ s1 ->
              authed (getConn c1 w1) = true /\ clientId (getConn c1 w1) = k1).
    { intros k1 s1 c1 H1 Hc1. destruct (negb _); cbn in H1.
      - apply elem_of_map_set in H1 as [H1|[_ ->]]; [now apply (Hold k1 s1)|inversion Hc1].
      - now apply (Hold k1 s1). }
    apply elem_of_map_set in Hin as [Hin|[-> ->]]; [now apply (Hbase k0 set)|].
    apply elem_of_set_add in Hc0 as [->|Hc0]; [exact Hself|].
    match type of Hc0 with
    | _ ∈ default [] (map_get id ?m) => destruct (map_get id m) as [s|] eqn:Hs
    end; cbn in Hc0; [|inversion Hc0].
    apply map_get_elem_of in Hs as (k' & Hs & Hk'). apply sameValueZero_eq in Hk'.
    subst k'. now apply (Hbase id s).
  - intros k0 q e. unfold registerConnection. destruct (negb _); apply Q.
  - intros c0 e. rewrite Hget. destruct (decide (c0 = c)) as [->|Hne].
    + unfold w1, setAuthed. rewrite getConn_updConn_same by exact Hc. cbn.
      intros H. apply M in H as [H _]. congruence.
    + unfold w1, setAuthed. rewrite getConn_updConn_ne by exact Hne. apply M.
Qed.

Lemma addressed_onClose (c : nat) (w : world) : addressed w -> addressed (onClose c w).
Proof.
  intros (A & Q & M).
  assert (Hget : forall c0, getConn c0 (onClose c w) = getConn c0 w).
  { intros c0. apply getConn_same_conns, conns_onClose. }
  split; [|split].
  - intros k set c0 Hin Hc0. rewrite Hget. unfold onClose in Hin.
    destruct (truthy _); [|now apply (A k set)].
    unfold unregisterConnection in Hin.
    destruct (map_get _ _) as [s|] eqn:Hs; [|now apply (A k set)].
    apply map_get_elem_of in Hs as (k' & Hs & Hk'). apply sameValueZero_eq in Hk'.
    subst k'.
    destruct (set_delete c s) eqn:E; cbn in Hin.
    + apply elem_of_map_delete in Hin. now apply (A k set).
    + apply elem_of_map_set in Hin as [Hin|[-> ->]]; [now apply (A k set)|].
      rewrite <- E in Hc0. apply list_elem_of_filter in Hc0 as [_ Hc0].
      now apply (A _ s).
  - intros k q e. rewrite pendingQueues_onClose. apply Q.
  - intros c0 e. rewrite Hget. apply M.
Qed.

Lemma addressed_connect (w : world) :
  addressed w -> addressed (withConns (conns w ++ [newConn]) w).
Proof.
  intros (A & Q & M). split; [|split].
  - intros k set c. rewrite getConn_connect. apply A.
  - exact Q.
  - intros c e. rewrite getConn_connect. apply M.
Qed.

Lemma addressed_initial : addressed initial.
Proof.
  split; [|split].
  - intros k set c H. inversion H.
  - intros k q e H. inversion H.
  - intros c e H. unfold getConn in H. cbn in H. rewrite lookup_nil in H. inversion H.
Qed.

Lemma valid_benign (c : nat) (w w' : world) : benign w w' -> valid c w -> valid c w'.
Proof. intros Hb. apply benign_length in Hb. unfold valid. lia. Qed.

Lemma addressed_onData (c : nat) (chunk : string) (w w' : world) :
  valid c w -> addressed w -> onData c chunk w = Ok w' -> addressed w'.
Proof.
  intros Hc Ha Hdata.
  apply (during_onData c (fun w => valid c w /\ addressed w)) in Hdata;
    [apply Hdata|..]; clear Hdata; try (split; assumption).
  - now intros w0 [H _].
  - intros f w0 Hf [H1 H2]. split; [eapply valid_benign; [apply benign_sendJson|exact H1]|].
    now apply addressed_sendJson.
  - intros s w0 [H1 H2]. split; [eapply valid_benign; [apply benign_setBuffer|exact H1]|].
    now apply addressed_updConn.
  - intros w0 [H1 H2]. split; [eapply valid_benign; [apply benign_destroy|exact H1]|].
    now apply addressed_updConn.
  - intros w0 [H1 H2]. split; [exact H1|now apply addressed_nowIso].
  - intros k w0 [H1 H2]. split; [eapply valid_benign; [apply benign_getQueue|exact H1]|].
    now apply addressed_getQueue.
  - intros k w0 Hau Hid [H1 H2].
    split; [eapply valid_benign; [apply benign_flushQueue|exact H1]|].
    now apply addressed_flushQueue.
  - intros msg w0 _ [H1 H2].
    split; [eapply valid_benign; [apply benign_handleSend|exact H1]|].
    now apply addressed_handleSend.
  - intros k cd w0 Hun _ [H1 H2]. split; [|now apply (addressed_auth c k)].
    unfold valid. rewrite conns_registerConnection. unfold setAuthed.
    now rewrite length_conns_updConn.
Qed.

Lemma addressed_httpHandler (req : request) (w w' : world) (resp : response) :
  httpHandler req w = Ok (resp, w') -> addressed w -> addressed w'.
Proof.
  apply (R_httpHandler (fun w w' => addressed w -> addressed w')).
  - auto.
  - auto.
  - apply addressed_nowIso.
  - apply addressed_randomId.
  - apply addressed_getQueue.
  - apply addressed_deliverEnvelope.
Qed.

Lemma addressed_step (ev : event) (w w' : world) :
  step ev w = Ok w' -> addressed w -> addressed w'.
Proof.
  intros Hstep Ha. destruct ev as [|c chunk|c|req]; cbn [step] in Hstep.
  - injection Hstep as <-. now apply addressed_connect.
  - destruct (live c w) eqn:Hlive; [|now injection Hstep as <-].
    destruct (onData c chunk w) as [w1|m] eqn:Hdata; cbn [bind] in Hstep; [|discriminate].
    injection Hstep as <-.
    apply addressed_onData in Hdata; [|now apply live_valid|exact Ha].
    destruct (destroyed _); [now apply addressed_onClose|exact Hdata].
  - destruct (live c w); injection Hstep as <-; [|exact Ha].
    apply addressed_onClose. now apply addressed_updConn.
  - destruct (httpHandler req w) as [[resp w1]|m] eqn:Hhttp; cbn [bind] in Hstep;
      [|discriminate].
    injection Hstep as <-. eapply addressed_httpHandler; eassumption.
Qed.

Lemma addressed_run (evs : list event) (w w' : world) :
  run evs w = Ok w' -> addressed w -> addressed w'.
Proof.
  revert w. induction evs as [|ev evs IH]; intros w; cbn [run].
  - now intros [= <-].
  - destruct (step ev w) as [w1|m] eqn:Hstep; cbn [bind]; [|discriminate].
    intros Hrun Ha. apply (IH w1 Hrun). eapply addressed_step; eassumption.
Qed.


(** X1: envelopes stay with their recipient.  In every state the daemon
    reaches, a [message] frame on a socket carries an envelope whose [to]
    is the client the connection is authenticated as, an envelope in a
    queue is in the queue of its [to], and a registered connection is
    authenticated as the client it is registered for. *)
Theorem envelopes_reach_only_their_recipient (w : world) :
  reachable w ->
  (forall c e, FMessage e ∈ written (getConn c w) ->
     authed (getConn c w) = true /\ clientId (getConn c w) = env_to e) /\
  (forall k e, e ∈ queueOf k w -> env_to e = k) /\
  (forall k c, c ∈ connectionsOf k w ->
     authed (getConn c w) = true /\ clientId (getConn c w) = k).
Proof.
  intros [evs Hrun].
  destruct (addressed_run evs initial w Hrun addressed_initial) as (A & Q & M).
  split; [exact M|]. split.
  - intros k e He. apply queueOf_entry in He as (q & Hq & He). now apply (Q k q).
  - intros k c Hc. apply connectionsOf_entry in Hc as (set & Hin & Hc).
    now apply (A k set).
Qed.

End AddressingFacts.

(** X1, witness: after [relayRun] the server's socket holds both envelopes
    of the agent, and the statement applies to that state. *)
Lemma envelopes_reach_only_their_recipient_witness :
  reachable (rt := exampleRuntime) (config := exampleConfig) (stateAfter relayRun) /\
  map env_payload
    (omap (fun f => match f with FMessage e => Some e | _ => None end)
       (written (getConn 1 (stateAfter relayRun)))) = [VNum 1; VNum 2] /\
  forall c e, FMessage e ∈ written (getConn c (stateAfter relayRun)) ->
    authed (getConn c (stateAfter relayRun)) = true /\
    clientId (getConn c (stateAfter relayRun)) = env_to e.
Proof.
  assert (Hreach : reachable (rt := exampleRuntime) (config := exampleConfig)
                     (stateAfter relayRun)).
  { apply reachable_stateAfter. vm_compute. reflexivity. }
  split; [exact Hreach|]. split; [vm_compute; reflexivity|].
  exact (proj1 (envelopes_reach_only_their_recipient
                  (rt := exampleRuntime) (config := exampleConfig)
                  (stateAfter relayRun) Hreach)).
Defined.

(** ** No uncaught exception *)

Section Totality.
Context {rt : Runtime} {config : Config}.

Lemma handleFrame_wf (c : nat) (line : string) (w w' : world) (ctl : control) :
  valid c w -> handleFrame c line w = Ok (ctl, w') -> wf w -> wf w' /\ valid c w'.
Proof.
  intros Hc Hframe Hwf.
  assert (Hcar : carries wf w w').
  { revert Hc Hframe. apply (R_handleFrame_plain (carries wf)).
    all: try (intros; apply carries_benign; [apply wf_sameCore|];
              first [ apply benign_sendJson | apply benign_setBuffer | apply benign_destroy
                    | apply benign_nowIso | apply benign_randomId | apply benign_getQueue
                    | apply benign_deliverEnvelope | apply benign_flushQueue ]).
    - intros w1 w2 w3 [H12 L12] [H23 L23]. split; [auto|lia].
    - intros c0 k cd w0 Hc0 Hget. split; [now apply (wf_auth c0 k)|].
      rewrite conns_registerConnection. unfold setAuthed.
      rewrite length_conns_updConn. lia. }
  destruct Hcar as [H L]. split; [now apply H|]. unfold valid in *. lia.
Qed.






End Totality.

(** ** Maps without repeated keys *)

Section DistinctKeys.
Context {V : Type}.
Implicit Types (m : list (value * V)) (k : value) (v : V).

Lemma map_get_none_keys k m : map_get k m = None -> sameValueZero k k = true -> k ∉ map fst m.
Proof.
  intros Hget Hk. induction m as [|[k0 v0] m IH]; cbn; [apply not_elem_of_nil|].
  cbn in Hget. destruct (sameValueZero k0 k) eqn:E; [discriminate|].
  apply not_elem_of_cons. split; [|now apply IH].
  intros ->. congruence.
Qed.







End DistinctKeys.

(** ** The registry lists the open connections *)

Section OpenRegistry.
Context {rt : Runtime} {config : Config}.

Lemma sameDestroyed_refl (w : world) : sameDestroyed w w.
Proof. now intros c. Qed.

Lemma sameDestroyed_trans (w1 w2 w3 : world) :
  sameDestroyed w1 w2 -> sameDestroyed w2 w3 -> sameDestroyed w1 w3.
Proof. intros H12 H23 c. now rewrite H23. Qed.

Lemma sameDestroyed_same_conns (w w' : world) : conns w' = conns w -> sameDestroyed w w'.
Proof. intros H c. now rewrite (getConn_same_conns c w w' H). Qed.

Lemma sameDestroyed_updConn (c : nat) (f : connState -> connState) (w : world) :
  (forall cs, destroyed (f cs) = destroyed cs) -> sameDestroyed w (updConn c f w).
Proof. intros Hf c0. now apply getConn_updConn_proj. Qed.

Lemma sameDestroyed_sendJson (c : nat) (f : frame) (w : world) :
  sameDestroyed w (sendJson c f w).
Proof. now apply sameDestroyed_updConn. Qed.

Lemma sameDestroyed_fanout (f : frame) (cs : list nat) (w : world) :
  sameDestroyed w (foldl (fun w' conn => sendJson conn f w') w cs).
Proof.
  revert w. induction cs as [|c cs IH]; intros w; [apply sameDestroyed_refl|].
  cbn [foldl]. eapply sameDestroyed_trans; [apply sameDestroyed_sendJson|apply IH].
Qed.

Lemma sameDestroyed_deliverEnvelope (e : envelope) (w : world) :
  sameDestroyed w (deliverEnvelope e w).2.
Proof.
  destruct (decide (connectionsOf (env_to e) w = [])) as [Hoff|Hon].
  - rewrite (deliverEnvelope_offline e w Hoff). cbn [snd].
    apply sameDestroyed_same_conns. cbn. apply conns_getQueue.
  - rewrite (deliverEnvelope_online e w Hon). cbn [snd]. apply sameDestroyed_fanout.
Qed.

Lemma sameDestroyed_flushLoop (k : value) (c : nat) (q : list envelope) (n : nat)
    (w : world) :
  sameDestroyed w (flushLoop k c q n w).2.
Proof.
  revert n w. induction q as [|e q IH]; intros n w; [apply sameDestroyed_refl|].
  cbn [flushLoop]. eapply sameDestroyed_trans; [|apply IH].
  apply (sameDestroyed_trans w (setQueue k q w)); [|apply sameDestroyed_sendJson].
  now apply sameDestroyed_same_conns.
Qed.

Lemma sameDestroyed_flushQueue (k : value) (c : nat) (w : world) :
  sameDestroyed w (flushQueue k c w).2.
Proof.
  unfold flushQueue. pose proof (conns_getQueue k w) as H.
  destruct (getQueue k w) as [[|e q] w1]; cbn [snd] in *.
  - now apply sameDestroyed_same_conns.
  - apply (sameDestroyed_trans w w1); [now apply sameDestroyed_same_conns|].
    apply sameDestroyed_flushLoop.
Qed.

Lemma sameDestroyed_handleSend (c : nat) (msg : value) (w : world) :
  sameDestroyed w (handleSend c msg w).
Proof.
  apply (R_handleSend sameDestroyed).
  - apply sameDestroyed_trans.
  - intros c0 f w0 _. apply sameDestroyed_sendJson.
  - intros w0. now apply sameDestroyed_same_conns.
  - intros p w0. now apply sameDestroyed_same_conns.
  - apply sameDestroyed_deliverEnvelope.
Qed.





















End OpenRegistry.


(** ** Operator sends *)

Section AdminFacts.
Context {rt : Runtime} {config : Config}.

Lemma truthy_str (s : string) : truthy (VStr s) = true <-> s <> "".
Proof. cbn. rewrite negb_true_iff. apply String.eqb_neq. Qed.

Lemma getProp_of_field (v : value) (k s : string) :
  field v k = VStr s -> getProp v k = Ok (VStr s).
Proof. destruct v; cbn; try discriminate. now intros ->. Qed.

(** X4: an operator send is routed if and only if it passes the checks a
    socket [send] passes.  With [asClient] and [to] strings,
    [routeAdminSend] routes an envelope from [asClient] to [to] exactly
    when both are non-empty, both name clients of the configuration, and
    the allowlist of [asClient] contains [to] or the wildcard.  Otherwise
    it answers with [asClient_and_to_required], [unknown_client] or
    [route_not_allowed], for the first check that fails, and changes
    nothing. *)
Theorem admin_send_routed_iff_accepted (body : value) (w : world) (a t : string) :
  field body "asClient" = VStr a -> field body "to" = VStr t ->
  (routesAdminSend a t body w <-> adminSendAccepted a t) /\
  (a = "" \/ t = "" ->
     routeAdminSend body w = Ok (AdminError "asClient_and_to_required", w)) /\
  (a <> "" -> t <> "" ->
     ~ registeredClient (VStr a) \/ ~ registeredClient (VStr t) ->
     routeAdminSend body w = Ok (AdminError "unknown_client", w)) /\
  (forall sender,
     a <> "" -> t <> "" -> registeredClient (VStr t) ->
     map_get (VStr a) clientsById = Some sender ->
     ~ allowlistPermits sender (VStr t) ->
     routeAdminSend body w = Ok (AdminError "route_not_allowed", w)) /\
  (~ adminSendAccepted a t ->
     exists code, routeAdminSend body w = Ok (AdminError code, w)).
Proof.
  intros Ha Ht.
  assert (Hrun : routeAdminSend body w =
    if negb (truthy (VStr a)) || negb (truthy (VStr t)) then
      Ok (AdminError "asClient_and_to_required", w)
    else if negb (map_has (VStr a) clientsById) || negb (map_has (VStr t) clientsById) then
      Ok (AdminError "unknown_client", w)
    else if negb (canRoute (VStr a) (VStr t)) then
      Ok (AdminError "route_not_allowed", w)
    else
      let '(id, w1) :=
        if truthy (field body "id") then (field body "id", w)
        else let '(r, w') := randomId "admin" w in (VStr r, w') in
      let '(ts, w2) := nowIso w1 in
      let envelope :=
        {| env_id := id; env_from := VStr a; env_to := VStr t;
           env_type := js_or (field body "type") (VStr "message");
           env_payload := match field body "payload" with VUndef => VNull | p => p end;
           env_correlationId := js_or (field body "correlationId") VNull;
           env_ts := ts |} in
      let '(r, w3) := deliverEnvelope envelope w2 in
      Ok (AdminOk envelope r, w3)).
  { unfold routeAdminSend. rewrite (getProp_of_field body "asClient" a Ha). cbn [bind].
    now rewrite Ht. }
  assert (Hroutes : negb (truthy (VStr a)) || negb (truthy (VStr t)) = false ->
            negb (map_has (VStr a) clientsById) || negb (map_has (VStr t) clientsById)
              = false ->
            negb (canRoute (VStr a) (VStr t)) = false ->
            routesAdminSend a t body w).
  { intros H1 H2 H3. unfold routesAdminSend. rewrite Hrun, H1, H2, H3. clear Hrun.
    destruct (truthy (field body "id")).
    - destruct (nowIso w) as [ts w2] eqn:Hnow. cbv zeta.
      destruct (deliverEnvelope _ w2) as [r w3] eqn:Hdel.
      eexists _, w2. rewrite Hdel. cbn [fst snd].
      unfold nowIso in Hnow. injection Hnow as <- <-. repeat split.
    - destruct (randomId "admin" w) as [rid w1] eqn:Hrand.
      destruct (nowIso w1) as [ts w2] eqn:Hnow. cbv zeta.
      destruct (deliverEnvelope _ w2) as [r w3] eqn:Hdel.
      eexists _, w2. rewrite Hdel. cbn [fst snd].
      unfold nowIso in Hnow. injection Hnow as <- <-.
      unfold randomId in Hrand. injection Hrand as <- <-. repeat split. }
  assert (H1 : negb (truthy (VStr a)) || negb (truthy (VStr t)) = false <->
               a <> "" /\ t <> "").
  { rewrite orb_false_iff, !negb_false_iff, !truthy_str. tauto. }
  assert (H2 : negb (map_has (VStr a) clientsById) || negb (map_has (VStr t) clientsById)
                 = false <->
               registeredClient (VStr a) /\ registeredClient (VStr t)).
  { rewrite orb_false_iff, !negb_false_iff, !registeredClient_str. tauto. }
  assert (H3 : forall sender, map_get (VStr a) clientsById = Some sender ->
               (negb (canRoute (VStr a) (VStr t)) = false <->
                allowlistPermits sender (VStr t))).
  { intros sender Hget. rewrite negb_false_iff. now apply canRoute_permits. }
  assert (Hacc : adminSendAccepted a t <->
                 negb (truthy (VStr a)) || negb (truthy (VStr t)) = false /\
                 negb (map_has (VStr a) clientsById) || negb (map_has (VStr t) clientsById)
                   = false /\
                 negb (canRoute (VStr a) (VStr t)) = false).
  { unfold adminSendAccepted. rewrite H1, H2. split.
    - intros (Hna & Hnt & Hra & Hrt & sender & Hget & Hperm).
      repeat split; try assumption. now apply (H3 sender).
    - intros ((Hna & Hnt) & (Hra & Hrt) & Hcan). repeat split; try assumption.
      pose proof Hra as Hget. apply registeredClient_str, map_has_get in Hget as [sender Hget].
      exists sender. split; [exact Hget|]. now apply (H3 sender). }
  split; [|split; [|split; [|split]]].
  - split.
    + intros (e & w1 & _ & _ & _ & _ & _ & Hok). apply Hacc. rewrite Hrun in Hok.
      destruct (_ || _); [discriminate|]. destruct (_ || _); [discriminate|].
      destruct (negb _); [discriminate|]. now repeat split.
    + intros H. apply Hacc in H as (E1 & E2 & E3). now apply Hroutes.
  - intros Hempty. rewrite Hrun.
    destruct (negb (truthy (VStr a)) || negb (truthy (VStr t))); [reflexivity|].
    pose proof (proj1 H1 eq_refl). tauto.
  - intros Hna Hnt Hnot. rewrite Hrun.
    rewrite (proj2 H1 (conj Hna Hnt)).
    destruct (negb (map_has (VStr a) clientsById) || _); [reflexivity|].
    pose proof (proj1 H2 eq_refl). tauto.
  - intros sender Hna Hnt Hrt Hget Hnot. rewrite Hrun.
    rewrite (proj2 H1 (conj Hna Hnt)).
    assert (Hra : registeredClient (VStr a)).
    { apply registeredClient_str, map_has_get. eauto. }
    rewrite (proj2 H2 (conj Hra Hrt)).
    pose proof (H3 sender Hget) as H3'.
    destruct (negb (canRoute (VStr a) (VStr t))); [reflexivity|].
    pose proof (proj1 H3' eq_refl). contradiction.
  - intros Hnot. rewrite Hrun.
    destruct (negb (truthy (VStr a)) || negb (truthy (VStr t))) eqn:E1; [eauto|].
    destruct (negb (map_has (VStr a) clientsById) || _) eqn:E2; [eauto|].
    destruct (negb (canRoute (VStr a) (VStr t))) eqn:E3; [eauto|].
    exfalso. apply Hnot, Hacc. now repeat split.
Qed.

End AdminFacts.

(** X4, witness: as the agent, whose allowlist is the server alone, an
    operator send to the server is routed and one to [other-client] is
    not. *)
Lemma admin_send_routed_iff_accepted_witness :
  routesAdminSend (rt := exampleRuntime) (config := exampleConfig)
    "agent-client" "openclaw-server" (adminBody "openclaw-server" 1) initial /\
  routeAdminSend (rt := exampleRuntime) (config := exampleConfig)
    (adminBody "other-client" 1) initial = Ok (AdminError "route_not_allowed", initial).
Proof.
  split.
  - apply (admin_send_routed_iff_accepted (rt := exampleRuntime) (config := exampleConfig)
             (adminBody "openclaw-server" 1) initial "agent-client" "openclaw-server"
             eq_refl eq_refl).
    split; [discriminate|]. split; [discriminate|].
    split; [exists agentClient; split; [left|reflexivity]|].
    split; [exists serverClient; split; [right; left|reflexivity]|].
    exists agentClient. split; [reflexivity|]. left. left.
  - apply (admin_send_routed_iff_accepted (rt := exampleRuntime) (config := exampleConfig)
             (adminBody "other-client" 1) initial "agent-client" "other-client"
             eq_refl eq_refl) with agentClient.
    + discriminate.
    + discriminate.
    + exists otherClient. split; [right; right; left|reflexivity].
    + reflexivity.
    + intros [H|H]; cbn in H; apply list_elem_of_singleton in H; discriminate.
Defined.

(** ** Who gets authenticated *)

Section CredentialFacts.
Context {rt : Runtime} {config : Config}.



End CredentialFacts.


(** ** What a loaded configuration looks like *)

Section LoadedConfig.
Context {rt : Runtime}.





End LoadedConfig.


(** ** One connection and the others *)

Section IsolationFacts.
Context {rt : Runtime} {config : Config}.

Lemma onlyMessagesFrom_refl (c c' : nat) (w : world) : onlyMessagesFrom c c' w w.
Proof.
  repeat split. exists []. split; [now rewrite app_nil_r|]. intros e He. inversion He.
Qed.

(** One more operation of the handler of [c]. *)
Lemma onlyMessagesFrom_step (c c' : nat) (w0 w w' : world) :
  onlyMessagesFrom c c' w w' ->
  (authed (getConn c w) = true ->
     authed (getConn c w') = true /\ clientId (getConn c w') = clientId (getConn c w)) ->
  onlyMessagesFrom c c' w0 w -> onlyMessagesFrom c c' w0 w'.
Proof.
  intros (A1 & I1 & D1 & B1 & es1 & W1 & F1) Hkeep (A0 & I0 & D0 & B0 & es0 & W0 & F0).
  unfold onlyMessagesFrom. rewrite A1, I1, D1, B1. repeat split; try assumption.
  exists (es0 ++ es1). split; [now rewrite W1, W0, map_app, app_assoc|].
  intros e He. apply elem_of_app in He as [He|He]; [|now apply F1].
  destruct (F0 e He) as [Ha Hf]. destruct (Hkeep Ha) as [Ha' Hi']. split; [exact Ha'|].
  now rewrite Hi'.
Qed.

Lemma onlyMessagesFrom_same (c c' : nat) (w w' : world) :
  getConn c' w' = getConn c' w -> onlyMessagesFrom c c' w w'.
Proof.
  intros H. unfold onlyMessagesFrom. rewrite H. repeat split.
  exists []. split; [now rewrite app_nil_r|]. intros e He. inversion He.
Qed.

Lemma getConn_flushLoop_ne (k : value) (c c' : nat) (q : list envelope) (n : nat)
    (w : world) :
  c' <> c -> getConn c' (flushLoop k c q n w).2 = getConn c' w.
Proof.
  intros Hne. revert n w. induction q as [|e q IH]; intros n w; [reflexivity|].
  cbn [flushLoop]. rewrite IH. unfold sendJson. now rewrite getConn_updConn_ne.
Qed.

Lemma getConn_flushQueue_ne (k : value) (c c' : nat) (w : world) :
  c' <> c -> getConn c' (flushQueue k c w).2 = getConn c' w.
Proof.
  intros Hne. unfold flushQueue. pose proof (conns_getQueue k w) as H.
  destruct (getQueue k w) as [[|e q] w1]; cbn [snd] in *.
  - now apply getConn_same_conns.
  - rewrite getConn_flushLoop_ne by exact Hne. now apply getConn_same_conns.
Qed.

Lemma written_fanout_any (f : frame) (cs : list nat) (w : world) (c : nat) :
  exists n,
    written (getConn c (foldl (fun w' conn => sendJson conn f w') w cs)) =
    written (getConn c w) ++ replicate n f.
Proof.
  revert w. induction cs as [|c0 cs IH]; intros w; cbn [foldl].
  - exists 0%nat. cbn. now rewrite app_nil_r.
  - destruct (IH (sendJson c0 f w)) as [n ->]. unfold sendJson.
    match goal with |- context [updConn c0 ?g w] =>
      destruct (getConn_updConn_cases c c0 g w) as [->| ->] end.
    + now exists n.
    + exists (S n). cbn. now rewrite <- app_assoc.
Qed.

Lemma handleSend_cases (c : nat) (msg : value) (w : world) :
  (exists code, handleSend c msg w = sendJson c (FError code) w) \/
  routesSend c msg w (handleSend c msg w).
Proof.
  destruct (negb (truthy (field msg "to")) || negb (isString (field msg "to"))) eqn:E1.
  { left. exists "missing_to". unfold handleSend. now rewrite E1. }
  destruct (map_has (field msg "to") clientsById) eqn:E2.
  2:{ left. exists "unknown_target". unfold handleSend. now rewrite E1, E2. }
  destruct (canRoute (clientId (getConn c w)) (field msg "to")) eqn:E3.
  2:{ left. exists "route_not_allowed". unfold handleSend. now rewrite E1, E2, E3. }
  right. now apply handleSend_routes.
Qed.

Lemma onlyMessagesFrom_handleSend (c c' : nat) (msg : value) (w : world) :
  c' <> c -> authed (getConn c w) = true ->
  onlyMessagesFrom c c' w (handleSend c msg w).
Proof.
  intros Hne Hau.
  destruct (benign_handleSend c msg w) as [(_ & Hflags & _) _].
  destruct (Hflags c) as [Hac Hic].
  destruct (handleSend_cases c msg w)
    as [[code ->]|(e & w1 & Hfrom & _ & Hc1 & Ha1 & Hq1 & Heq)].
  { apply onlyMessagesFrom_same. unfold sendJson. now apply getConn_updConn_ne. }
  rewrite Heq in *. clear Heq.
  set (w3 := (deliverEnvelope e w1).2) in *.
  assert (Hget : getConn c' (sendJson c
             (FSent (env_id e) (deliveredTo (deliverEnvelope e w1).1)
                (queued (deliverEnvelope e w1).1) (env_ts e)) w3) = getConn c' w3).
  { unfold sendJson. now apply getConn_updConn_ne. }
  assert (H1 : getConn c' w1 = getConn c' w) by now apply getConn_same_conns.
  destruct (benign_deliverEnvelope e w1) as [(_ & Hf3 & _) _]. fold w3 in Hf3.
  destruct (Hf3 c') as [Ha3 Hi3].
  pose proof (sameDestroyed_deliverEnvelope e w1 c') as Hd3. fold w3 in Hd3.
  pose proof (sameBuffers_deliverEnvelope e w1 c') as Hb3. fold w3 in Hb3.
  unfold onlyMessagesFrom. rewrite Hget, Ha3, Hi3, Hd3, Hb3, H1.
  repeat split.
  assert (Hw : exists n, written (getConn c' w3) = written (getConn c' w1) ++
                         replicate n (FMessage e)).
  { unfold w3. destruct (decide (connectionsOf (env_to e) w1 = [])) as [Hoff|Hon].
    - rewrite (deliverEnvelope_offline e w1 Hoff). cbn [snd]. exists 0%nat. cbn.
      rewrite app_nil_r. f_equal. apply getConn_same_conns. cbn. apply conns_getQueue.
    - rewrite (deliverEnvelope_online e w1 Hon). cbn [snd]. apply written_fanout_any. }
  destruct Hw as [n Hw]. exists (replicate n e). split.
  - now rewrite Hw, H1, fmap_replicate.
  - intros e0 He0. apply elem_of_replicate in He0 as [-> _]. rewrite Hac, Hic.
    now split.
Qed.

(** X7: what a chunk on one connection does to another.  Whatever arrives
    on connection [c], no other connection is authenticated, renamed,
    closed or has its parse buffer changed by it; all another socket can
    get is [message] frames, and their envelopes are from the client [c]
    is authenticated as. *)
Theorem data_reaches_others_as_messages_only (c c' : nat) (chunk : string)
    (w w' : world) :
  valid c w -> onData c chunk w = Ok w' -> c' <> c ->
  onlyMessagesFrom c c' w w'.
Proof.
  intros Hc Hdata Hne.
  assert (Hkeep : forall w1 w2, benign w1 w2 -> authed (getConn c w1) = true ->
            authed (getConn c w2) = true /\ clientId (getConn c w2) = clientId (getConn c w1)).
  { intros w1 w2 [(_ & Hf & _) _] Ha. destruct (Hf c) as [-> ->]. now split. }
  assert (Hupd : forall f w1,
            (forall cs, authed (f cs) = authed cs) ->
            (forall cs, clientId (f cs) = clientId cs) ->
            valid c w1 /\ onlyMessagesFrom c c' w w1 ->
            valid c (updConn c f w1) /\ onlyMessagesFrom c c' w (updConn c f w1)).
  { intros f w1 Hfa Hfi [H1 H2]. split; [unfold valid; now rewrite length_conns_updConn|].
    apply (onlyMessagesFrom_step c c' w w1); [| |exact H2].
    - apply onlyMessagesFrom_same. now apply getConn_updConn_ne.
    - intros Ha. rewrite !getConn_updConn_proj by assumption. now split. }
  apply (during_onData c (fun w1 => valid c w1 /\ onlyMessagesFrom c c' w w1)) in Hdata;
    [apply Hdata|..]; clear Hdata.
  - now intros w1 [H _].
  - intros f w1 _. now apply Hupd.
  - intros s w1. now apply Hupd.
  - intros w1. now apply Hupd.
  - intros w1 [H1 H2]. split; [exact H1|].
    apply (onlyMessagesFrom_step c c' w w1); [|apply Hkeep, benign_nowIso|exact H2].
    now apply onlyMessagesFrom_same.
  - intros k w1 [H1 H2]. split; [eapply valid_benign; [apply benign_getQueue|exact H1]|].
    apply (onlyMessagesFrom_step c c' w w1); [|apply Hkeep, benign_getQueue|exact H2].
    apply onlyMessagesFrom_same, getConn_same_conns, conns_getQueue.
  - intros k w1 _ _ [H1 H2].
    split; [eapply valid_benign; [apply benign_flushQueue|exact H1]|].
    apply (onlyMessagesFrom_step c c' w w1); [|apply Hkeep, benign_flushQueue|exact H2].
    apply onlyMessagesFrom_same. now apply getConn_flushQueue_ne.
  - intros msg w1 Ha [H1 H2].
    split; [eapply valid_benign; [apply benign_handleSend|exact H1]|].
    apply (onlyMessagesFrom_step c c' w w1); [|apply Hkeep, benign_handleSend|exact H2].
    now apply onlyMessagesFrom_handleSend.
  - intros k cd w1 Hun _ [H1 H2]. split.
    + unfold valid. rewrite conns_registerConnection. unfold setAuthed.
      now rewrite length_conns_updConn.
    + apply (onlyMessagesFrom_step c c' w w1); [|congruence|exact H2].
      apply onlyMessagesFrom_same.
      rewrite (getConn_same_conns c' (setAuthed c (client_id cd) w1) _)
        by apply conns_registerConnection.
      unfold setAuthed. now apply getConn_updConn_ne.
  - split; [exact Hc|apply onlyMessagesFrom_refl].
Qed.

End IsolationFacts.

(** X7, witness: after [relayRun] the agent, on connection 0, sends once
    more; the server's connection 1 gets one [message] frame from the
    agent and is otherwise as it was. *)
Lemma data_reaches_others_as_messages_only_witness :
  let w := stateAfter relayRun in
  exists w',
    onData (rt := exampleRuntime) (config := exampleConfig) 0
      (wire (sendFrame "openclaw-server" 3)) w = Ok w' /\
    length (written (getConn 1 w')) = S (length (written (getConn 1 w))) /\
    onlyMessagesFrom 0 1 w w'.
Proof.
  cbv zeta.
  destruct (onData (rt := exampleRuntime) (config := exampleConfig) 0
              (wire (sendFrame "openclaw-server" 3)) (stateAfter relayRun))
    as [w'|m] eqn:Hdata; [|vm_compute in Hdata; discriminate Hdata].
  exists w'. split; [reflexivity|]. split.
  - vm_compute in Hdata. injection Hdata as <-. reflexivity.
  - apply (data_reaches_others_as_messages_only (rt := exampleRuntime)
             (config := exampleConfig) 0 1 (wire (sendFrame "openclaw-server" 3))
             (stateAfter relayRun) w').
    + vm_compute. lia.
    + exact Hdata.
    + discriminate.
Defined.

(** ** Draining twice *)

Section DrainOnce.
Context {rt : Runtime} {config : Config}.

Lemma map_has_getQueue (k : value) (w : world) :
  sameValueZero k k = true -> map_has k (pendingQueues (getQueue k w).2) = true.
Proof.
  intros Hk. unfold getQueue. cbn [snd].
  destruct (map_has k (pendingQueues w)) eqn:E; cbn [negb]; [exact E|].
  cbn. rewrite map_has_set, Hk. apply orb_true_r.
Qed.

Lemma map_has_flushLoop (k : value) (c : nat) (q : list envelope) (n : nat) (w : world) :
  map_has k (pendingQueues w) = true ->
  map_has k (pendingQueues (flushLoop k c q n w).2) = true.
Proof.
  revert n w. induction q as [|e q IH]; intros n w Hhas; [exact Hhas|].
  cbn [flushLoop]. apply IH. cbn. rewrite map_has_set, Hhas. reflexivity.
Qed.

(** X8: a queue is drained once.  After [flushQueue] has written a
    client's queue to a socket, a second [flushQueue] for the same client,
    on that socket or on another, returns 0, writes nothing and leaves the
    state as it is: no envelope is delivered from the queue twice. *)
Theorem flushQueue_drains_once (k : value) (c c' : nat) (w : world) :
  sameValueZero k k = true -> valid c w ->
  let w1 := (flushQueue k c w).2 in
  queueOf k w1 = [] /\ flushQueue k c' w1 = (0%nat, w1).
Proof.
  intros Hk Hc. cbv zeta.
  destruct (flushQueue_spec k c w Hk Hc) as (_ & _ & Hempty & _).
  split; [exact Hempty|].
  assert (Hhas : map_has k (pendingQueues (flushQueue k c w).2) = true).
  { unfold flushQueue. pose proof (map_has_getQueue k w Hk) as H.
    destruct (getQueue k w) as [[|e q] w1]; cbn [snd] in *; [exact H|].
    now apply map_has_flushLoop. }
  set (w1 := (flushQueue k c w).2) in *.
  unfold flushQueue at 1. unfold getQueue. rewrite Hhas. cbn [negb].
  fold (queueOf k w1). now rewrite Hempty.
Qed.

End DrainOnce.

(** X8, witness: once the server has authenticated in [relayRun] its
    queue is empty, and a flush onto the agent's socket does nothing. *)
Lemma flushQueue_drains_once_witness :
  let w := stateAfter (firstn 4 relayRun) in
  length (queueOf (VStr "openclaw-server") w) = 1%nat /\
  let w1 := (flushQueue (VStr "openclaw-server") 1 w).2 in
  queueOf (VStr "openclaw-server") w1 = [] /\
  flushQueue (VStr "openclaw-server") 0 w1 = (0%nat, w1).
Proof.
  cbv zeta. split; [vm_compute; reflexivity|].
  apply (flushQueue_drains_once (VStr "openclaw-server") 1 0
           (stateAfter (firstn 4 relayRun))).
  - reflexivity.
  - vm_compute. lia.
Defined.

(** ** The status snapshot *)

Section StatusFacts.
Context {rt : Runtime} {config : Config}.




End StatusFacts.

(** ** What a request can change *)

Section HttpEffects.
Context {rt : Runtime} {config : Config}.







End HttpEffects.


(** ** Hashing a key and checking it *)

Section HashKeyFacts.
Context {rt : Runtime} {config : Config}.

Lemma toString_str (s : string) : toString (VStr s) = s.
Proof. reflexivity. Qed.

Lemma js_or_str_empty (s : string) : js_or (VStr s) (VStr "") = VStr s.
Proof.
  unfold js_or. cbn. destruct (String.eqb s "") eqn:E; cbn; [|reflexivity].
  apply String.eqb_eq in E. now subst s.
Qed.

(** X11: the hash [hash-key.js] prints for a key is the one that key
    passes.  With the printed hash as a client's [keySha256] (or as
    [adminTokenSha256]), [safeCompareHash] accepts the key, and it accepts
    another text exactly when that text has the same digest; an [auth]
    frame with the client's identifier and the key has matching
    credentials. *)
Theorem hashKey_output_verifies (key h : string) :
  hashKey (Some key) = Printed h ->
  safeCompareHash (VStr key) (VStr h) = Ok true /\
  (forall other,
     safeCompareHash other (VStr h) = Ok true <->
     sha256_digest (toString other) = sha256_digest key) /\
  (forall id cd,
     map_get (VStr id) clientsById = Some cd -> keySha256 cd = VStr h ->
     credentialsMatch (authFrame id key)).
Proof.
  unfold hashKey. destruct (String.eqb key "") eqn:Hk; [discriminate|].
  intros [= <-].
  assert (Hdec : forall other,
            safeCompareHash other (VStr (hexEncode (sha256_digest key))) = Ok true <->
            sha256_digest (toString other) = sha256_digest key).
  { intros other. rewrite safeCompareHash_true, js_or_str_empty, toString_str,
      hexDecode_hexEncode. split; congruence. }
  split; [now apply Hdec|]. split; [exact Hdec|].
  intros id cd Hget Hkey. exists cd. split; [exact Hget|].
  rewrite Hkey. cbn [field authFrame lookupField]. cbn.
  rewrite js_or_str_empty, js_or_str_empty, !toString_str.
  apply hexDecode_hexEncode.
Qed.

End HashKeyFacts.

(** X11, witness: the hash of the agent's key is the agent's stored hash,
    and the key passes it. *)
Lemma hashKey_output_verifies_witness :
  hashKey (rt := exampleRuntime) (Some "agent-key") =
    Printed (hexEncode (exampleDigest "agent-key")) /\
  keySha256 agentClient = VStr (hexEncode (exampleDigest "agent-key")) /\
  safeCompareHash (rt := exampleRuntime) (VStr "agent-key")
    (VStr (hexEncode (exampleDigest "agent-key"))) = Ok true.
Proof.
  split; [reflexivity|]. split; [reflexivity|].
  exact (proj1 (hashKey_output_verifies (rt := exampleRuntime) (config := exampleConfig)
                  "agent-key" (hexEncode (exampleDigest "agent-key")) eq_refl)).
Defined.

(** ** Provisioned secrets *)

Section ProvisionFacts.
Context {rt : Runtime}.

Lemma sha256Text_verifies (s : string) :
  safeCompareHash (VStr s) (VStr (sha256Text s)) = Ok true.
Proof.
  apply safeCompareHash_true. unfold sha256Text.
  assert (H : js_or (VStr (hexEncode (sha256_digest s))) (VStr "") =
              VStr (hexEncode (sha256_digest s))).
  { unfold js_or. cbn. destruct (String.eqb _ "") eqn:E; cbn; [|reflexivity].
    apply String.eqb_eq in E. now rewrite E. }
  rewrite H. cbn [toString]. apply hexDecode_hexEncode.
Qed.

Lemma provisionClients_ok (randSecret : nat -> string) (cs : list value) :
  forall n secrets cs' secrets',
  provisionClients randSecret n secrets cs = Ok (Some (cs', secrets')) ->
  length cs' = length cs /\
  (forall k, (forall c, c ∈ cs -> toString (field c "id") <> k) ->
     lookupField k secrets' = lookupField k secrets) /\
  forall i c, cs !! i = Some c ->
    exists c',
      cs' !! i = Some c' /\
      truthy (field c "id") = true /\
      (forall k, k <> "keySha256" -> field c' k = field c k) /\
      field c' "keySha256" = VStr (sha256Text (randSecret (n + i)%nat)) /\
      ((forall j c2, (i < j)%nat -> cs !! j = Some c2 ->
          toString (field c2 "id") <> toString (field c "id")) ->
       toString (field c "id") <> "__proto__" ->
       lookupField (toString (field c "id")) secrets' =
         Some (VStr (randSecret (n + i)%nat))).
Proof.
  induction cs as [|client rest IH]; intros n secrets cs' secrets'; cbn [provisionClients].
  - intros [= <- <-]. split; [reflexivity|]. split; [reflexivity|].
    intros i c H. now rewrite lookup_nil in H.
  - destruct (getProp client "id") as [id|m] eqn:Hid; cbn [bind]; [|discriminate].
    apply getProp_field in Hid.
    destruct (truthy id) eqn:Ht; cbn [negb]; [|discriminate].
    destruct client as [| | | | | |fs]; try discriminate.
    set (secrets1 := if String.eqb (toString id) "__proto__" then secrets
                     else setField (toString id) (VStr (randSecret n)) secrets).
    destruct (provisionClients randSecret (S n) secrets1 rest) as [[[rest' s2]|]|m]
      eqn:Hrest; cbn [bind]; try discriminate.
    intros [= <- <-].
    destruct (IH _ _ _ _ Hrest) as (Hlen & Hkeep & Hall).
    split; [cbn; now rewrite Hlen|]. split.
    + intros k Hk. rewrite Hkeep by (intros c Hc; apply Hk; now right).
      unfold secrets1. destruct (String.eqb (toString id) "__proto__"); [reflexivity|].
      rewrite lookupField_setField.
      destruct (String.eqb k (toString id)) eqn:E; [|reflexivity].
      apply String.eqb_eq in E. exfalso. apply (Hk (VObj fs)); [left|].
      now rewrite Hid.
    + intros [|i] c Hc; cbn in Hc.
      * injection Hc as <-. eexists. split; [reflexivity|]. rewrite Hid.
        split; [exact Ht|]. split; [|split].
        -- intros k Hk. cbn [field]. rewrite lookupField_setField.
           destruct (String.eqb k "keySha256") eqn:E; [|reflexivity].
           now apply String.eqb_eq in E.
        -- cbn [field]. rewrite lookupField_setField, String.eqb_refl. cbn.
           now rewrite Nat.add_0_r.
        -- intros Hlater Hproto. rewrite Hkeep.
           ++ unfold secrets1. apply String.eqb_neq in Hproto. rewrite Hproto.
              rewrite lookupField_setField, String.eqb_refl. now rewrite Nat.add_0_r.
           ++ intros c2 Hc2. apply list_elem_of_lookup in Hc2 as [j Hj].
              apply (Hlater (S j) c2); [lia|exact Hj].
      * destruct (Hall i c Hc) as (c' & Hc' & Htr & Hsame & Hkey & Hsec).
        exists c'. split; [exact Hc'|]. split; [exact Htr|]. split; [exact Hsame|].
        replace (n + S i)%nat with (S n + i)%nat by lia. split; [exact Hkey|].
        intros Hlater. apply Hsec. intros j c2 Hij Hj.
        apply (Hlater (S j) c2); [lia|exact Hj].
Qed.

(** X12: provisioned secrets verify.  When [provision-secrets.js] runs to
    its end, the configuration it writes back differs from the one it read
    in [adminTokenSha256] and in each client's [keySha256] only; the admin
    token it saved passes the new admin hash; the secret drawn for each
    client passes that client's new [keySha256]; and the saved secrets hold
    each client's secret under its identifier, unless a later client has
    the same identifier.  The script runs to its end only if every client
    has an identifier. *)
Theorem provisioned_secrets_verify (randSecret : nat -> string) (file : configFile)
    (p : provisioned) :
  provisionSecrets randSecret file = Ok (Some p) ->
  exists fs cs cs',
    file = Parsed (VObj fs) /\
    lookupField "clients" fs = Some (VArr cs) /\
    field (newConfig p) "clients" = VArr cs' /\
    length cs' = length cs /\
    adminToken p = randSecret 0%nat /\
    safeCompareHash (VStr (adminToken p)) (field (newConfig p) "adminTokenSha256")
      = Ok true /\
    (forall k, k <> "clients" -> k <> "adminTokenSha256" ->
       field (newConfig p) k = field (VObj fs) k) /\
    forall i c, cs !! i = Some c ->
      exists c',
        cs' !! i = Some c' /\
        truthy (field c "id") = true /\
        (forall k, k <> "keySha256" -> field c' k = field c k) /\
        safeCompareHash (VStr (randSecret (S i))) (field c' "keySha256") = Ok true /\
        ((forall j c2, (i < j)%nat -> cs !! j = Some c2 ->
            toString (field c2 "id") <> toString (field c "id")) ->
         toString (field c "id") <> "__proto__" ->
         lookupField (toString (field c "id")) (clientSecrets p) =
           Some (VStr (randSecret (S i)))).
Proof.
  destruct file as [| |config]; cbn [provisionSecrets]; try discriminate.
  destruct (getProp config "clients") as [clients|m] eqn:Hclients; cbn [bind];
    [|discriminate].
  destruct clients as [| | | | |[|c0 cs0]|]; try discriminate.
  destruct config as [| | | | | |fs]; try discriminate.
  destruct (provisionClients randSecret 1 [] (c0 :: cs0)) as [[[cs' secrets]|]|m] eqn:Hloop;
    cbn [bind]; try discriminate.
  intros [= <-]. cbn [newConfig adminToken clientSecrets].
  destruct (provisionClients_ok _ _ _ _ _ _ Hloop) as (Hlen & _ & Hall).
  exists fs, (c0 :: cs0), cs'.
  split; [reflexivity|]. split.
  { cbn in Hclients. destruct (lookupField "clients" fs); cbn in Hclients; congruence. }
  split; [cbn [field]; now rewrite lookupField_setField|].
  split; [exact Hlen|]. split; [reflexivity|]. split.
  { cbn [field]. rewrite lookupField_setField. cbn [String.eqb Ascii.eqb Bool.eqb].
    rewrite lookupField_setField, String.eqb_refl. cbn. apply sha256Text_verifies. }
  split.
  { intros k Hk1 Hk2. cbn [field]. rewrite !lookupField_setField.
    apply String.eqb_neq in Hk1, Hk2. now rewrite Hk1, Hk2. }
  intros i c Hc. destruct (Hall i c Hc) as (c' & Hc' & Htr & Hsame & Hkey & Hsec).
  exists c'. split; [exact Hc'|]. split; [exact Htr|]. split; [exact Hsame|].
  split; [rewrite Hkey; apply sha256Text_verifies|exact Hsec].
Qed.

End ProvisionFacts.

(** X12, witness: the document with one client is provisioned; the
    secret drawn for the client passes its new hash and is saved under its
    identifier. *)
Lemma provisioned_secrets_verify_witness :
  let randSecret n := "s" +:+ stringOfNat n in
  exists p c',
    provisionSecrets (rt := exampleRuntime) randSecret (Parsed stringAllowlistDoc)
      = Ok (Some p) /\
    field (newConfig p) "clients" = VArr [c'] /\
    field c' "keySha256" = VStr (sha256Text (rt := exampleRuntime) "s1") /\
    safeCompareHash (rt := exampleRuntime) (VStr "s1") (field c' "keySha256") = Ok true /\
    lookupField "agent-client" (clientSecrets p) = Some (VStr "s1").
Proof.
  cbv zeta.
  destruct (provisionSecrets (rt := exampleRuntime) (fun n => "s" +:+ stringOfNat n)
              (Parsed stringAllowlistDoc)) as [[p|]|m] eqn:Hrun;
    [|vm_compute in Hrun; discriminate Hrun..].
  destruct (provisioned_secrets_verify (rt := exampleRuntime) _ _ p Hrun)
    as (fs & cs & cs' & Hfile & Hcs & Hcs' & Hlen & _ & _ & _ & Hall).
  injection Hfile as <-. cbn in Hcs. injection Hcs as <-.
  destruct (Hall 0%nat _ eq_refl) as (c' & Hc' & _ & _ & Hkey & Hsec).
  destruct cs' as [|x [|y cs']]; try discriminate Hlen. cbn in Hc'. injection Hc' as ->.
  exists p, c'. split; [reflexivity|]. split; [exact Hcs'|]. split.
  - vm_compute in Hrun. injection Hrun as <-. cbn in Hcs'. injection Hcs' as <-.
    reflexivity.
  - split; [exact Hkey|]. apply Hsec.
    + intros j c2 Hj Hc2. destruct j; [lia|]. discriminate Hc2.
    + discriminate.
Defined.

(** ** Deliveries and open connections *)

Section DeliveryFacts.
Context {rt : Runtime} {config : Config}.




End DeliveryFacts.



(** ** Quoting for the shell *)

Lemma shellRead_escapeQuotes (s : string) :
  shellRead true (escapeQuotes s +:+ String singleQuote "") = Some s.
Proof.
  induction s as [|a s IH]; [reflexivity|]. cbn [escapeQuotes].
  destruct (Ascii.eqb a singleQuote) eqn:E.
  - apply Ascii.eqb_eq in E. subst a.
    change (String singleQuote <$>
              shellRead true (escapeQuotes s +:+ String singleQuote "") =
            Some (String singleQuote s)).
    now rewrite IH.
  - change (shellRead true (String a (escapeQuotes s +:+ String singleQuote "")) =
            Some (String a s)).
    change ((if Ascii.eqb a singleQuote
             then shellRead false (escapeQuotes s +:+ String singleQuote "")
             else String a <$> shellRead true (escapeQuotes s +:+ String singleQuote "")) =
            Some (String a s)).
    now rewrite E, IH.
Qed.

(** X14: what [shellQuote] returns is one shell word that stands for the
    text it was given.  A shell reading the result finds a single word,
    every character of which is quoted, and the word it reads is
    [String(value)] (the empty text for [undefined] and [null]), whatever
    quotes, spaces or metacharacters the text holds. *)
Theorem shellQuote_reads_back (v : value) :
  shellRead false (shellQuote v) = Some (shellText v).
Proof.
  unfold shellQuote.
  change (shellRead true (escapeQuotes (shellText v) +:+ String singleQuote "") =
          Some (shellText v)).
  apply shellRead_escapeQuotes.
Qed.

(** A text with a quote and shell syntax in it. *)
Example shellQuote_hostile :
  shellQuote (VStr "a'; rm -rf ~ #") = "'a'\''; rm -rf ~ #'" /\
  shellRead false "'a'\''; rm -rf ~ #'" = Some "a'; rm -rf ~ #".
Proof. split; reflexivity. Qed.

(** ** The search path for child processes *)


Lemma splitOn_no_sep (sep : ascii) (s p : string) :
  p ∈ splitOn sep s -> indexOf sep p = None.
Proof.
  revert p. induction s as [|a s IH]; intros p; cbn.
  - intros H. apply list_elem_of_singleton in H. now subst p.
  - destruct (Ascii.eqb a sep) eqn:E.
    + intros H. apply elem_of_cons in H as [->|H]; [reflexivity|now apply IH].
    + destruct (splitOn sep s) as [|h t] eqn:Es.
      * intros H. apply list_elem_of_singleton in H. subst p. cbn. now rewrite E.
      * intros H. apply elem_of_cons in H as [->|H].
        -- cbn. rewrite E. rewrite (IH h); [reflexivity|left].
        -- apply IH. now right.
Qed.

Lemma splitOn_plain (sep : ascii) (p : string) :
  indexOf sep p = None -> splitOn sep p = [p].
Proof.
  induction p as [|a p IH]; cbn; [reflexivity|].
  destruct (Ascii.eqb a sep); [discriminate|].
  destruct (indexOf sep p); [discriminate|]. intros _. now rewrite IH.
Qed.

Lemma splitOn_app (sep : ascii) (p t : string) :
  indexOf sep p = None -> splitOn sep (p +:+ String sep t) = p :: splitOn sep t.
Proof.
  induction p as [|a p IH].
  - intros _. change ("" +:+ String sep t) with (String sep t).
    cbn [splitOn]. now rewrite Ascii.eqb_refl.
  - cbn [indexOf]. destruct (Ascii.eqb a sep) eqn:E; [discriminate|].
    destruct (indexOf sep p); [discriminate|]. intros _.
    change (String a p +:+ String sep t) with (String a (p +:+ String sep t)).
    cbn [splitOn]. now rewrite E, IH.
Qed.

Lemma splitOn_joinWith (sep : ascii) (parts : list string) :
  parts <> [] -> (forall p, p ∈ parts -> indexOf sep p = None) ->
  splitOn sep (joinWith sep parts) = parts.
Proof.
  induction parts as [|p parts IH]; [easy|]. intros _ Hall.
  destruct parts as [|q parts].
  - cbn. apply splitOn_plain, Hall. left.
  - change (joinWith sep (p :: q :: parts))
      with (p +:+ String sep (joinWith sep (q :: parts))).
    rewrite splitOn_app by (apply Hall; left). f_equal.
    apply IH; [discriminate|]. intros x Hx. apply Hall. now right.
Qed.

Lemma mergeInto_app (merged a b : list string) :
  mergeInto merged (a ++ b) = mergeInto (mergeInto merged a) b.
Proof.
  revert merged. induction a as [|x a IH]; intros merged; cbn; [reflexivity|].
  destruct (_ || _); apply IH.
Qed.

Lemma mergeInto_fresh (merged items : list string) :
  NoDup (merged ++ items) -> (forall x, x ∈ items -> x <> "") ->
  mergeInto merged items = merged ++ items.
Proof.
  revert merged. induction items as [|x items IH]; intros merged Hnd Hne; cbn.
  - now rewrite app_nil_r.
  - assert (Hx : String.eqb x "" || bool_decide (x ∈ merged) = false).
    { apply orb_false_iff. split.
      - apply String.eqb_neq, Hne. left.
      - apply bool_decide_eq_false. apply NoDup_app in Hnd as (_ & Hdis & _).
        intros Hin. apply (Hdis x Hin). left. }
    rewrite Hx. rewrite (cons_middle x merged items), app_assoc in Hnd |- *.
    apply IH; [exact Hnd|]. intros y Hy. apply Hne. now right.
Qed.

Lemma mergeInto_known (merged items : list string) :
  (forall x, x ∈ items -> x = "" \/ x ∈ merged) -> mergeInto merged items = merged.
Proof.
  induction items as [|x items IH]; intros Hall; cbn; [reflexivity|].
  assert (Hx : String.eqb x "" || bool_decide (x ∈ merged) = true).
  { apply orb_true_iff. destruct (Hall x (list_elem_of_here x items)) as [->|Hin].
    - now left.
    - right. now apply bool_decide_eq_true. }
  rewrite Hx. apply IH. intros y Hy. apply Hall. now right.
Qed.

Lemma mergeInto_spec (merged items : list string) :
  NoDup merged -> (forall x, x ∈ merged -> x <> "") ->
  exists extra,
    mergeInto merged items = merged ++ extra /\
    NoDup (merged ++ extra) /\
    (forall x, x ∈ extra <-> x ∈ items /\ x <> "" /\ x ∉ merged).
Proof.
  revert merged. induction items as [|x items IH]; intros merged Hnd Hne; cbn.
  - exists []. rewrite app_nil_r. split; [reflexivity|]. split; [exact Hnd|].
    intros y. split; [inversion 1|]. intros [H _]. inversion H.
  - destruct (String.eqb x "" || bool_decide (x ∈ merged)) eqn:Hx.
    + destruct (IH merged Hnd Hne) as (extra & He & Hn & Hiff).
      exists extra. split; [exact He|]. split; [exact Hn|].
      intros y. rewrite Hiff. split.
      * intros (H1 & H2 & H3). split; [now right|now split].
      * intros (H1 & H2 & H3). split; [|now split].
        apply elem_of_cons in H1 as [->|H1]; [|exact H1].
        apply orb_true_iff in Hx as [Hx|Hx].
        -- apply String.eqb_eq in Hx. contradiction.
        -- apply bool_decide_eq_true in Hx. contradiction.
    + apply orb_false_iff in Hx as [Hx1 Hx2].
      apply String.eqb_neq in Hx1. apply bool_decide_eq_false in Hx2.
      destruct (IH (merged ++ [x])) as (extra & He & Hn & Hiff).
      * apply NoDup_app. split; [exact Hnd|]. split; [|apply NoDup_singleton].
        intros y Hy Hy'. apply list_elem_of_singleton in Hy'. now subst y.
      * intros y Hy. apply elem_of_app in Hy as [Hy|Hy]; [now apply Hne|].
        apply list_elem_of_singleton in Hy. now subst y.
      * exists (x :: extra). rewrite He, <- app_assoc. cbn [app].
        split; [reflexivity|]. split; [now rewrite <- app_assoc in Hn|].
        intros y. rewrite elem_of_cons, Hiff. split.
        -- intros [->|(H1 & H2 & H3)].
           ++ split; [left|now split].
           ++ split; [now right|]. split; [exact H2|].
              intros Hin. apply H3. apply elem_of_app. now left.
        -- intros (H1 & H2 & H3). apply elem_of_cons in H1 as [->|H1]; [now left|].
           destruct (decide (y = x)) as [->|Hyx]; [now left|]. right.
           split; [exact H1|]. split; [exact H2|].
           intros Hin. apply elem_of_app in Hin as [Hin|Hin]; [contradiction|].
           apply list_elem_of_singleton in Hin. contradiction.
Qed.

Lemma filter_nonempty_all (l : list string) :
  (forall p, p ∈ l -> p <> "") -> filter (fun item => item <> "") l = l.
Proof.
  induction l as [|x l IH]; intros Hall; [reflexivity|].
  rewrite filter_cons_True by (apply Hall; left).
  f_equal. apply IH. intros p Hp. apply Hall. now right.
Qed.

Lemma pathEntries_plain :
  NoDup pathEntries /\ forall p, p ∈ pathEntries -> p <> "" /\ indexOf colon p = None.
Proof.
  split.
  - apply (bool_decide_unpack _). vm_compute. reflexivity.
  - intros p Hp. unfold pathEntries in Hp.
    repeat (apply elem_of_cons in Hp as [->|Hp]; [split; [discriminate|reflexivity]|]).
    inversion Hp.
Qed.

(** X15: the search path [preferredPath] builds.  It is a list of
    non-empty directories without repetition that begins with the five
    standard ones, in their order, and goes on with the directories of the
    current path that are not among them, each once; nothing else is in
    it.  Applying it to its own result changes nothing. *)
Theorem preferredPath_spec (currentPath : value) :
  let parts := splitOn colon (preferredPath currentPath) in
  let given := splitOn colon (toString (js_or currentPath (VStr ""))) in
  NoDup parts /\
  (forall p, p ∈ parts -> p <> "") /\
  firstn 5 parts = pathEntries /\
  (forall p, p ∈ parts <-> p ∈ pathEntries \/ (p ∈ given /\ p <> "")) /\
  preferredPath (VStr (preferredPath currentPath)) = preferredPath currentPath.
Proof.
  cbv zeta. unfold preferredPath at 1 2 3 4.
  set (given := splitOn colon (toString (js_or currentPath (VStr "")))).
  set (existing := filter (fun item => item <> "") given).
  destruct pathEntries_plain as [Hnd Hplain].
  assert (Hstart : mergeInto [] pathEntries = pathEntries).
  { apply (mergeInto_fresh [] pathEntries); [exact Hnd|]. intros x Hx. now apply Hplain. }
  destruct (mergeInto_spec pathEntries existing Hnd) as (extra & Hm & Hn & Hiff).
  { intros x Hx. now apply Hplain. }
  assert (Hmerged : mergeInto [] (pathEntries ++ existing) = pathEntries ++ extra).
  { now rewrite mergeInto_app, Hstart. }
  assert (Hextra : forall p, p ∈ extra -> p <> "" /\ indexOf colon p = None).
  { intros p Hp. apply Hiff in Hp as (Hp & Hne & _). split; [exact Hne|].
    apply list_elem_of_filter in Hp as [_ Hp]. now apply (splitOn_no_sep colon _ p) in Hp. }
  assert (Hall : forall p, p ∈ pathEntries ++ extra -> p <> "" /\ indexOf colon p = None).
  { intros p Hp. apply elem_of_app in Hp as [Hp|Hp]; [now apply Hplain|now apply Hextra]. }
  assert (Hsplit : splitOn colon (joinWith colon (pathEntries ++ extra)) =
                   pathEntries ++ extra).
  { apply splitOn_joinWith; [discriminate|]. intros p Hp. now apply Hall. }
  rewrite Hmerged, Hsplit.
  split; [exact Hn|]. split; [intros p Hp; now apply Hall|]. split; [reflexivity|]. split.
  - intros p. rewrite elem_of_app, Hiff. unfold existing. rewrite list_elem_of_filter.
    split.
    + intros [H|((H1 & H2) & H3 & H4)]; [now left|right; now split].
    + intros [H|[H1 H2]]; [now left|].
      destruct (decide (p ∈ pathEntries)) as [Hin|Hout]; [now left|]. right.
      now repeat split.
  - unfold preferredPath at 2 3. fold given. fold existing. rewrite Hmerged.
    assert (Hne : joinWith colon (pathEntries ++ extra) <> "") by discriminate.
    assert (Hbase : toString (js_or (VStr (joinWith colon (pathEntries ++ extra))) (VStr ""))
                    = joinWith colon (pathEntries ++ extra)).
    { unfold js_or. cbn [truthy]. apply String.eqb_neq in Hne. now rewrite Hne. }
    unfold preferredPath. rewrite Hbase, Hsplit. f_equal.
    assert (Hfilter : filter (fun item => item <> "") (pathEntries ++ extra) =
                      pathEntries ++ extra).
    { apply filter_nonempty_all. intros p Hp. now apply Hall. }
    rewrite Hfilter, mergeInto_app, Hstart, mergeInto_app.
    rewrite (mergeInto_known pathEntries pathEntries) by (intros x Hx; now right).
    now apply mergeInto_fresh; [|intros x Hx; apply Hextra].
Qed.

(** A path with a repeated directory, an empty entry and a standard
    one. *)
Example preferredPath_run :
  preferredPath (VStr "/home/me/bin::/usr/bin:/home/me/bin") =
  "/opt/homebrew/opt/node@22/bin:/opt/homebrew/bin:/usr/local/bin:/usr/bin:/bin:/home/me/bin".
Proof. vm_compute. reflexivity. Qed.

(** ** Chunk boundaries *)

Lemma indexOf_append (a : ascii) (s t : string) (i : nat) :
  indexOf a s = Some i -> indexOf a (s +:+ t) = Some i.
Proof.
  revert i. induction s as [|b s IH]; intros i; [discriminate|].
  change (String b s +:+ t) with (String b (s +:+ t)). cbn [indexOf].
  destruct (Ascii.eqb b a); [trivial|].
  destruct (indexOf a s) as [j|]; [|discriminate].
  intros H. now rewrite (IH j eq_refl).
Qed.

Lemma sliceTo_append (i : nat) (s t : string) :
  (i <= String.length s)%nat -> sliceTo i (s +:+ t) = sliceTo i s.
Proof.
  revert s. induction i as [|i IH]; intros [|b s]; cbn [String.length]; intros Hi;
    try lia; try reflexivity.
  change (String b s +:+ t) with (String b (s +:+ t)). cbn [sliceTo].
  rewrite IH by lia. reflexivity.
Qed.

Lemma sliceFrom_append (i : nat) (s t : string) :
  (i <= String.length s)%nat -> sliceFrom i (s +:+ t) = sliceFrom i s +:+ t.
Proof.
  revert s. induction i as [|i IH]; intros [|b s]; cbn [String.length]; intros Hi;
    try lia; try reflexivity.
  change (String b s +:+ t) with (String b (s +:+ t)). cbn [sliceFrom].
  apply IH. lia.
Qed.

Lemma updConn_updConn (c c' : nat) (f g : connState -> connState) (w : world) :
  (forall cs, f (g cs) = g (f cs)) ->
  updConn c' f (updConn c g w) = updConn c g (updConn c' f w).
Proof.
  intros Hfg. unfold updConn, withConns. cbn. f_equal.
  destruct (decide (c' = c)) as [->|Hne].
  - rewrite !list_alter_alter_eq. apply list_alter_ext; [|reflexivity].
    intros cs _. apply Hfg.
  - now apply list_alter_alter_ne.
Qed.

Section ChunkFacts.
Context {rt : Runtime} {config : Config}.

(** Nothing but the data handler itself reads or writes a parse buffer:
    setting the buffer of [c] before an operation or after it comes to the
    same. *)
Section Oblivious.
Variables (c : nat) (x : string).

Lemma sendJson_setBuffer (c' : nat) (f : frame) (w : world) :
  sendJson c' f (setBuffer c x w) = setBuffer c x (sendJson c' f w).
Proof. unfold sendJson, setBuffer. now apply updConn_updConn. Qed.

Lemma destroy_setBuffer (c' : nat) (w : world) :
  destroy c' (setBuffer c x w) = setBuffer c x (destroy c' w).
Proof. unfold destroy, setBuffer. now apply updConn_updConn. Qed.

Lemma setAuthed_setBuffer (c' : nat) (k : value) (w : world) :
  setAuthed c' k (setBuffer c x w) = setBuffer c x (setAuthed c' k w).
Proof. unfold setAuthed, setBuffer. now apply updConn_updConn. Qed.

Lemma authed_setBuffer (c' : nat) (w : world) :
  authed (getConn c' (setBuffer c x w)) = authed (getConn c' w).
Proof. unfold setBuffer. now apply getConn_updConn_proj. Qed.

Lemma clientId_setBuffer (c' : nat) (w : world) :
  clientId (getConn c' (setBuffer c x w)) = clientId (getConn c' w).
Proof. unfold setBuffer. now apply getConn_updConn_proj. Qed.

Lemma destroyed_setBuffer (c' : nat) (w : world) :
  destroyed (getConn c' (setBuffer c x w)) = destroyed (getConn c' w).
Proof. unfold setBuffer. now apply getConn_updConn_proj. Qed.

Lemma getQueue_setBuffer (k : value) (w : world) :
  getQueue k (setBuffer c x w) = ((getQueue k w).1, setBuffer c x (getQueue k w).2).
Proof.
  unfold getQueue. change (pendingQueues (setBuffer c x w)) with (pendingQueues w).
  now destruct (negb (map_has k (pendingQueues w))).
Qed.

Lemma registerConnection_setBuffer (k : value) (c' : nat) (w : world) :
  registerConnection k c' (setBuffer c x w) = setBuffer c x (registerConnection k c' w).
Proof.
  unfold registerConnection.
  change (activeConnections (setBuffer c x w)) with (activeConnections w).
  now destruct (negb (map_has k (activeConnections w))).
Qed.

Lemma unregisterConnection_setBuffer (k : value) (c' : nat) (w : world) :
  unregisterConnection k c' (setBuffer c x w) = setBuffer c x (unregisterConnection k c' w).
Proof.
  unfold unregisterConnection.
  change (activeConnections (setBuffer c x w)) with (activeConnections w).
  destruct (map_get k (activeConnections w)) as [set|]; [|reflexivity].
  now destruct (set_delete c' set).
Qed.

Lemma onClose_setBuffer (c' : nat) (w : world) :
  onClose c' (setBuffer c x w) = setBuffer c x (onClose c' w).
Proof.
  unfold onClose. rewrite clientId_setBuffer.
  destruct (truthy _); [apply unregisterConnection_setBuffer|reflexivity].
Qed.

Lemma fanout_setBuffer (f : frame) (cs : list nat) (w : world) :
  foldl (fun w' conn => sendJson conn f w') (setBuffer c x w) cs =
  setBuffer c x (foldl (fun w' conn => sendJson conn f w') w cs).
Proof.
  revert w. induction cs as [|c' cs IH]; intros w; [reflexivity|].
  cbn [foldl]. now rewrite sendJson_setBuffer, IH.
Qed.

Lemma deliverEnvelope_setBuffer (e : envelope) (w : world) :
  deliverEnvelope e (setBuffer c x w) =
  ((deliverEnvelope e w).1, setBuffer c x (deliverEnvelope e w).2).
Proof.
  unfold deliverEnvelope.
  change (activeConnections (setBuffer c x w)) with (activeConnections w).
  destruct (map_get (env_to e) (activeConnections w)) as [[|r rs]|].
  - rewrite getQueue_setBuffer. now destruct (getQueue (env_to e) w).
  - cbn [fst snd]. now rewrite fanout_setBuffer.
  - rewrite getQueue_setBuffer. now destruct (getQueue (env_to e) w).
Qed.

Lemma flushLoop_setBuffer (k : value) (c' : nat) (q : list envelope) (n : nat) (w : world) :
  flushLoop k c' q n (setBuffer c x w) =
  ((flushLoop k c' q n w).1, setBuffer c x (flushLoop k c' q n w).2).
Proof.
  revert n w. induction q as [|e q IH]; intros n w; [reflexivity|].
  cbn [flushLoop].
  change (setQueue k q (setBuffer c x w)) with (setBuffer c x (setQueue k q w)).
  now rewrite sendJson_setBuffer, IH.
Qed.

Lemma flushQueue_setBuffer (k : value) (c' : nat) (w : world) :
  flushQueue k c' (setBuffer c x w) =
  ((flushQueue k c' w).1, setBuffer c x (flushQueue k c' w).2).
Proof.
  unfold flushQueue. rewrite getQueue_setBuffer.
  destruct (getQueue k w) as [[|e q] w1]; cbn [fst snd]; [reflexivity|].
  apply flushLoop_setBuffer.
Qed.

Lemma handleSend_setBuffer (c' : nat) (msg : value) (w : world) :
  handleSend c' msg (setBuffer c x w) = setBuffer c x (handleSend c' msg w).
Proof.
  unfold handleSend. rewrite clientId_setBuffer.
  destruct (_ || _); [apply sendJson_setBuffer|].
  destruct (negb (map_has _ _)); [apply sendJson_setBuffer|].
  destruct (negb (canRoute _ _)); [apply sendJson_setBuffer|].
  destruct (truthy (field msg "id")).
  - change (nowIso (setBuffer c x w)) with ((nowIso w).1, setBuffer c x (nowIso w).2).
    destruct (nowIso w) as [ts w2]. cbn [fst snd]. cbv zeta.
    rewrite deliverEnvelope_setBuffer.
    destruct (deliverEnvelope _ w2) as [r w3]. cbn [fst snd].
    apply sendJson_setBuffer.
  - change (randomId "m" (setBuffer c x w))
      with ((randomId "m" w).1, setBuffer c x (randomId "m" w).2).
    destruct (randomId "m" w) as [r0 w1]. cbn [fst snd].
    change (nowIso (setBuffer c x w1)) with ((nowIso w1).1, setBuffer c x (nowIso w1).2).
    destruct (nowIso w1) as [ts w2]. cbn [fst snd]. cbv zeta.
    rewrite deliverEnvelope_setBuffer.
    destruct (deliverEnvelope _ w2) as [r w3]. cbn [fst snd].
    apply sendJson_setBuffer.
Qed.

Lemma handleUnauthed_setBuffer (c' : nat) (msg : value) (w : world) :
  handleUnauthed c' msg (setBuffer c x w) =
  attempt r <- handleUnauthed c' msg w ;; Ok (r.1, setBuffer c x r.2).
Proof.
  unfold handleUnauthed.
  destruct (negb (isStr _ _)); [cbn [bind fst snd]; now rewrite sendJson_setBuffer|].
  assert (Hreject : Ok (Return, destroy c' (sendJson c' FAuthFailed (setBuffer c x w))) =
                    attempt r <- Ok (Return, destroy c' (sendJson c' FAuthFailed w)) ;;
                    Ok (r.1, setBuffer c x r.2)).
  { cbn [bind fst snd]. now rewrite sendJson_setBuffer, destroy_setBuffer. }
  destruct (map_get _ clientsById) as [cd|]; [|exact Hreject].
  destruct (safeCompareHash _ _) as [same|m]; cbn [bind]; [|reflexivity].
  destruct (negb same); [exact Hreject|].
  rewrite setAuthed_setBuffer, registerConnection_setBuffer, getQueue_setBuffer.
  destruct (getQueue _ _) as [q w3]. cbn [fst snd].
  change (nowIso (setBuffer c x w3)) with ((nowIso w3).1, setBuffer c x (nowIso w3).2).
  destruct (nowIso w3) as [ts w4]. cbn [fst snd].
  rewrite sendJson_setBuffer, flushQueue_setBuffer.
  now destruct (flushQueue _ _ _) as [n w6].
Qed.

Lemma dispatch_setBuffer (c' : nat) (line : string) (w : world) :
  dispatch c' line (setBuffer c x w) =
  attempt r <- dispatch c' line w ;; Ok (r.1, setBuffer c x r.2).
Proof.
  unfold dispatch. cbv zeta. rewrite authed_setBuffer, clientId_setBuffer.
  destruct (negb (truthy _)); [cbn [bind fst snd]; now rewrite sendJson_setBuffer|].
  destruct (negb (authed _)); [apply handleUnauthed_setBuffer|].
  destruct (isStr _ "ping").
  { change (nowIso (setBuffer c x w)) with ((nowIso w).1, setBuffer c x (nowIso w).2).
    destruct (nowIso w) as [ts w1]. cbn [bind fst snd]. now rewrite sendJson_setBuffer. }
  destruct (isStr _ "send"); [cbn [bind fst snd]; now rewrite handleSend_setBuffer|].
  destruct (isStr _ "whoami"); [|cbn [bind fst snd]; now rewrite sendJson_setBuffer].
  destruct (map_get _ clientsById) as [cd|]; [|reflexivity].
  change (nowIso (setBuffer c x w)) with ((nowIso w).1, setBuffer c x (nowIso w).2).
  destruct (nowIso w) as [ts w1]. cbn [bind fst snd]. now rewrite sendJson_setBuffer.
Qed.

Lemma handleFrame_setBuffer (c' : nat) (line : string) (w : world) :
  handleFrame c' line (setBuffer c x w) =
  attempt r <- handleFrame c' line w ;; Ok (r.1, setBuffer c x r.2).
Proof.
  unfold handleFrame. destruct (String.eqb line ""); [reflexivity|].
  destruct (_ >? _); [cbn [bind fst snd]; now rewrite sendJson_setBuffer|].
  apply dispatch_setBuffer.
Qed.

End Oblivious.

Lemma handleFrame_length (c : nat) (line : string) (w w' : world) (ctl : control) :
  valid c w -> handleFrame c line w = Ok (ctl, w') ->
  length (conns w') = length (conns w).
Proof.
  apply (R_handleFrame_plain (fun w w' => length (conns w') = length (conns w))).
  - reflexivity.
  - intros w1 w2 w3 H1 H2. now rewrite H2.
  - intros c0 f w0. apply length_conns_updConn.
  - intros c0 w0. apply length_conns_updConn.
  - reflexivity.
  - reflexivity.
  - intros k w0. now rewrite conns_getQueue.
  - intros e w0. now destruct (benign_deliverEnvelope e w0) as [(H & _) _].
  - intros k c0 w0. now destruct (benign_flushQueue k c0 w0) as [(H & _) _].
  - intros c0 k cd w0 _ _. rewrite conns_registerConnection. apply length_conns_updConn.
Qed.

(** A frame that ends the loop has destroyed the socket; one after which
    the loop goes on has left it as it was. *)
Lemma handleFrame_control (c : nat) (line : string) (w w' : world) (ctl : control) :
  valid c w -> handleFrame c line w = Ok (ctl, w') ->
  destroyed (getConn c w') =
  match ctl with Return => true | Continue => destroyed (getConn c w) end.
Proof.
  intros Hc. unfold handleFrame.
  destruct (String.eqb line ""); [now intros [= <- <-]|].
  destruct (_ >? _); [intros [= <- <-]; apply sameDestroyed_sendJson|].
  unfold dispatch. cbv zeta.
  destruct (negb (truthy _)); [intros [= <- <-]; apply sameDestroyed_sendJson|].
  destruct (negb (authed _)).
  - unfold handleUnauthed.
    destruct (negb (isStr _ _)); [intros [= <- <-]; apply sameDestroyed_sendJson|].
    assert (Hreject : Ok (Return, destroy c (sendJson c FAuthFailed w)) = Ok (ctl, w') ->
              destroyed (getConn c w') =
              match ctl with Return => true | Continue => destroyed (getConn c w) end).
    { intros [= <- <-]. unfold destroy. rewrite getConn_updConn_same; [reflexivity|].
      unfold sendJson. now rewrite length_conns_updConn. }
    destruct (map_get _ clientsById) as [cd|]; [|exact Hreject].
    destruct (safeCompareHash _ _) as [same|m]; cbn [bind]; [|discriminate].
    destruct (negb same); [exact Hreject|].
    set (w2 := registerConnection _ c _).
    pose proof (conns_getQueue (client_id cd) w2) as Hq.
    destruct (getQueue _ w2) as [q w3]. cbn [snd] in Hq.
    destruct (nowIso w3) as [ts w4] eqn:Hts.
    assert (Hw4 : conns w4 = conns w3) by (injection Hts as _ <-; reflexivity).
    set (w5 := sendJson c _ w4).
    pose proof (sameDestroyed_flushQueue (client_id cd) c w5 c) as Hf.
    destruct (flushQueue _ c w5) as [n w6]. cbn [snd] in Hf.
    intros [= <- <-]. rewrite Hf. unfold w5. rewrite sameDestroyed_sendJson.
    rewrite (getConn_same_conns c w3 w4 Hw4), (getConn_same_conns c w2 w3 Hq).
    unfold w2. rewrite (getConn_same_conns c _ _ (conns_registerConnection _ _ _)).
    unfold setAuthed. now apply getConn_updConn_proj.
  - destruct (isStr _ "ping").
    { destruct (nowIso w) as [ts w1] eqn:Hts. intros [= <- <-].
      rewrite sameDestroyed_sendJson. injection Hts as _ <-. reflexivity. }
    destruct (isStr _ "send"); [intros [= <- <-]; apply sameDestroyed_handleSend|].
    destruct (isStr _ "whoami"); [|intros [= <- <-]; apply sameDestroyed_sendJson].
    destruct (map_get _ clientsById) as [cd|]; [|discriminate].
    destruct (nowIso w) as [ts w1] eqn:Hts. intros [= <- <-].
    rewrite sameDestroyed_sendJson. injection Hts as _ <-. reflexivity.
Qed.

(** What the frame loop leaves in the buffer is no longer than what it
    found there, and the loop keeps the connections. *)
Lemma frameLoop_buffer (fuel c : nat) (w w' : world) :
  valid c w -> frameLoop fuel c w = Ok w' ->
  valid c w' /\
  (String.length (buffer (getConn c w')) <= String.length (buffer (getConn c w)))%nat.
Proof.
  revert w. induction fuel as [|fuel IH]; intros w Hc; cbn [frameLoop].
  - intros [= <-]. split; [exact Hc|lia].
  - destruct (indexOf LF (buffer (getConn c w))) as [idx|] eqn:Hidx;
      [|intros [= <-]; split; [exact Hc|lia]].
    set (w1 := setBuffer c _ w).
    assert (Hc1 : valid c w1).
    { unfold valid, w1, setBuffer. now rewrite length_conns_updConn. }
    destruct (handleFrame c _ w1) as [[ctl w2]|m] eqn:Hframe; cbn [bind]; [|discriminate].
    pose proof (handleFrame_sameBuffers _ _ _ _ _ Hc1 Hframe c) as Hbuf.
    pose proof (handleFrame_length _ _ _ _ _ Hc1 Hframe) as Hlen.
    unfold w1 in Hbuf. rewrite buffer_setBuffer in Hbuf by exact Hc.
    assert (Hc2 : valid c w2) by (unfold valid in *; lia).
    assert (Hshort : (String.length (buffer (getConn c w2)) <=
                      String.length (buffer (getConn c w)))%nat).
    { rewrite Hbuf, length_sliceFrom. lia. }
    destruct ctl.
    + intros Hrest. destruct (IH w2 Hc2 Hrest) as [Hv Hl]. split; [exact Hv|lia].
    + intros [= <-]. now split.
Qed.

(** The frame loop on a buffer with more text behind it: the frames of
    the buffer are handled as without the text, and when the socket
    survives them the loop goes on with what they left and the text. *)
Lemma frameLoop_more (b : string) (c n : nat) :
  forall (m : nat) (w : world),
  valid c w -> destroyed (getConn c w) = false ->
  (String.length (buffer (getConn c w)) < n)%nat ->
  (String.length (buffer (getConn c w) +:+ b) < m)%nat ->
  frameLoop m c (setBuffer c (buffer (getConn c w) +:+ b) w) =
  attempt w1 <- frameLoop n c w ;;
  if destroyed (getConn c w1)
  then Ok (setBuffer c (buffer (getConn c w1) +:+ b) w1)
  else frameLoop (S (String.length (buffer (getConn c w1) +:+ b))) c
         (setBuffer c (buffer (getConn c w1) +:+ b) w1).
Proof.
  induction n as [|n IH]; intros m w Hc Hd Hn Hm; [lia|].
  cbn [frameLoop].
  destruct (indexOf LF (buffer (getConn c w))) as [idx|] eqn:Hidx.
  - destruct m as [|m]; [lia|]. cbn [frameLoop].
    rewrite buffer_setBuffer by exact Hc.
    rewrite (indexOf_append _ _ b _ Hidx).
    pose proof (indexOf_lt _ _ _ Hidx) as Hlt.
    rewrite sliceTo_append, sliceFrom_append by lia.
    rewrite setBuffer_setBuffer.
    set (line := trim _). set (rest := sliceFrom _ _).
    rewrite <- (setBuffer_setBuffer c rest (rest +:+ b) w).
    rewrite handleFrame_setBuffer.
    assert (Hc1 : valid c (setBuffer c rest w)).
    { unfold valid, setBuffer. now rewrite length_conns_updConn. }
    destruct (handleFrame c line (setBuffer c rest w)) as [[ctl w2]|msg] eqn:Hframe;
      cbn [bind fst snd]; [|reflexivity].
    pose proof (handleFrame_sameBuffers _ _ _ _ _ Hc1 Hframe c) as Hbuf.
    pose proof (handleFrame_length _ _ _ _ _ Hc1 Hframe) as Hlen.
    pose proof (handleFrame_control _ _ _ _ _ Hc1 Hframe) as Hctl.
    rewrite buffer_setBuffer in Hbuf by exact Hc.
    rewrite destroyed_setBuffer in Hctl.
    assert (Hc2 : valid c w2) by (unfold valid in *; lia).
    assert (Hrest : String.length rest = (String.length (buffer (getConn c w)) - S idx)%nat)
      by apply length_sliceFrom.
    destruct ctl.
    + rewrite <- Hbuf. apply IH.
      * exact Hc2.
      * now rewrite Hctl.
      * rewrite Hbuf. lia.
      * rewrite Hbuf. rewrite length_append in *. lia.
    + cbn [bind]. now rewrite Hctl, Hbuf.
  - cbn [bind]. rewrite Hd.
    apply (frameLoop_fuel m (S (String.length (buffer (getConn c w) +:+ b))) c
             (setBuffer c (buffer (getConn c w) +:+ b) w)).
    + now rewrite buffer_setBuffer.
    + rewrite buffer_setBuffer by exact Hc. lia.
Qed.

Lemma gtb_false (x y : Z) : x <= y -> (x >? y) = false.
Proof. intros H. rewrite Z.gtb_ltb. now apply Z.ltb_ge. Qed.

(** The data handler on a text given whole, against the handler on its
    first part followed, when the socket is still open, by the handler on
    the rest. *)
Lemma onData_append (c : nat) (a b : string) (w : world) :
  valid c w -> destroyed (getConn c w) = false ->
  byteLength (buffer (getConn c w) +:+ a +:+ b) <= maxMessageBytes * 2 ->
  onData c (a +:+ b) w =
  attempt w1 <- onData c a w ;;
  if destroyed (getConn c w1)
  then Ok (setBuffer c (buffer (getConn c w1) +:+ b) w1)
  else onData c b w1.
Proof.
  intros Hc Hd Hfit. unfold onData.
  rewrite !buffer_setBuffer by exact Hc.
  rewrite (gtb_false _ _ Hfit).
  assert (Hfit1 : byteLength (buffer (getConn c w) +:+ a) <= maxMessageBytes * 2).
  { unfold byteLength in *. rewrite <- append_assoc, length_append in Hfit. lia. }
  rewrite (gtb_false _ _ Hfit1).
  set (wa := setBuffer c (buffer (getConn c w) +:+ a) w).
  assert (Hca : valid c wa).
  { unfold valid, wa, setBuffer. now rewrite length_conns_updConn. }
  assert (Hba : buffer (getConn c wa) = buffer (getConn c w) +:+ a).
  { unfold wa. now apply buffer_setBuffer. }
  assert (Hwhole : setBuffer c (buffer (getConn c w) +:+ a +:+ b) w =
                   setBuffer c (buffer (getConn c wa) +:+ b) wa).
  { rewrite Hba, append_assoc. unfold wa. now rewrite setBuffer_setBuffer. }
  rewrite Hwhole.
  rewrite (frameLoop_more b c (S (String.length (buffer (getConn c w) +:+ a))) _ wa);
    [|exact Hca|unfold wa; now rewrite destroyed_setBuffer|rewrite Hba; lia
     |rewrite Hba, append_assoc; lia].
  destruct (frameLoop _ c wa) as [w1|msg] eqn:Hloop; cbn [bind]; [|reflexivity].
  destruct (destroyed (getConn c w1)); [reflexivity|].
  destruct (frameLoop_buffer _ _ _ _ Hca Hloop) as [Hc1 Hshort].
  rewrite !buffer_setBuffer by exact Hc1.
  replace (_ >? _) with false; [reflexivity|]. symmetry. apply gtb_false.
  unfold byteLength in *. rewrite Hba in Hshort.
  rewrite <- append_assoc in Hfit. rewrite !length_append in *. lia.
Qed.

(** X16: a text that arrives on an open connection in two chunks is
    handled as if it had arrived in one, as long as the parse buffer with
    the whole text stays within twice [maxMessageBytes]: the state after
    the one chunk is the state after the two.  When the first chunk gets
    the socket destroyed the second is never delivered, and the states
    differ in that the rest of the text sits in the dead connection's
    buffer, and in nothing else. *)
Theorem chunk_boundary_is_immaterial (c : nat) (a b : string) (w : world) :
  live c w = true ->
  byteLength (buffer (getConn c w) +:+ a +:+ b) <= maxMessageBytes * 2 ->
  step (Data c (a +:+ b)) w =
  attempt w1 <- step (Data c a) w ;;
  if live c w1 then step (Data c b) w1
  else Ok (setBuffer c (buffer (getConn c w1) +:+ b) w1).
Proof.
  intros Hlive Hfit. pose proof Hlive as Hl. apply live_destroyed in Hl as [Hc Hd].
  cbn [step]. rewrite Hlive, (onData_append c a b w Hc Hd Hfit).
  destruct (onData c a w) as [w1|msg] eqn:Ha; cbn [bind]; [|reflexivity].
  assert (Hc1 : valid c w1).
  { unfold onData in Ha. destruct (_ >? _).
    - injection Ha as <-. unfold valid, destroy, sendJson, setBuffer.
      now rewrite !length_conns_updConn.
    - apply frameLoop_buffer in Ha; [tauto|].
      unfold valid, setBuffer. now rewrite length_conns_updConn. }
  destruct (destroyed (getConn c w1)) eqn:Hd1; cbn [bind].
  - rewrite destroyed_setBuffer, Hd1, onClose_setBuffer.
    assert (Hdead : live c (onClose c w1) = false).
    { apply not_true_is_false. intros H. apply live_destroyed in H as [_ H].
      rewrite (getConn_same_conns c w1 _ (conns_onClose c w1)) in H. congruence. }
    rewrite Hdead. now rewrite (getConn_same_conns c w1 _ (conns_onClose c w1)).
  - assert (Hopen : live c w1 = true) by (apply live_destroyed; now split).
    now rewrite Hopen.
Qed.
End ChunkFacts.

(** The agent's [auth] line cut in two, with a [ping] behind it: the
    connection is authenticated and the ping answered, as with the text in
    one piece. *)
Lemma chunk_boundary_is_immaterial_witness :
  live 0 (stateAfter [Connect]) = true /\
  byteLength (buffer (getConn 0 (stateAfter [Connect])) +:+ firstChunk +:+ secondChunk)
    <= maxMessageBytes (Config := exampleConfig) * 2 /\
  step (rt := exampleRuntime) (config := exampleConfig)
    (Data 0 (firstChunk +:+ secondChunk)) (stateAfter [Connect]) =
  (attempt w1 <- step (rt := exampleRuntime) (config := exampleConfig)
                   (Data 0 firstChunk) (stateAfter [Connect]) ;;
   if live 0 w1
   then step (rt := exampleRuntime) (config := exampleConfig) (Data 0 secondChunk) w1
   else Ok (setBuffer 0 (buffer (getConn 0 w1) +:+ secondChunk) w1)) /\
  written (getConn 0 (stateAfter [Connect; Data 0 firstChunk])) = [] /\
  written (getConn 0 (stateAfter [Connect; Data 0 firstChunk; Data 0 secondChunk])) =
    [FAuthOk (VStr "agent-client") 0 "t0"; FPong "t1"].
Proof.
  split; [reflexivity|]. split; [vm_compute; discriminate|]. split.
  - apply (chunk_boundary_is_immaterial (rt := exampleRuntime) (config := exampleConfig)
             0 firstChunk secondChunk (stateAfter [Connect])).
    + reflexivity.
    + vm_compute. discriminate.
  - split; vm_compute; reflexivity.
Defined.

(** ** One reply for each request *)




Section ReplyFacts.
Context {rt : Runtime} {config : Config}.













End ReplyFacts.


Example replies_of_threeLines :
  replies 0 (stateAfter [Connect; Data 0 threeLines]) =
    [FError "auth_required"; FAuthOk (VStr "agent-client") 0 "t0"] /\
  length (requestLines threeLines) = 2%nat.
Proof. split; vm_compute; reflexivity. Qed.

(** ** Envelopes arrive in order *)

Section OrderFacts.
Context {rt : Runtime} {config : Config}.

Lemma stamped_nil (n : nat) : stamped n [].
Proof. exists []. repeat split; constructor. Qed.

Lemma stamped_mono (n m : nat) (es : list envelope) :
  (n <= m)%nat -> stamped n es -> stamped m es.
Proof.
  intros Hnm (ns & E & Hs & Hf). exists ns. split; [exact E|]. split; [exact Hs|].
  eapply Forall_impl; [exact Hf|]. cbn. intros i Hi. lia.
Qed.

Lemma stamped_snoc (n : nat) (es : list envelope) (e : envelope) :
  stamped n es -> env_ts e = clock n -> stamped (S n) (es ++ [e]).
Proof.
  intros (ns & E & Hs & Hf) He. exists (ns ++ [n]). split; [|split].
  - rewrite !map_app, E. cbn [map]. now rewrite He.
  - apply StronglySorted_app_2; [|exact Hs|repeat constructor].
    intros i j Hi Hj. apply list_elem_of_singleton in Hj. subst j.
    rewrite Forall_forall in Hf. now apply Hf.
  - apply Forall_app. split.
    + eapply Forall_impl; [exact Hf|]. cbn. intros i Hi. lia.
    + repeat constructor.
Qed.

Lemma stamped_tail (n : nat) (es : list envelope) : stamped n es -> stamped n (tail es).
Proof.
  destruct es as [|e es]; [trivial|]. cbn [tail]. intros (ns & E & Hs & Hf).
  destruct ns as [|i ns]; [discriminate|]. cbn [map] in E. injection E as _ E.
  exists ns. split; [exact E|]. split; [now inversion Hs|now inversion Hf].
Qed.

Lemma messagesOf_same_conns (c : nat) (w w' : world) :
  conns w' = conns w -> messagesOf c w' = messagesOf c w.
Proof. intros H. unfold messagesOf. now rewrite (getConn_same_conns c w w' H). Qed.

Lemma messagesOf_updConn (c c' : nat) (f : connState -> connState) (w : world) :
  (forall cs, written (f cs) = written cs) ->
  messagesOf c (updConn c' f w) = messagesOf c w.
Proof. intros Hf. unfold messagesOf. now rewrite (getConn_updConn_proj written). Qed.

Lemma messagesOf_reply (c c' : nat) (f : frame) (w : world) :
  isReply f = true -> messagesOf c (sendJson c' f w) = messagesOf c w.
Proof.
  intros Hf. unfold messagesOf, sendJson.
  destruct (getConn_updConn_cases c c' (fun cs =>
    {| written := written cs ++ [f]; destroyed := destroyed cs;
       buffer := buffer cs; authed := authed cs; clientId := clientId cs |}) w)
    as [-> | ->]; [reflexivity|].
  cbn [written]. rewrite omap_app. destruct f; try discriminate; cbn; apply app_nil_r.
Qed.

Lemma messagesOf_fanout (e : envelope) (cs : list nat) (w : world) (c : nat) :
  NoDup cs -> (forall c', c' ∈ cs -> valid c' w) ->
  messagesOf c (foldl (fun w' conn => sendJson conn (FMessage e) w') w cs) =
  messagesOf c w ++ (if bool_decide (c ∈ cs) then [e] else []).
Proof.
  intros Hnd Hv. unfold messagesOf. rewrite (written_fanout _ _ _ _ Hnd Hv), omap_app.
  now destruct (bool_decide (c ∈ cs)).
Qed.

Lemma clockCalls_fanout (f : frame) (cs : list nat) (w : world) :
  clockCalls (foldl (fun w' conn => sendJson conn f w') w cs) = clockCalls w.
Proof.
  revert w. induction cs as [|a cs IH]; intros w; [reflexivity|].
  cbn [foldl]. now rewrite IH.
Qed.

(** An unauthenticated connection has received no envelope. *)
Lemma messagesOf_unauthed (c : nat) (w : world) :
  addressed w -> authed (getConn c w) = false -> messagesOf c w = [].
Proof.
  intros (_ & _ & Hw) Hau. destruct (messagesOf c w) as [|e es] eqn:E; [reflexivity|].
  assert (He : e ∈ messagesOf c w) by (rewrite E; left).
  apply list_elem_of_omap in He as (f & Hf & Hfe).
  destruct f; try discriminate. injection Hfe as ->.
  destruct (Hw c e Hf) as [Ha _]. congruence.
Qed.

Lemma keepsMessages_refl (w : world) : keepsMessages w w.
Proof. split; [reflexivity|]. split; [intros k q H; now right|lia]. Qed.

Lemma keepsMessages_trans (w1 w2 w3 : world) :
  keepsMessages w1 w2 -> keepsMessages w2 w3 -> keepsMessages w1 w3.
Proof.
  intros (M1 & Q1 & C1) (M2 & Q2 & C2). split; [|split].
  - intros c. now rewrite M2, M1.
  - intros k q H. destruct (Q2 k q H) as [->|H2]; [now left|]. exact (Q1 k q H2).
  - lia.
Qed.

Lemma keepsMessages_same (w w' : world) :
  conns w' = conns w -> pendingQueues w' = pendingQueues w ->
  (clockCalls w <= clockCalls w')%nat -> keepsMessages w w'.
Proof.
  intros Hc Hq Hn. split; [|split; [|exact Hn]].
  - intros c. now apply messagesOf_same_conns.
  - intros k q H. right. now rewrite <- Hq.
Qed.

Lemma keepsMessages_updConn (c : nat) (f : connState -> connState) (w : world) :
  (forall cs, written (f cs) = written cs) -> keepsMessages w (updConn c f w).
Proof.
  intros Hf. split; [|split].
  - intros c0. now apply messagesOf_updConn.
  - intros k q H. now right.
  - reflexivity.
Qed.

Lemma keepsMessages_reply (c : nat) (f : frame) (w : world) :
  isReply f = true -> keepsMessages w (sendJson c f w).
Proof.
  intros Hf. split; [|split].
  - intros c0. now apply messagesOf_reply.
  - intros k q H. now right.
  - reflexivity.
Qed.

Lemma keepsMessages_getQueue (k : value) (w : world) : keepsMessages w (getQueue k w).2.
Proof.
  split; [|split].
  - intros c. apply messagesOf_same_conns, conns_getQueue.
  - intros k0 q. unfold getQueue. cbn [snd]. destruct (negb _); [|now right].
    cbn. intros H. apply elem_of_map_set in H as [H|[_ ->]]; [now right|now left].
  - unfold getQueue. cbn [snd]. now destruct (negb _).
Qed.

Lemma keepsMessages_nowIso (w : world) : keepsMessages w (nowIso w).2.
Proof. apply keepsMessages_same; cbn; try reflexivity. lia. Qed.

Lemma keepsMessages_onClose (c : nat) (w : world) : keepsMessages w (onClose c w).
Proof.
  apply keepsMessages_same.
  - apply conns_onClose.
  - apply pendingQueues_onClose.
  - unfold onClose. destruct (truthy _); [|reflexivity].
    unfold unregisterConnection. destruct (map_get _ _) as [set|]; [|reflexivity].
    now destruct (set_delete c set).
Qed.

Lemma inOrder_keeps (w w' : world) : keepsMessages w w' -> inOrder w -> inOrder w'.
Proof.
  intros (M & Q & C) [Hm Hq]. split.
  - intros c. rewrite M. eapply stamped_mono; [exact C|apply Hm].
  - intros k q H. destruct (Q k q H) as [->|H']; [apply stamped_nil|].
    eapply stamped_mono; [exact C|]. now apply (Hq k).
Qed.

Lemma stamped_queueOf (k : value) (w : world) :
  inOrder w -> stamped (clockCalls w) (queueOf k w).
Proof.
  intros [_ Hq]. unfold queueOf.
  destruct (map_get k (pendingQueues w)) as [q|] eqn:E; [|apply stamped_nil].
  destruct (map_get_elem_of _ _ _ E) as (k' & Hin & _). now apply (Hq k').
Qed.

(** The router on an envelope stamped with the reading the clock has just
    given. *)
Lemma inOrder_deliverEnvelope (e : envelope) (w w2 : world) :
  wf w -> inOrder w ->
  conns w2 = conns w -> activeConnections w2 = activeConnections w ->
  pendingQueues w2 = pendingQueues w -> clockCalls w2 = S (clockCalls w) ->
  env_ts e = clock (clockCalls w) ->
  inOrder (deliverEnvelope e w2).2.
Proof.
  intros [Hact _] Hord Hc Ha Hq Hn He.
  assert (Hm2 : forall c, stamped (clockCalls w) (messagesOf c w2)).
  { intros c. rewrite (messagesOf_same_conns c w w2 Hc). apply Hord. }
  assert (Hq2 : forall k q, (k, q) ∈ pendingQueues w2 -> stamped (clockCalls w) q).
  { intros k q. rewrite Hq. apply Hord. }
  destruct (decide (connectionsOf (env_to e) w2 = [])) as [Hoff|Hon].
  - rewrite (deliverEnvelope_offline e w2 Hoff). cbn [snd]. split.
    + intros c. cbn [clockCalls setQueue withQueues].
      rewrite (messagesOf_same_conns c w2) by (cbn; apply conns_getQueue).
      destruct (keepsMessages_getQueue (env_to e) w2) as (_ & _ & Hclock).
      eapply stamped_mono; [|apply Hm2]. lia.
    + assert (Hclock : clockCalls (getQueue (env_to e) w2).2 = S (clockCalls w)).
      { unfold getQueue. cbn [snd]. now destruct (negb _). }
      intros k q. cbn [clockCalls pendingQueues setQueue withQueues]. rewrite Hclock.
      intros H. apply elem_of_map_set in H as [H|[_ ->]].
      * destruct (keepsMessages_getQueue (env_to e) w2) as (_ & Hk & _).
        destruct (Hk k q H) as [->|H']; [apply stamped_nil|].
        eapply stamped_mono; [|exact (Hq2 k q H')]. lia.
      * assert (Hnew : stamped (S (clockCalls w)) (queueOf (env_to e) w2 ++ [e])).
        { apply stamped_snoc; [|exact He]. unfold queueOf.
          destruct (map_get _ (pendingQueues w2)) as [q0|] eqn:E; [|apply stamped_nil].
          destruct (map_get_elem_of _ _ _ E) as (k' & Hin & _). now apply (Hq2 k'). }
        destruct (_ >? _); [now apply stamped_tail|exact Hnew].
  - rewrite (deliverEnvelope_online e w2 Hon). cbn [snd].
    assert (Hset : NoDup (connectionsOf (env_to e) w2) /\
                   forall c, c ∈ connectionsOf (env_to e) w2 -> valid c w2).
    { unfold connectionsOf in *.
      destruct (map_get _ (activeConnections w2)) as [set|] eqn:E; [|now destruct Hon].
      destruct (map_get_elem_of _ _ _ E) as (k' & Hin & _). rewrite Ha in Hin.
      destruct (Hact k' set Hin) as [Hnd Hv]. split; [exact Hnd|].
      intros c Hin'. unfold valid. rewrite Hc. now apply Hv. }
    destruct Hset as [Hnd Hv]. split.
    + intros c. rewrite clockCalls_fanout, Hn, (messagesOf_fanout _ _ _ _ Hnd Hv).
      destruct (bool_decide _).
      * apply stamped_snoc; [apply Hm2|exact He].
      * rewrite app_nil_r. eapply stamped_mono; [|apply Hm2]. lia.
    + intros k q. rewrite clockCalls_fanout, Hn, pendingQueues_fanout. intros H.
      eapply stamped_mono; [|exact (Hq2 k q H)]. lia.
Qed.

Lemma inOrder_handleSend (c : nat) (msg : value) (w : world) :
  wf w -> inOrder w -> inOrder (handleSend c msg w).
Proof.
  intros Hwf Hord. unfold handleSend.
  destruct (_ || _); [eapply inOrder_keeps; [now apply keepsMessages_reply|exact Hord]|].
  destruct (negb (map_has _ _));
    [eapply inOrder_keeps; [now apply keepsMessages_reply|exact Hord]|].
  destruct (negb (canRoute _ _));
    [eapply inOrder_keeps; [now apply keepsMessages_reply|exact Hord]|].
  set (picked := if truthy (field msg "id") then _ else _).
  assert (Hpicked : conns picked.2 = conns w /\
                    activeConnections picked.2 = activeConnections w /\
                    pendingQueues picked.2 = pendingQueues w /\
                    clockCalls picked.2 = clockCalls w).
  { unfold picked. now destruct (truthy (field msg "id")). }
  destruct picked as [id w1]. cbn [snd] in Hpicked. destruct Hpicked as (H1 & H2 & H3 & H4).
  unfold nowIso. cbv zeta.
  match goal with |- context [deliverEnvelope ?e ?w2] =>
    pose proof (inOrder_deliverEnvelope e w w2 Hwf Hord H1 H2 H3) as Hd;
    destruct (deliverEnvelope e w2) as [r w3]
  end.
  cbn [snd clockCalls env_ts] in Hd.
  eapply inOrder_keeps; [now apply keepsMessages_reply|].
  apply Hd; now rewrite H4.
Qed.

(** Draining a queue into a socket that has received nothing yet. *)
Lemma queues_flushLoop (n : nat) (k : value) (c : nat) (q : list envelope) (i : nat)
    (w : world) :
  stamped n q -> (forall k0 q0, (k0, q0) ∈ pendingQueues w -> stamped n q0) ->
  forall k0 q0, (k0, q0) ∈ pendingQueues (flushLoop k c q i w).2 -> stamped n q0.
Proof.
  revert i w. induction q as [|e q IH]; intros i w Hq Hall; [exact Hall|].
  cbn [flushLoop]. apply IH; [now apply (stamped_tail n (e :: q))|].
  intros k0 q0. cbn. intros H. apply elem_of_map_set in H as [H|[_ ->]].
  - now apply (Hall k0).
  - now apply (stamped_tail n (e :: q)).
Qed.

Lemma clockCalls_flushLoop (k : value) (c : nat) (q : list envelope) (i : nat) (w : world) :
  clockCalls (flushLoop k c q i w).2 = clockCalls w.
Proof.
  revert i w. induction q as [|e q IH]; intros i w; [reflexivity|].
  cbn [flushLoop]. now rewrite IH.
Qed.

Lemma inOrder_flushQueue (k : value) (c : nat) (w : world) :
  sameValueZero k k = true -> valid c w -> messagesOf c w = [] ->
  inOrder w -> inOrder (flushQueue k c w).2.
Proof.
  intros Hk Hc Hnone Hord.
  destruct (flushQueue_spec k c w Hk Hc) as (Hw & Ho & _ & _).
  pose proof (stamped_queueOf k w Hord) as Hqk.
  assert (Hclock : clockCalls (flushQueue k c w).2 = clockCalls w /\
                   forall k0 q0, (k0, q0) ∈ pendingQueues (flushQueue k c w).2 ->
                                 stamped (clockCalls w) q0).
  { unfold flushQueue. pose proof (getQueue_fst k w) as Hfst.
    pose proof (inOrder_keeps _ _ (keepsMessages_getQueue k w) Hord) as [_ Hq1].
    assert (Hn1 : clockCalls (getQueue k w).2 = clockCalls w).
    { unfold getQueue. cbn [snd]. now destruct (negb _). }
    destruct (getQueue k w) as [q w1]. cbn [fst snd] in *. subst q.
    rewrite Hn1 in Hq1.
    destruct (queueOf k w) as [|e q] eqn:E; cbn [snd]; [now split|].
    rewrite clockCalls_flushLoop. split; [exact Hn1|].
    now apply queues_flushLoop. }
  destruct Hclock as [Hn Hqs]. split.
  - intros c0. rewrite Hn. destruct (decide (c0 = c)) as [->|Hne].
    + unfold messagesOf in *. rewrite Hw, omap_app, Hnone. cbn [app].
      assert (Hmap : forall q, omap (fun f => match f with FMessage e => Some e | _ => None end)
                                 (map FMessage q) = q).
      { induction q as [|e q IH]; [reflexivity|]. cbn. now rewrite IH. }
      now rewrite Hmap.
    + unfold messagesOf. rewrite (Ho c0 Hne). apply Hord.
  - intros k0 q0. rewrite Hn. apply Hqs.
Qed.

Lemma addressed_handleFrame (c : nat) (line : string) (w w' : world) (ctl : control) :
  valid c w -> addressed w -> handleFrame c line w = Ok (ctl, w') -> addressed w'.
Proof.
  intros Hc Ha Hframe.
  apply (during_handleFrame c (fun w => valid c w /\ addressed w)) in Hframe;
    [apply Hframe|..]; clear Hframe; try (split; assumption).
  - now intros w0 [H _].
  - intros f w0 Hf [H1 H2]. split; [eapply valid_benign; [apply benign_sendJson|exact H1]|].
    now apply addressed_sendJson.
  - intros w0 [H1 H2]. split; [eapply valid_benign; [apply benign_destroy|exact H1]|].
    now apply addressed_updConn.
  - intros w0 [H1 H2]. split; [exact H1|now apply addressed_nowIso].
  - intros k w0 [H1 H2]. split; [eapply valid_benign; [apply benign_getQueue|exact H1]|].
    now apply addressed_getQueue.
  - intros k w0 Hau Hid [H1 H2].
    split; [eapply valid_benign; [apply benign_flushQueue|exact H1]|].
    now apply addressed_flushQueue.
  - intros msg w0 _ [H1 H2].
    split; [eapply valid_benign; [apply benign_handleSend|exact H1]|].
    now apply addressed_handleSend.
  - intros k cd w0 Hun _ [H1 H2]. split; [|now apply (addressed_auth c k)].
    unfold valid. rewrite conns_registerConnection. unfold setAuthed.
    now rewrite length_conns_updConn.
Qed.

Lemma inOrder_handleFrame (c : nat) (line : string) (w w' : world) (ctl : control) :
  valid c w -> wf w -> addressed w -> inOrder w ->
  handleFrame c line w = Ok (ctl, w') -> inOrder w'.
Proof.
  intros Hc Hwf Ha Hord. unfold handleFrame.
  assert (Hone : forall b f w0, isReply f = true -> keepsMessages w w0 ->
            Ok (b, sendJson c f w0) = Ok (ctl, w') -> inOrder w').
  { intros b f w0 Hf Hk [= _ <-].
    eapply inOrder_keeps; [|exact Hord].
    eapply keepsMessages_trans; [exact Hk|now apply keepsMessages_reply]. }
  destruct (String.eqb line ""); [now intros [= _ <-]|].
  destruct (_ >? _); [apply Hone; [reflexivity|apply keepsMessages_refl]|].
  unfold dispatch. cbv zeta.
  destruct (negb (truthy _)); [apply Hone; [reflexivity|apply keepsMessages_refl]|].
  destruct (authed (getConn c w)) eqn:Hau; cbn [negb].
  - destruct (isStr _ "ping").
    { destruct (nowIso w) as [ts w1] eqn:Hts. apply Hone; [reflexivity|].
      pose proof (keepsMessages_nowIso w) as H. now rewrite Hts in H. }
    destruct (isStr _ "send"); [intros [= _ <-]; now apply inOrder_handleSend|].
    destruct (isStr _ "whoami"); [|apply Hone; [reflexivity|apply keepsMessages_refl]].
    destruct (map_get _ clientsById) as [cd|]; [|discriminate].
    destruct (nowIso w) as [ts w1] eqn:Hts. apply Hone; [reflexivity|].
    pose proof (keepsMessages_nowIso w) as H. now rewrite Hts in H.
  - unfold handleUnauthed.
    destruct (negb (isStr _ _)); [apply Hone; [reflexivity|apply keepsMessages_refl]|].
    assert (Hreject : Ok (Return, destroy c (sendJson c FAuthFailed w)) = Ok (ctl, w') ->
                      inOrder w').
    { intros [= _ <-]. eapply inOrder_keeps; [|exact Hord].
      apply (keepsMessages_trans w (sendJson c FAuthFailed w));
        [now apply keepsMessages_reply|].
      unfold destroy. now apply keepsMessages_updConn. }
    destruct (map_get _ clientsById) as [cd|] eqn:Hget; [|exact Hreject].
    destruct (safeCompareHash _ _) as [same|m]; cbn [bind]; [|discriminate].
    destruct (negb same); [exact Hreject|].
    assert (Hk : sameValueZero (client_id cd) (client_id cd) = true).
    { destruct (clientsById_get _ _ Hget) as [-> _].
      apply (map_has_primitive _ clientsById). apply map_has_get. eauto. }
    set (w2 := registerConnection _ c _).
    assert (H2 : keepsMessages w w2 /\ length (conns w2) = length (conns w)).
    { unfold w2. split.
      - apply (keepsMessages_trans w (setAuthed c (client_id cd) w));
          [unfold setAuthed; now apply keepsMessages_updConn|].
        apply keepsMessages_same.
        + apply conns_registerConnection.
        + unfold registerConnection. now destruct (negb _).
        + unfold registerConnection. now destruct (negb _).
      - rewrite conns_registerConnection. apply length_conns_updConn. }
    destruct H2 as [Hk2 Hlen2].
    pose proof (keepsMessages_getQueue (client_id cd) w2) as Hk3.
    pose proof (conns_getQueue (client_id cd) w2) as Hc3.
    destruct (getQueue _ w2) as [q w3]. cbn [snd] in Hk3, Hc3.
    pose proof (keepsMessages_nowIso w3) as Hk4.
    destruct (nowIso w3) as [ts w4] eqn:Hts. cbn [snd] in Hk4.
    assert (Hc4 : conns w4 = conns w3) by (injection Hts as _ <-; reflexivity).
    set (w5 := sendJson c _ w4).
    assert (Hk5 : keepsMessages w w5).
    { eapply keepsMessages_trans; [exact Hk2|].
      eapply keepsMessages_trans; [exact Hk3|].
      eapply keepsMessages_trans; [exact Hk4|]. now apply keepsMessages_reply. }
    assert (Hc5 : valid c w5).
    { unfold valid, w5, sendJson. rewrite length_conns_updConn, Hc4, Hc3, Hlen2.
      exact Hc. }
    pose proof (inOrder_flushQueue (client_id cd) c w5 Hk Hc5) as Hflush.
    destruct (flushQueue _ c w5) as [n w6]. cbn [snd] in Hflush.
    intros [= _ <-]. apply Hflush.
    + destruct Hk5 as (Hm & _ & _). rewrite Hm. now apply messagesOf_unauthed.
    + now apply (inOrder_keeps w).
Qed.

Lemma inOrder_frameLoop (fuel c : nat) (w w' : world) :
  valid c w -> wf w -> addressed w -> inOrder w ->
  frameLoop fuel c w = Ok w' -> inOrder w'.
Proof.
  revert w. induction fuel as [|fuel IH]; intros w Hc Hwf Ha Hord; cbn [frameLoop].
  { now intros [= <-]. }
  destruct (indexOf LF _) as [idx|]; [|now intros [= <-]].
  set (w1 := setBuffer c _ w).
  assert (Hc1 : valid c w1).
  { unfold valid, w1, setBuffer. now rewrite length_conns_updConn. }
  assert (Hwf1 : wf w1).
  { apply (wf_sameCore w); [|exact Hwf]. apply benign_setBuffer. }
  assert (Ha1 : addressed w1) by (unfold w1, setBuffer; now apply addressed_updConn).
  assert (Hord1 : inOrder w1).
  { apply (inOrder_keeps w); [|exact Hord]. unfold w1, setBuffer.
    now apply keepsMessages_updConn. }
  destruct (handleFrame c _ w1) as [[ctl w2]|m] eqn:Hframe; cbn [bind]; [|discriminate].
  pose proof (inOrder_handleFrame _ _ _ _ _ Hc1 Hwf1 Ha1 Hord1 Hframe) as Hord2.
  destruct ctl; [|now intros [= <-]].
  destruct (handleFrame_wf _ _ _ _ _ Hc1 Hframe Hwf1) as [Hwf2 Hc2].
  apply IH; try assumption. exact (addressed_handleFrame _ _ _ _ _ Hc1 Ha1 Hframe).
Qed.

Lemma inOrder_onData (c : nat) (chunk : string) (w w' : world) :
  valid c w -> wf w -> addressed w -> inOrder w ->
  onData c chunk w = Ok w' -> inOrder w'.
Proof.
  intros Hc Hwf Ha Hord. unfold onData. set (w1 := setBuffer c _ w).
  assert (Hk1 : keepsMessages w w1).
  { unfold w1, setBuffer. now apply keepsMessages_updConn. }
  destruct (_ >? _).
  - intros [= <-]. apply (inOrder_keeps w); [|exact Hord].
    eapply keepsMessages_trans; [exact Hk1|].
    apply (keepsMessages_trans w1 (sendJson c (FError "buffer_exceeded") w1));
      [now apply keepsMessages_reply|].
    unfold destroy. now apply keepsMessages_updConn.
  - apply inOrder_frameLoop.
    + unfold valid, w1, setBuffer. now rewrite length_conns_updConn.
    + apply (wf_sameCore w); [|exact Hwf]. apply benign_setBuffer.
    + unfold w1, setBuffer. now apply addressed_updConn.
    + now apply (inOrder_keeps w).
Qed.

Lemma keepsMessages_buildStatus (w : world) : keepsMessages w (buildStatus w).2.
Proof.
  unfold buildStatus.
  assert (Hfold : forall cs acc,
            keepsMessages w acc.2 ->
            keepsMessages w
              (foldl (fun acc client =>
                        let '(q, w') := getQueue (client_id client) acc.2 in
                        (acc.1 ++ [(client_id client, length q)], w')) acc cs).2).
  { induction cs as [|cd cs IH]; intros acc Hacc; [exact Hacc|].
    cbn [foldl]. apply IH.
    pose proof (keepsMessages_getQueue (client_id cd) acc.2) as H.
    destruct (getQueue (client_id cd) acc.2) as [q w1]. cbn [snd] in *.
    eapply keepsMessages_trans; eassumption. }
  specialize (Hfold clients ([], w) (keepsMessages_refl w)).
  destruct (foldl _ _ _) as [queued w1]. cbn [snd] in Hfold.
  pose proof (keepsMessages_nowIso w1) as H.
  destruct (nowIso w1) as [ts w2]. cbn [snd] in *.
  eapply keepsMessages_trans; eassumption.
Qed.

Lemma inOrder_routeAdminSend (body : value) (w w' : world) (r : adminResult) :
  wf w -> inOrder w -> routeAdminSend body w = Ok (r, w') -> inOrder w'.
Proof.
  intros Hwf Hord. unfold routeAdminSend.
  destruct (getProp body "asClient") as [asClient|m]; cbn [bind]; [|discriminate].
  destruct (_ || _); [now intros [= _ <-]|].
  destruct (_ || _); [now intros [= _ <-]|].
  destruct (negb (canRoute _ _)); [now intros [= _ <-]|].
  set (picked := if truthy (field body "id") then _ else _).
  assert (Hpicked : conns picked.2 = conns w /\
                    activeConnections picked.2 = activeConnections w /\
                    pendingQueues picked.2 = pendingQueues w /\
                    clockCalls picked.2 = clockCalls w).
  { unfold picked. now destruct (truthy (field body "id")). }
  destruct picked as [id w1]. cbn [snd] in Hpicked. destruct Hpicked as (H1 & H2 & H3 & H4).
  unfold nowIso. cbv zeta.
  match goal with |- context [deliverEnvelope ?e ?w2] =>
    pose proof (inOrder_deliverEnvelope e w w2 Hwf Hord H1 H2 H3) as Hd;
    destruct (deliverEnvelope e w2) as [r0 w3]
  end.
  cbn [snd clockCalls env_ts] in Hd. intros [= _ <-].
  apply Hd; now rewrite H4.
Qed.

Lemma inOrder_httpHandler (req : request) (w w' : world) (resp : response) :
  wf w -> inOrder w -> httpHandler req w = Ok (resp, w') -> inOrder w'.
Proof.
  intros Hwf Hord. unfold httpHandler. cbv zeta.
  destruct (String.eqb (pathname req) "/health").
  { pose proof (keepsMessages_nowIso w) as H. destruct (nowIso w) as [ts w1].
    intros [= _ <-]. now apply (inOrder_keeps w). }
  repeat match goal with
    | |- (if String.eqb ?a ?b then _ else _) = _ -> _ =>
        destruct (String.eqb a b); [try (now intros [= _ <-])|]
    end.
  { now intros [= _ <-]. }
  destruct (negb (startsWith _ _)); [now intros [= _ <-]|].
  destruct (isAuthorizedHttp req) as [[|]|m]; cbn [bind negb]; try discriminate.
  2:{ now intros [= _ <-]. }
  destruct (_ && _).
  { pose proof (keepsMessages_buildStatus w) as H. destruct (buildStatus w) as [s w1].
    intros [= _ <-]. now apply (inOrder_keeps w). }
  destruct (_ && _); [|now intros [= _ <-]].
  destruct (parseBody req) as [parsed|m]; [|now intros [= _ <-]].
  destruct (routeAdminSend parsed w) as [[[e|e r] w1]|m] eqn:Hsend;
    intros [= _ <-]; try exact Hord; eapply inOrder_routeAdminSend; eassumption.
Qed.

Lemma inOrder_step (ev : event) (w w' : world) :
  wf w -> addressed w -> inOrder w -> step ev w = Ok w' -> inOrder w'.
Proof.
  intros Hwf Ha Hord. destruct ev as [|c chunk|c|req]; cbn [step].
  - intros [= <-]. split.
    + intros c. cbn [clockCalls withConns]. unfold messagesOf.
      replace (getConn c (withConns (conns w ++ [newConn]) w)) with (getConn c w);
        [apply Hord|].
      unfold getConn. cbn [conns withConns].
      destruct (decide (c < length (conns w))%nat) as [Hlt|Hge].
      * now rewrite lookup_app_l.
      * rewrite lookup_ge_None_2 by lia. rewrite lookup_app_r by lia.
        now destruct (c - length (conns w))%nat as [|[|n]].
    + intros k q. apply Hord.
  - destruct (live c w) eqn:Hlive; [|now intros [= <-]].
    destruct (onData c chunk w) as [w1|m] eqn:Hdata; cbn [bind]; [|discriminate].
    intros [= <-].
    apply inOrder_onData in Hdata; [|now apply live_valid|assumption..].
    destruct (destroyed _); [|exact Hdata].
    eapply inOrder_keeps; [apply keepsMessages_onClose|exact Hdata].
  - destruct (live c w); intros [= <-]; [|exact Hord].
    eapply inOrder_keeps; [|exact Hord].
    eapply keepsMessages_trans; [|apply keepsMessages_onClose].
    unfold destroy. now apply keepsMessages_updConn.
  - destruct (httpHandler req w) as [[resp w1]|m] eqn:Hhttp; cbn [bind]; [|discriminate].
    intros [= <-]. eapply inOrder_httpHandler; eassumption.
Qed.

Lemma inOrder_initial : inOrder initial.
Proof.
  split.
  - intros c. unfold messagesOf, getConn. cbn. rewrite lookup_nil. apply stamped_nil.
  - intros k q H. inversion H.
Qed.

Lemma inOrder_run (evs : list event) (w w' : world) :
  wf w -> addressed w -> inOrder w -> run evs w = Ok w' -> inOrder w'.
Proof.
  revert w. induction evs as [|ev evs IH]; intros w Hwf Ha Hord; cbn [run].
  - now intros [= <-].
  - destruct (step ev w) as [w1|m] eqn:Hstep; cbn [bind]; [|discriminate].
    apply IH.
    + apply (run_wf [ev] w w1); [|exact Hwf]. cbn [run]. now rewrite Hstep.
    + eapply addressed_step; eassumption.
    + eapply inOrder_step; eassumption.
Qed.

(** X18: envelopes arrive in the order in which the bridge stamped them.
    In every state the daemon reaches, the envelopes written on a socket,
    oldest first, carry the times of increasing readings of the clock, and
    so do the envelopes waiting in a queue: no envelope overtakes another
    on its way to a connection, through the queue or past it, and none is
    written twice on one socket. *)
Theorem envelopes_arrive_in_order (w : world) :
  reachable w ->
  (forall c, stamped (clockCalls w) (messagesOf c w)) /\
  (forall k, stamped (clockCalls w) (queueOf k w)).
Proof.
  intros Hreach. assert (Hord : inOrder w).
  { destruct Hreach as [evs Hrun]. revert Hrun. apply inOrder_run.
    - apply wf_initial.
    - apply addressed_initial.
    - apply inOrder_initial. }
  split; [apply Hord|]. intros k. now apply stamped_queueOf.
Qed.

End OrderFacts.

(** The relay run: the server's socket holds the agent's two envelopes,
    the one that waited in the queue before the one sent straight. *)
Lemma envelopes_arrive_in_order_witness :
  reachable (rt := exampleRuntime) (config := exampleConfig) (stateAfter relayRun) /\
  map env_payload (messagesOf 1 (stateAfter relayRun)) = [VNum 1; VNum 2] /\
  map env_ts (messagesOf 1 (stateAfter relayRun)) =
    map (clock (Runtime := exampleRuntime)) [1; 3]%nat /\
  (forall c, stamped (rt := exampleRuntime) (clockCalls (stateAfter relayRun))
               (messagesOf c (stateAfter relayRun))) /\
  (forall k, stamped (rt := exampleRuntime) (clockCalls (stateAfter relayRun))
               (queueOf k (stateAfter relayRun))).
Proof.
  assert (Hreach : reachable (rt := exampleRuntime) (config := exampleConfig)
                     (stateAfter relayRun)).
  { apply reachable_stateAfter. vm_compute. reflexivity. }
  split; [exact Hreach|]. split; [vm_compute; reflexivity|].
  split; [vm_compute; reflexivity|].
  exact (envelopes_arrive_in_order (rt := exampleRuntime) (config := exampleConfig)
           (stateAfter relayRun) Hreach).
Defined.

(** ** Identity and the unauthenticated *)

Section IdentityFacts.
Context {rt : Runtime} {config : Config}.

(** X19: an authenticated connection keeps its identity.  Whatever
    happens after a connection has authenticated - further frames on it,
    another [auth] frame among them, traffic on other connections, HTTP
    requests, its own closing - it stays authenticated and its client id
    stays the one it authenticated as. *)
Theorem identity_is_permanent (evs : list event) (w w' : world) (c : nat) :
  run evs w = Ok w' -> authed (getConn c w) = true ->
  authed (getConn c w') = true /\ clientId (getConn c w') = clientId (getConn c w).
Proof.
  revert w. induction evs as [|ev evs IH]; intros w; cbn [run].
  - intros [= <-] Hau. now split.
  - destruct (step ev w) as [w1|m] eqn:Hstep; cbn [bind]; [|discriminate].
    intros Hrun Hau. destruct (keepsAuth_step ev w w1 Hstep c Hau) as [Hau1 Hid1].
    destruct (IH w1 Hrun Hau1) as [Hau' Hid']. split; [exact Hau'|congruence].
Qed.









End IdentityFacts.

(** The agent's connection after it has sent the server's credentials as
    well: still the agent's, and the second [auth] refused. *)
Lemma identity_is_permanent_witness :
  authed (getConn 0 (stateAfter secondAuthRun)) = true /\
  clientId (getConn 0 (stateAfter secondAuthRun)) = VStr "agent-client" /\
  last (written (getConn 0 (stateAfter secondAuthRun))) = Some (FError "unknown_action").
Proof.
  destruct (identity_is_permanent (rt := exampleRuntime) (config := exampleConfig)
              [Data 0 (wire (authFrame "openclaw-server" "server-key!"))]
              (stateAfter (firstn 2 secondAuthRun)) (stateAfter secondAuthRun) 0)
    as [H1 H2].
  - vm_compute. reflexivity.
  - vm_compute. reflexivity.
  - split; [exact H1|]. split; [rewrite H2; vm_compute; reflexivity|].
    vm_compute. reflexivity.
Defined.


Example intruder_gets_errors :
  written (getConn 1 (stateAfter (intruderRun ++ [Data 1 intruderChunk]))) =
    [FError "auth_required"; FError "auth_required"] /\
  messagesOf 0 (stateAfter (intruderRun ++ [Data 1 intruderChunk])) = [].
Proof. split; vm_compute; reflexivity. Qed.

(** ** The command line of the client *)

Lemma startsWith_dashes (s : string) : startsWith "--" ("--" +:+ s) = true.
Proof. now destruct s. Qed.

Lemma lookupField_assignArg (k key : string) (v : value) (out : list (string * value)) :
  key <> "__proto__" ->
  lookupField k (assignArg key v out) =
  if String.eqb k key then Some v else lookupField k out.
Proof.
  intros Hkey. unfold assignArg. apply String.eqb_neq in Hkey. rewrite Hkey.
  apply lookupField_setField.
Qed.

Lemma parseArgsFrom_plain (items : list argItem) :
  forall (out : list (string * value)) (l : list value),
  plainItems items -> lookupField "_" out = Some (VArr l) ->
  exists out',
    parseArgsFrom (commandLine items) out = Ok out' /\
    lookupField "_" out' = Some (VArr (l ++ map VStr (positionalsOf items))) /\
    forall k, k <> "_" ->
      lookupField k out' =
      match lastSetting k items with Some v => Some v | None => lookupField k out end.
Proof.
  induction items as [|item items IH]; intros out l Hplain Hl.
  - exists out. cbn. rewrite app_nil_r. now repeat split.
  - destruct Hplain as [Hitem Hrest]. destruct item as [s|key|key v].
    + change (commandLine (Positional s :: items)) with (s :: commandLine items).
      cbn [parseArgsFrom]. rewrite Hitem, Hl.
      destruct (IH (setField "_" (VArr (l ++ [VStr s])) out) (l ++ [VStr s]) Hrest)
        as (out' & Hrun & Hpos & Hkeys).
      { rewrite lookupField_setField. now rewrite String.eqb_refl. }
      exists out'. split; [exact Hrun|]. split.
      * rewrite Hpos. cbn [positionalsOf omap map]. now rewrite <- app_assoc.
      * intros k Hk. rewrite (Hkeys k Hk). cbn [lastSetting].
        destruct (lastSetting k items); [reflexivity|].
        rewrite lookupField_setField. apply String.eqb_neq in Hk. now rewrite Hk.
    + destruct Hitem as [[Hk1 Hk2] Hnext].
      change (commandLine (Switch key :: items))
        with (("--" +:+ key) :: commandLine items).
      cbn [parseArgsFrom]. rewrite startsWith_dashes.
      change (sliceFrom 2 ("--" +:+ key)) with key.
      assert (Hrun : forall argv,
                argv = commandLine items ->
                match argv with
                | next :: rest' =>
                    if negb (String.eqb next "") && negb (startsWith "--" next)
                    then parseArgsFrom rest' (assignArg key (VStr next) out)
                    else parseArgsFrom argv (assignArg key (VBool true) out)
                | [] => parseArgsFrom argv (assignArg key (VBool true) out)
                end = parseArgsFrom argv (assignArg key (VBool true) out)).
      { intros argv ->. destruct items as [|[s|k2|k2 v2] items']; [reflexivity|..].
        - subst s. reflexivity.
        - change (commandLine (Switch k2 :: items'))
            with (("--" +:+ k2) :: commandLine items').
          cbv beta iota. now rewrite startsWith_dashes, andb_false_r.
        - change (commandLine (Setting k2 v2 :: items'))
            with (("--" +:+ k2) :: v2 :: commandLine items').
          cbv beta iota. now rewrite startsWith_dashes, andb_false_r. }
      rewrite (Hrun (commandLine items) eq_refl).
      destruct (IH (assignArg key (VBool true) out) l Hrest) as (out' & Hr & Hpos & Hkeys).
      { rewrite lookupField_assignArg by exact Hk2.
        assert (E : String.eqb "_" key = false) by (apply String.eqb_neq; congruence).
        now rewrite E. }
      exists out'. split; [exact Hr|]. split; [exact Hpos|].
      intros k Hk. rewrite (Hkeys k Hk). cbn [lastSetting].
      destruct (lastSetting k items); [reflexivity|].
      rewrite lookupField_assignArg by exact Hk2. now destruct (String.eqb k key).
    + destruct Hitem as ([Hk1 Hk2] & Hv1 & Hv2).
      change (commandLine (Setting key v :: items))
        with (("--" +:+ key) :: v :: commandLine items).
      cbn [parseArgsFrom]. rewrite startsWith_dashes.
      change (sliceFrom 2 ("--" +:+ key)) with key.
      apply String.eqb_neq in Hv1. rewrite Hv1, Hv2. cbn [negb andb].
      destruct (IH (assignArg key (VStr v) out) l Hrest) as (out' & Hr & Hpos & Hkeys).
      { rewrite lookupField_assignArg by exact Hk2.
        assert (E : String.eqb "_" key = false) by (apply String.eqb_neq; congruence).
        now rewrite E. }
      exists out'. split; [exact Hr|]. split; [exact Hpos|].
      intros k Hk. rewrite (Hkeys k Hk). cbn [lastSetting].
      destruct (lastSetting k items); [reflexivity|].
      rewrite lookupField_assignArg by exact Hk2. now destruct (String.eqb k key).
Qed.

(** X21: [parseArgs] reads a command line as it is meant when its
    positional arguments and values do not start with two dashes, its
    values are not empty, no key is [_] or [__proto__] and no switch stands
    right before a positional argument: [_] lists the positional arguments
    in order, a key holds the value of the last option or switch that names
    it, and no other key is set. *)
Theorem parseArgs_reads_command_line (items : list argItem) :
  plainItems items ->
  exists out,
    parseArgs (commandLine items) = Ok out /\
    lookupField "_" out = Some (VArr (map VStr (positionalsOf items))) /\
    forall k, k <> "_" -> lookupField k out = lastSetting k items.
Proof.
  intros Hplain.
  destruct (parseArgsFrom_plain items [("_", VArr [])] [] Hplain eq_refl)
    as (out & Hrun & Hpos & Hkeys).
  exists out. split; [exact Hrun|]. split; [exact Hpos|].
  intros k Hk. rewrite (Hkeys k Hk). destruct (lastSetting k items); [reflexivity|].
  cbn. apply String.eqb_neq in Hk. now rewrite Hk.
Qed.

Lemma parseArgs_reads_command_line_witness :
  exists out,
    parseArgs (commandLine sendItems) = Ok out /\
    lookupField "_" out = Some (VArr [VStr "send"]) /\
    forall k, k <> "_" -> lookupField k out = lastSetting k sendItems.
Proof.
  apply (parseArgs_reads_command_line sendItems).
  cbn. repeat split; discriminate.
Defined.

(** What the conditions keep out: a switch swallows the positional
    argument behind it, an empty value is read as a positional argument,
    and the key [_] makes the next positional argument throw. *)
Example parseArgs_edges :
  parseArgs ["--verbose"; "send"] = Ok [("_", VArr []); ("verbose", VStr "send")] /\
  parseArgs ["--to"; ""] = Ok [("_", VArr [VStr ""]); ("to", VBool true)] /\
  parseArgs ["--_"; "x"; "send"] = Throw "TypeError: out._.push is not a function" /\
  parseArgs ["--__proto__"; "x"] = Ok [("_", VArr [])].
Proof. repeat split. Qed.
